(** * musicfig: the portal driver and the tag session of [app/lego.py]

    A shallow embedding of the two classes of [app/lego.py]:

    - [Dimensions], the USB driver of the Lego Dimensions portal
      (command framing, checksum, decoding of inbound frames);
    - [Base], the control loop [startLego] that turns tag events into
      playback and provider calls.

    The modules [Wire] and [Lightshow] add the start-up of the driver
    and the lightshow thread; [appletv], [huesyncbox], [samsungtv],
    [homepod], [xboxctl] and [yoto] embed the functions of the provider
    modules of [app/] that the loop reaches.

    Python integers are [Z], Python floats are binary64 [float]s, strings
    are [string], dictionaries are [gmap]s.  Calls that leave the process
    (USB, player, network providers, threads) are recorded in a trace;
    what they answer is read from an oracle that sees the whole history.
    Logging is not modelled. *)

From Stdlib Require Import ZArith List String Ascii Lia Bool.
From Corelib Require Import PrimFloat.
From stdpp Require Import base tactics option list strings gmap pretty.

Set Warnings "-inexact-float".

Open Scope Z_scope.

(** ** Python exceptions that the modelled code can meet *)

Inductive exn : Type :=
| AttributeError
| NameError
| KeyError
| IndexError
| ValueError.

(** * The portal driver: class [Dimensions] *)

Module Portal.

(** What [dev.write] and [dev.read] of pyusb can do. *)
Inductive write_result : Type :=
| WriteOk
| WriteUSBError.

Inductive read_result : Type :=
| ReadData (inwards_packet : list Z)
| ReadUSBTimeoutError
| ReadUSBError
| ReadOtherException.

(** The device handle: [write(endpoint, data)] and
    [read(endpoint, size, timeout)]. *)
Record usb_device : Type := {
  write : Z -> list Z -> write_result;
  read : Z -> Z -> Z -> read_result
}.

(** [usb.core.find]: the device, nothing, or an error of the backend. *)
Inductive find_result : Type :=
| Found (d : usb_device)
| NotFound
| FindUSBError.

(** [self.dev] is the device or [None]. *)
Record Dimensions : Type := { dev : option usb_device }.

(** [__init__]: [init_usb] raises [ValueError] when the pad is not found,
    and both [ValueError] and [USBError] leave [self.dev = None]. *)
Definition init (found : find_result) : Dimensions :=
  match found with
  | Found d => {| dev := Some d |}
  | NotFound => {| dev := None |}
  | FindUSBError => {| dev := None |}
  end.

(** A call of [dev.write(1, message)] that was made. *)
Inductive usb_call : Type :=
| Write (endpoint : Z) (message : list Z).

Inductive outcome (A : Type) : Type :=
| Returned (a : A)
| Raised (e : exn).
Arguments Returned {A} a.
Arguments Raised {A} e.

(** The checksum loop of [send_command]:
    [checksum = checksum + word; if checksum >= 256: checksum -= 256]. *)
Fixpoint checksum_loop (checksum : Z) (command : list Z) : Z :=
  match command with
  | [] => checksum
  | word :: rest =>
      let checksum := checksum + word in
      let checksum := if 256 <=? checksum then checksum - 256 else checksum in
      checksum_loop checksum rest
  end.

(** [while len(message) < 32: message.append(0x00)], with the number of
    iterations still allowed. *)
Fixpoint pad_loop (fuel : nat) (message : list Z) : list Z :=
  match fuel with
  | O => message
  | S fuel' =>
      if (length message <? 32)%nat
      then pad_loop fuel' (message ++ [0])
      else message
  end.

(** The message that [send_command] builds: 32 iterations always end the
    padding loop, see [pad_loop_enough]. *)
Definition build_message (command : list Z) : list Z :=
  let checksum := checksum_loop 0 command in
  let message := command ++ [checksum] in
  pad_loop 32 message.

(** [send_command]: only [usb.core.USBError] is caught around the write;
    with [self.dev = None] the attribute lookup [self.dev.write] raises
    [AttributeError], which is not. *)
Definition send_command (self : Dimensions) (command : list Z)
  : list usb_call * outcome unit :=
  let message := build_message command in
  match dev self with
  | None => ([], Raised AttributeError)
  | Some d =>
      match write d 1 message with
      | WriteOk => ([Write 1 message], Returned tt)
      | WriteUSBError => ([Write 1 message], Returned tt)
      end
  end.

(** A colour is a list [[r, g, b]]; [colour[i]] raises [IndexError] past
    its end. *)
Definition colour_at (colour : list Z) (i : nat) : outcome Z :=
  match nth_error colour i with
  | Some c => Returned c
  | None => Raised IndexError
  end.

Definition with_colour (colour : list Z)
    (k : Z -> Z -> Z -> list usb_call * outcome unit)
  : list usb_call * outcome unit :=
  match colour_at colour 0, colour_at colour 1, colour_at colour 2 with
  | Returned r, Returned g, Returned b => k r g b
  | Raised e, _, _ => ([], Raised e)
  | _, Raised e, _ => ([], Raised e)
  | _, _, Raised e => ([], Raised e)
  end.

Definition switch_pad (self : Dimensions) (pad : Z) (colour : list Z) :=
  with_colour colour (fun r g b =>
    send_command self [0x55; 0x06; 0xc0; 0x02; pad; r; g; b]).

Definition fade_pad (self : Dimensions) (pad pulse_time pulse_count : Z)
    (colour : list Z) :=
  with_colour colour (fun r g b =>
    send_command self
      [0x55; 0x08; 0xc2; 0x0f; pad; pulse_time; pulse_count; r; g; b]).

Definition flash_pad (self : Dimensions)
    (pad on_length off_length pulse_count : Z) (colour : list Z) :=
  with_colour colour (fun r g b =>
    send_command self
      [0x55; 0x09; 0xc3; 0x03; pad; on_length; off_length; pulse_count;
       r; g; b]).

(** *** Decoding an inbound frame *)

Definition is_byte (b : Z) : bool := (0 <=? b) && (b <? 256).

Definition hex_digit (n : Z) : ascii :=
  match n with
  | 0 => "0" | 1 => "1" | 2 => "2" | 3 => "3" | 4 => "4"
  | 5 => "5" | 6 => "6" | 7 => "7" | 8 => "8" | 9 => "9"
  | 10 => "a" | 11 => "b" | 12 => "c" | 13 => "d" | 14 => "e"
  | _ => "f"
  end%char.

(** [binascii.hexlify(bytearray(bs)).decode("utf-8")]: two lower-case
    digits per byte. *)
Fixpoint hexlify (bs : list Z) : string :=
  match bs with
  | [] => EmptyString
  | b :: rest =>
      String (hex_digit (b / 16)) (String (hex_digit (b mod 16)) (hexlify rest))
  end.

(** [s.replace(old, new)] for a non-empty [old]: the occurrences of [old]
    are found from left to right and do not overlap.  [skip] counts the
    characters of a found occurrence that are still to be dropped. *)
Fixpoint replace_from (old new : string) (skip : nat) (s : string) : string :=
  match s with
  | EmptyString => EmptyString
  | String c rest =>
      match skip with
      | S k => replace_from old new k rest
      | O =>
          if String.prefix old s
          then new +:+ replace_from old new (String.length old - 1) rest
          else String c (replace_from old new 0 rest)
      end
  end.

Definition replace (old new s : string) : string := replace_from old new 0 s.

(** The slice [bytelist[lo:hi]]. *)
Definition slice {A} (lo hi : nat) (l : list A) : list A :=
  firstn (hi - lo) (skipn lo l).

(** ['%s:%s:%s' % (status, pad_num, identifier)]. *)
Definition response_of (status : string) (pad_num : Z) (identifier : string)
  : string :=
  status +:+ ":" +:+ pretty pad_num +:+ ":" +:+ identifier.

(** The body of [update_nfc] once a packet has been read.  [IndexError]
    of [bytelist[2]] and [bytelist[5]] and [ValueError] of [bytearray]
    are caught by [except Exception] and give [None]. *)
Definition decode_packet (bytelist : list Z) : option string :=
  match bytelist with
  | [] => None
  | first :: _ =>
      if first =? 0x56 then
        match nth_error bytelist 2 with
        | None => None
        | Some pad_num =>
            let uid_bytes := slice 6 13 bytelist in
            if forallb is_byte uid_bytes then
              let identifier := hexlify uid_bytes in
              let identifier := replace "000000" "" identifier in
              match nth_error bytelist 5 with
              | None => None
              | Some flag =>
                  let removed := negb (flag =? 0) in
                  if removed
                  then Some (response_of "removed" pad_num identifier)
                  else Some (response_of "added" pad_num identifier)
              end
            else None
      end
      else None
  end.

(** [update_nfc]: every exception is caught, also the [AttributeError] of
    [self.dev.read] on a missing device. *)
Definition update_nfc (self : Dimensions) : option string :=
  match dev self with
  | None => None
  | Some d =>
      match read d 0x81 32 100 with
      | ReadData inwards_packet => decode_packet inwards_packet
      | ReadUSBTimeoutError => None
      | ReadUSBError => None
      | ReadOtherException => None
      end
  end.

(** The identifier as the specification words it: the hex text with a
    leading group ["000000"] taken off, and nothing else. *)
Fixpoint string_drop (n : nat) (s : string) : string :=
  match s with
  | EmptyString => EmptyString
  | String c rest =>
      match n with
      | O => s
      | S k => string_drop k rest
      end
  end.

Definition strip_leading_zero_group (hex : string) : string :=
  if String.prefix "000000" hex then string_drop 6 hex else hex.

(** Does [old] occur somewhere in [s]? *)
Fixpoint occurs (old s : string) : bool :=
  match s with
  | EmptyString => String.prefix old s
  | String _ rest => String.prefix old s || occurs old rest
  end.

(** The sum of a list of integers. *)
Definition total (l : list Z) : Z := foldr Z.add 0 l.

(** A value that fits a byte. *)
Definition byte (b : Z) : Prop := 0 <= b < 256.

End Portal.

(** * The tag session: class [Base] *)

Module Session.
Import Portal.

(** ** Configuration: [tags.yml] as [app.tags] loads it *)

(** The binding of one identifier is a dictionary from option names
    ([mp3], [playlist], [spotify], ...) to their configured text:
    [gmap string string]. *)

Record tags_config : Type := {
  lights : option bool;
  mp3_dir : option string;
  slack_hook : option string;
  identifier : option (gmap string (gmap string string))
}.

(** ** Calls that leave the control thread *)

(** Provider calls whose boolean answer the loop uses. *)
Inductive bquery : Type :=
| spotify_activated
| huesyncbox_configured
| huesyncbox_switch_to_appletv_sync
| samsungtv_configured
| samsungtv_switch_to_appletv
| appletv_launch_disney (content_id : string)
| appletv_launch_netflix (content_id : string)
| appletv_launch_youtube (video_id : string)
| homepod_stream_file (file_path : string) (target : option string)
| xboxctl_sync_power_on.

(** Calls that answer a number. *)
Inductive nquery : Type :=
| spotify_resume
| spotify_spotcast (uri : string) (position_ms : Z)
| MP3_info_length (mp3file : string).

Inductive call : Type :=
| usb (c : usb_call)
| nfc_load_tags
| ask (q : bquery) (answer : bool)
| ask_num (q : nquery) (answer : float)
| glob_glob (pattern : string) (answer : list string)
| random_shuffle (l : list string) (answer : list string)
| spotify_pause
| player_open (mp3file : string)
| player_play
| player_pause
| player_playlist (files : list string)
| webhook_post (url text : string)
| subprocess_run (command : string)
| time_sleep (seconds : float)
| appletv_load_config
| huesyncbox_load_config
| samsungtv_load_config
| homepod_load_config
| xboxctl_load_config
| samsungtv_send_key (key : string)
| xboxctl_sync_launch_app (app_id : string)
| thread_start (thread : nat) (duration : float)
| thread_stop (thread : nat).

(** The collaborators: what they answer may depend on everything that
    has been done so far. *)
Record world : Type := {
  answer : list call -> bquery -> bool;
  answer_num : list call -> nquery -> float;
  answer_glob : list call -> string -> list string;
  answer_shuffle : list call -> list string -> list string;
  answer_tags : list call -> tags_config;
  app_dir : string
}.

(** ** The state of [startLego]: module globals, attributes of [self],
    and the calls made so far *)

Record session : Type := {
  base : Dimensions;
  current_tag : option string;
  previous_tag : option string;
  mp3state : option string;
  mp3_duration : option float;
  mp3elapsed : option float;
  switch_lights : bool;
  lightshowThread : option nat;
  threads : nat;
  tags : tags_config;
  history : list call
}.

Definition set_current_tag (v : option string) (s : session) : session :=
  {| base := base s; current_tag := v; previous_tag := previous_tag s;
     mp3state := mp3state s; mp3_duration := mp3_duration s;
     mp3elapsed := mp3elapsed s; switch_lights := switch_lights s;
     lightshowThread := lightshowThread s; threads := threads s;
     tags := tags s; history := history s |}.

Definition set_previous_tag (v : option string) (s : session) : session :=
  {| base := base s; current_tag := current_tag s; previous_tag := v;
     mp3state := mp3state s; mp3_duration := mp3_duration s;
     mp3elapsed := mp3elapsed s; switch_lights := switch_lights s;
     lightshowThread := lightshowThread s; threads := threads s;
     tags := tags s; history := history s |}.

Definition set_mp3state (v : option string) (s : session) : session :=
  {| base := base s; current_tag := current_tag s;
     previous_tag := previous_tag s;
     mp3state := v; mp3_duration := mp3_duration s;
     mp3elapsed := mp3elapsed s; switch_lights := switch_lights s;
     lightshowThread := lightshowThread s; threads := threads s;
     tags := tags s; history := history s |}.

Definition set_mp3_duration (v : option float) (s : session) : session :=
  {| base := base s; current_tag := current_tag s;
     previous_tag := previous_tag s;
     mp3state := mp3state s; mp3_duration := v;
     mp3elapsed := mp3elapsed s; switch_lights := switch_lights s;
     lightshowThread := lightshowThread s; threads := threads s;
     tags := tags s; history := history s |}.

Definition set_mp3elapsed (v : option float) (s : session) : session :=
  {| base := base s; current_tag := current_tag s;
     previous_tag := previous_tag s;
     mp3state := mp3state s; mp3_duration := mp3_duration s;
     mp3elapsed := v; switch_lights := switch_lights s;
     lightshowThread := lightshowThread s; threads := threads s;
     tags := tags s; history := history s |}.

Definition set_tags (v : tags_config) (s : session) : session :=
  {| base := base s; current_tag := current_tag s;
     previous_tag := previous_tag s;
     mp3state := mp3state s; mp3_duration := mp3_duration s;
     mp3elapsed := mp3elapsed s; switch_lights := switch_lights s;
     lightshowThread := lightshowThread s; threads := threads s;
     tags := v; history := history s |}.

(** A new [threading.Thread] object becomes [self.lightshowThread]. *)
Definition set_lightshowThread (s : session) : session :=
  {| base := base s; current_tag := current_tag s;
     previous_tag := previous_tag s;
     mp3state := mp3state s; mp3_duration := mp3_duration s;
     mp3elapsed := mp3elapsed s; switch_lights := switch_lights s;
     lightshowThread := Some (threads s); threads := S (threads s);
     tags := tags s; history := history s |}.

Definition record (cs : list call) (s : session) : session :=
  {| base := base s; current_tag := current_tag s;
     previous_tag := previous_tag s;
     mp3state := mp3state s; mp3_duration := mp3_duration s;
     mp3elapsed := mp3elapsed s; switch_lights := switch_lights s;
     lightshowThread := lightshowThread s; threads := threads s;
     tags := tags s; history := history s ++ cs |}.

(** ** Control: a statement ends normally, raises, or is the [continue]
    of the [while True] loop *)

Inductive signal : Type :=
| Raise (e : exn)
| Continue.

Inductive result (A : Type) : Type :=
| Done (a : A)
| Stop (sg : signal).
Arguments Done {A} a.
Arguments Stop {A} sg.

Definition M (A : Type) : Type := session -> result A * session.

#[global] Instance M_ret : MRet M := fun A a s => (Done a, s).
#[global] Instance M_bind : MBind M := fun A B k m s =>
  match m s with
  | (Done a, s') => k a s'
  | (Stop sg, s') => (Stop sg, s')
  end.

Definition get : M session := fun s => (Done s, s).
Definition modify (f : session -> session) : M unit := fun s => (Done tt, f s).
Definition raise {A} (e : exn) : M A := fun s => (Stop (Raise e), s).
Definition continue : M unit := fun s => (Stop Continue, s).
Definition when (b : bool) (m : M unit) : M unit := if b then m else mret tt.

(** A statement sequence run one after the other. *)
Fixpoint sequence (ms : list (M unit)) : M unit :=
  match ms with
  | [] => mret tt
  | m :: rest => m ;; sequence rest
  end.

(** A [for] loop over a list. *)
Fixpoint for_each {A} (l : list A) (body : A -> M unit) : M unit :=
  match l with
  | [] => mret tt
  | x :: rest => body x ;; for_each rest body
  end.


(** ** Small pieces of Python *)

(** [tag.split(':')]. *)
Fixpoint split_on (sep : ascii) (s : string) : list string :=
  match s with
  | EmptyString => [EmptyString]
  | String c rest =>
      if Ascii.eqb c sep then EmptyString :: split_on sep rest
      else match split_on sep rest with
           | [] => [String c EmptyString]
           | h :: t => String c h :: t
           end
  end.

Definition digit_of (c : ascii) : option Z :=
  let n := Z.of_nat (nat_of_ascii c) in
  if (48 <=? n) && (n <=? 57) then Some (n - 48) else None.

(** The white space that [int] skips, among the ASCII characters: tab,
    line feed, vertical tab, form feed, carriage return and the blank. *)
Definition py_isspace (c : ascii) : bool :=
  let n := Z.of_nat (nat_of_ascii c) in
  ((9 <=? n) && (n <=? 13)) || (n =? 32).

Fixpoint all_space (s : string) : bool :=
  match s with
  | EmptyString => true
  | String c rest => py_isspace c && all_space rest
  end.

Fixpoint lstrip (s : string) : string :=
  match s with
  | EmptyString => s
  | String c rest => if py_isspace c then lstrip rest else s
  end.

(** What follows the first digit of a literal: digits, each after at
    most one underscore, then white space up to the end. *)
Fixpoint int_digits (acc : Z) (s : string) : option Z :=
  match s with
  | EmptyString => Some acc
  | String c rest =>
      match digit_of c with
      | Some d => int_digits (10 * acc + d) rest
      | None =>
          if Ascii.eqb c "_" then
            match rest with
            | EmptyString => None
            | String c' rest' =>
                match digit_of c' with
                | Some d => int_digits (10 * acc + d) rest'
                | None => None
                end
            end
          else if all_space s then Some acc else None
      end
  end.

Definition int_literal (s : string) : option Z :=
  match s with
  | EmptyString => None
  | String c rest =>
      match digit_of c with
      | Some d => int_digits d rest
      | None => None
      end
  end.

(** [int(text)] on a text of ASCII characters: white space around the
    literal, an optional sign, and decimal digits with single underscores
    between them; [None] stands for [ValueError].  (Digits and white
    space outside ASCII, and the limit of 4300 digits, are not
    modelled.) *)
Definition py_int (s : string) : option Z :=
  match lstrip s with
  | String "-" r => Z.opp <$> int_literal r
  | String "+" r => int_literal r
  | t => int_literal t
  end.

(** [a == b] on two values that are a string or [None]. *)
Definition tag_eqb (a b : option string) : bool := bool_decide (a = b).

Definition has_key (k : string) (d : gmap string string) : bool :=
  bool_decide (is_Some (d !! k)).

(** Truth value of a string. *)
Definition truthy (s : string) : bool :=
  match s with EmptyString => false | _ => true end.

(** The palette of [Base.__init__]. *)
Definition OFF : list Z := [0; 0; 0].
Definition RED : list Z := [255; 0; 0].
Definition GREEN : list Z := [0; 255; 0].
Definition BLUE : list Z := [0; 0; 255].
Definition PINK : list Z := [255; 192; 203].
Definition ORANGE : list Z := [255; 165; 0].
Definition PURPLE : list Z := [255; 0; 255].
Definition LBLUE : list Z := [173; 216; 230].
Definition OLIVE : list Z := [128; 128; 0].
Definition COLOURS : list (list Z) :=
  [RED; GREEN; BLUE; PINK; ORANGE; PURPLE; LBLUE; OLIVE].

(** [appletv.activated()] of [app/appletv.py] returns [True]. *)
Definition appletv_activated : bool := true.


Section Operations.

Variable w : world.

(** ** Calls *)

Definition do_call (c : call) : M unit := modify (record [c]).

Definition query (q : bquery) : M bool := fun s =>
  let r := answer w (history s) q in
  (Done r, record [ask q r] s).

Definition query_num (q : nquery) : M float := fun s =>
  let r := answer_num w (history s) q in
  (Done r, record [ask_num q r] s).

Definition glob (pattern : string) : M (list string) := fun s =>
  let r := answer_glob w (history s) pattern in
  (Done r, record [glob_glob pattern r] s).

Definition shuffle (l : list string) : M (list string) := fun s =>
  let r := answer_shuffle w (history s) l in
  (Done r, record [random_shuffle l r] s).

(** [nfc.load_tags(); tags = nfc.tags]. *)
Definition load_tags : M tags_config := fun s =>
  let t := answer_tags w (history s) in
  (Done t, set_tags t (record [nfc_load_tags] s)).

(** Reading a module global that may not be bound yet. *)
Definition read_global {A} (v : session -> option A) : M A := fun s =>
  match v s with
  | Some x => (Done x, s)
  | None => (Stop (Raise NameError), s)
  end.

(** A method of [self.base]. *)
Definition on_base (f : Dimensions -> list usb_call * outcome unit) : M unit :=
  fun s =>
    let s' := record (map usb (fst (f (base s)))) s in
    match snd (f (base s)) with
    | Returned _ => (Done tt, s')
    | Raised e => (Stop (Raise e), s')
    end.

Definition base_switch_pad (pad : Z) (colour : list Z) : M unit :=
  on_base (fun b => Portal.switch_pad b pad colour).

Definition base_flash_pad (pad on_length off_length pulse_count : Z)
    (colour : list Z) : M unit :=
  on_base (fun b => Portal.flash_pad b pad on_length off_length pulse_count colour).

(** ** The lightshow thread, seen from the control thread *)

(** [startLightshow]: a new thread object is stored in
    [self.lightshowThread] and started; it runs [randomLightshow] for
    [duration_ms / 1000] seconds.  Nothing here stops an earlier thread. *)
Definition startLightshow (duration_ms : float) : M unit := fun s =>
  if switch_lights s then
    (Done tt,
     record [thread_start (threads s) (PrimFloat.div duration_ms 1000%float)]
       (set_lightshowThread s))
  else (Done tt, s).

(** [try: self.lightshowThread.do_run = False; self.lightshowThread.join()
    except AttributeError: pass]. *)
Definition stop_lightshow : M unit := fun s =>
  match lightshowThread s with
  | Some t => (Done tt, record [thread_stop t] s)
  | None => (Done tt, s)
  end.

(** ** Local playback *)

Definition startMp3 (filename mp3_dir : string) : M unit :=
  let mp3file := mp3_dir +:+ filename in
  do_call (player_open mp3file);;
  do_call player_play;;
  length ← query_num (MP3_info_length mp3file);
  modify (set_mp3_duration (Some length));;
  startLightshow (PrimFloat.mul length 1000%float).

(** [startMp3(filename, mp3_dir, True)], [filename] being a list. *)
Definition startMp3_playlist (filename : list string) : M unit :=
  do_call (player_playlist filename);;
  modify (set_mp3_duration (Some 0%float));;
  for_each filename (fun file_mp3 =>
    length ← query_num (MP3_info_length file_mp3);
    total ← read_global mp3_duration;
    modify (set_mp3_duration (Some (PrimFloat.add total length))));;
  total ← read_global mp3_duration;
  startLightshow (PrimFloat.mul total 1000%float).

Definition stopMp3 : M unit := modify (set_mp3state (Some "STOPPED")).

Definition pauseMp3 : M unit :=
  s ← get;
  if bool_decide (mp3state s = Some "PLAYING") then
    do_call player_pause;;
    modify (set_mp3state (Some "PAUSED"))
  else mret tt.

(** The first statements of [playMp3] up to the test of [remaining]:
    [true] when the function has returned on the resume path. *)
Definition playMp3_resume : M bool :=
  s ← get;
  if tag_eqb (previous_tag s) (current_tag s)
     && bool_decide (mp3state s = Some "PAUSED") then
    do_call player_play;;
    duration ← read_global mp3_duration;
    elapsed ← read_global mp3elapsed;
    let remaining := PrimFloat.sub duration elapsed in
    if PrimFloat.leb 0.1%float remaining then
      startLightshow (PrimFloat.mul remaining 1000%float);;
      mret true
    else mret false
  else mret false.

Definition playMp3 (filename mp3_dir : string) : M unit :=
  do_call spotify_pause;;
  resumed ← playMp3_resume;
  if resumed : bool then mret tt
  else
    stopMp3;;
    startMp3 filename mp3_dir;;
    modify (set_mp3state (Some "PLAYING")).

Definition playPlaylist (playlist_filename mp3_dir : string) (shuffled : bool)
  : M unit :=
  do_call spotify_pause;;
  let mp3list := mp3_dir +:+ "/" +:+ playlist_filename +:+ "/*.mp3" in
  list_mp3_to_play ← glob mp3list;
  match list_mp3_to_play with
  | [] => base_flash_pad 0 10 10 3 ORANGE
  | _ :: _ =>
      list_mp3_to_play ←
        (if shuffled then shuffle list_mp3_to_play else mret list_mp3_to_play);
      startMp3_playlist list_mp3_to_play;;
      modify (set_mp3state (Some "PLAYING"))
  end.

(** ** Providers *)

Definition switchHdmiToAppleTv : M bool :=
  do_call huesyncbox_load_config;;
  hue ← query huesyncbox_configured;
  hdmi_switched ←
    (if hue : bool then query huesyncbox_switch_to_appletv_sync else mret false);
  if hdmi_switched : bool then mret true
  else
    do_call samsungtv_load_config;;
    tv ← query samsungtv_configured;
    if tv : bool then query samsungtv_switch_to_appletv else mret hdmi_switched.

Definition error_flash (pad : Z) : M unit := base_flash_pad pad 10 10 6 RED.

(** One of the three deep-link blocks; [keys] is what follows a
    successful launch. *)
Definition deep_link (pad : Z) (launch : bquery) (keys : M unit) : M unit :=
  stopMp3;;
  do_call appletv_load_config;;
  switchHdmiToAppleTv;;
  ok ← query launch;
  if ok : bool then base_switch_pad pad PURPLE;; keys
  else error_flash pad.

Definition nav_keys : list (string * float) :=
  [("HOME", 1.5); ("LEFT", 0.5); ("DOWN", 0.5); ("RIGHT", 0.5);
   ("DOWN", 0.3); ("DOWN", 0.3); ("DOWN", 0.3); ("OK", 0.0)]%float.


(** ** The blocks of a matched tag, one per option of the binding *)

Inductive field : Type :=
| f_playlist | f_mp3 | f_slack | f_command | f_spotify
| f_disney | f_netflix | f_youtube | f_airplay | f_xbox.

Definition key_of (f : field) : string :=
  match f with
  | f_playlist => "playlist" | f_mp3 => "mp3" | f_slack => "slack"
  | f_command => "command" | f_spotify => "spotify"
  | f_disney => "disney" | f_netflix => "netflix" | f_youtube => "youtube"
  | f_airplay => "airplay" | f_xbox => "xbox"
  end.

Section Blocks.

Variables (pad : Z) (mp3_dir : string) (b : gmap string string).

Definition on_playlist : M unit :=
  match b !! "playlist" with
  | Some playlist => playPlaylist playlist mp3_dir (has_key "shuffle" b)
  | None => mret tt
  end.

Definition on_mp3 : M unit :=
  match b !! "mp3" with
  | Some filename => playMp3 filename mp3_dir
  | None => mret tt
  end.

(** [tags['slack_hook']] is looked up first and may be missing. *)
Definition on_slack : M unit :=
  match b !! "slack" with
  | Some text =>
      s ← get;
      match slack_hook (tags s) with
      | Some hook => do_call (webhook_post hook text)
      | None => raise KeyError
      end
  | None => mret tt
  end.

(** Every exception of [subprocess.run] is caught. *)
Definition on_command : M unit :=
  match b !! "command" with
  | Some command => do_call (subprocess_run command)
  | None => mret tt
  end.

(** The two tests of ['spotify'], with and without
    [spotify.activated()]. *)
Definition on_spotify : M unit :=
  match b !! "spotify" with
  | Some uri =>
      activated ← query spotify_activated;
      (if activated : bool then
         s ← get;
         if tag_eqb (current_tag s) (previous_tag s) then
           remaining_ms ← query_num spotify_resume;
           startLightshow remaining_ms;;
           continue
         else
           let position_ms :=
             match b !! "position_ms" ≫= py_int with
             | Some n => n
             | None => 0
             end in
           stopMp3;;
           duration_ms ← query_num (spotify_spotcast uri position_ms);
           if PrimFloat.ltb 0%float duration_ms then startLightshow duration_ms
           else error_flash pad
       else mret tt);;
      activated ← query spotify_activated;
      if activated : bool then mret tt
      else modify (fun s => set_current_tag (previous_tag s) s)
  | None => mret tt
  end.

Definition on_disney : M unit :=
  match b !! "disney" with
  | Some disney_url =>
      when appletv_activated
        (deep_link pad (appletv_launch_disney disney_url)
           (do_call (time_sleep 4%float);; do_call (samsungtv_send_key "OK")))
  | None => mret tt
  end.

Definition on_netflix : M unit :=
  match b !! "netflix" with
  | Some netflix_url =>
      when appletv_activated
        (deep_link pad (appletv_launch_netflix netflix_url)
           (do_call (time_sleep 6%float);;
            do_call (samsungtv_send_key "OK");;
            do_call (time_sleep 1%float);;
            do_call (samsungtv_send_key "OK")))
  | None => mret tt
  end.

Definition on_youtube : M unit :=
  match b !! "youtube" with
  | Some youtube_url =>
      when appletv_activated
        (deep_link pad (appletv_launch_youtube youtube_url)
           (do_call (time_sleep 4%float);; do_call (samsungtv_send_key "OK")))
  | None => mret tt
  end.

Definition on_airplay : M unit :=
  match b !! "airplay" with
  | Some airplay_file =>
      stopMp3;;
      do_call homepod_load_config;;
      let airplay_target := b !! "homepod" in
      ok ← query (homepod_stream_file airplay_file airplay_target);
      if ok : bool then base_switch_pad pad LBLUE else error_flash pad
  | None => mret tt
  end.

Definition on_xbox : M unit :=
  match b !! "xbox" with
  | Some _ =>
      stopMp3;;
      do_call xboxctl_load_config;;
      do_call samsungtv_load_config;;
      tv ← query samsungtv_configured;
      when tv
        (for_each nav_keys (fun '(key, delay) =>
           do_call (samsungtv_send_key key);;
           when (PrimFloat.ltb 0%float delay) (do_call (time_sleep delay))));;
      ok ← query xboxctl_sync_power_on;
      if ok : bool then
        base_switch_pad pad OLIVE;;
        match b !! "xbox_app" with
        | Some xbox_app =>
            when (truthy xbox_app)
              (do_call (time_sleep 3%float);;
               do_call (xboxctl_sync_launch_app xbox_app))
        | None => mret tt
        end
      else error_flash pad
  | None => mret tt
  end.

(** The blocks in the order of the source text. *)
Definition blocks : list (field * M unit) :=
  [(f_playlist, on_playlist); (f_mp3, on_mp3); (f_slack, on_slack);
   (f_command, on_command); (f_spotify, on_spotify);
   (f_disney, on_disney); (f_netflix, on_netflix); (f_youtube, on_youtube);
   (f_airplay, on_airplay); (f_xbox, on_xbox)].

Definition dispatch : M unit := sequence (map snd blocks).

End Blocks.

(** ** One turn of the [while True] loop *)

(** [if status == 'removed': ...]. *)
Definition on_removed (ident : string) : M unit :=
  s ← get;
  if tag_eqb (Some ident) (current_tag s) then
    stop_lightshow;;
    pauseMp3;;
    activated ← query spotify_activated;
    when activated (do_call spotify_pause)
  else mret tt.

(** [if status == 'added': ...]. *)
Definition on_added (pad : Z) (ident : string) : M unit :=
  s ← get;
  when (switch_lights s) (base_switch_pad pad BLUE);;
  t ← load_tags;
  let mp3_dir :=
    match mp3_dir t with
    | Some d => d +:+ "/"
    | None => app_dir w +:+ "/../music/"
    end in
  stop_lightshow;;
  match identifier t with
  | None => raise KeyError
  | Some bindings =>
      match bindings !! ident with
      | Some b =>
          modify (fun s =>
            set_current_tag (Some ident)
              (set_previous_tag
                 (match current_tag s with
                  | None => Some ident
                  | Some c => Some c
                  end) s));;
          dispatch pad mp3_dir b
      | None => base_switch_pad pad RED
      end
  end.

Definition handle (status : string) (pad : Z) (ident : string) : M unit :=
  when (String.eqb status "removed") (on_removed ident);;
  when (String.eqb status "added") (on_added pad ident).

(** [status = tag.split(':')[0]; pad = int(tag.split(':')[1]);
    identifier = tag.split(':')[2]]. *)
Definition parse_tag (tag : string) : M (string * Z * string) :=
  let parts := split_on ":" tag in
  match parts with
  | [] => raise IndexError
  | status :: _ =>
      match nth_error parts 1 with
      | None => raise IndexError
      | Some p =>
          match py_int p with
          | None => raise ValueError
          | Some pad =>
              match nth_error parts 2 with
              | None => raise IndexError
              | Some ident => mret (status, pad, ident)
              end
          end
      end
  end.

(** [continue] ends the turn. *)
Definition catch_continue (m : M unit) : M unit := fun s =>
  match m s with
  | (Stop Continue, s') => (Done tt, s')
  | r => r
  end.

(** The body of the loop for what [update_nfc] returned. *)
Definition loop_body (tag : option string) : M unit :=
  match tag with
  | None => mret tt
  | Some tag =>
      if truthy tag then
        catch_continue
          ('(status, pad, ident) ← parse_tag tag;
           handle status pad ident)
      else mret tt
  end.

(** ** The monitor thread of [initMp3] *)

(** One notification of the player queue: [mp3state =
    str(state[0]).replace('PlayerState.', ''); mp3elapsed = state[1]].
    [state] is the text of [str(state[0])]. *)
Definition monitor (state : string) (elapsed : float) : M unit :=
  modify (fun s =>
    set_mp3elapsed (Some elapsed)
      (set_mp3state (Some (replace "PlayerState." "" state)) s)).

(** ** The whole of [startLego] *)

(** What the control loop meets: the answer of one [update_nfc], or a
    notification handled by the monitor between two turns. *)
Inductive input : Type :=
| polled (tag : option string)
| notified (state : string) (elapsed : float).

Definition step (i : input) : M unit :=
  match i with
  | polled tag => loop_body tag
  | notified state elapsed => monitor state elapsed
  end.

(** The statements before the loop. *)
Definition startLego_init (found : find_result) : result unit * session :=
  let t := answer_tags w [] in
  let lit := match lights t with Some l => l | None => true end in
  let s0 :=
    {| base := Portal.init found; current_tag := None; previous_tag := None;
       mp3state := None; mp3_duration := None; mp3elapsed := None;
       switch_lights := lit; lightshowThread := None; threads := 0;
       tags := t; history := [nfc_load_tags] |} in
  (if lit then base_switch_pad 0 GREEN else base_switch_pad 0 OFF) s0.

(** [startLego] on a finite prefix of what the loop meets. *)
Definition startLego (found : find_result) (inputs : list input)
  : result unit * session :=
  match startLego_init found with
  | (Done _, s) => for_each inputs step s
  | r => r
  end.

End Operations.

(** States the loop can be in. *)
Inductive reachable (w : world) : session -> Prop :=
| reachable_init found s :
    startLego_init w found = (Done tt, s) -> reachable w s
| reachable_step s i s' :
    reachable w s -> step w i s = (Done tt, s') -> reachable w s'.

(** ** What the statements below are about *)

(** The option of a binding that a call belongs to; calls shared by
    several options ([spotify.pause], pad colours, threads, the TV) belong
    to none. *)
Definition field_of (c : call) : option field :=
  match c with
  | glob_glob _ _ | random_shuffle _ _ | player_playlist _ => Some f_playlist
  | player_open _ | player_play => Some f_mp3
  | webhook_post _ _ => Some f_slack
  | subprocess_run _ => Some f_command
  | ask spotify_activated _ => Some f_spotify
  | ask_num spotify_resume _ | ask_num (spotify_spotcast _ _) _ => Some f_spotify
  | ask (appletv_launch_disney _) _ => Some f_disney
  | ask (appletv_launch_netflix _) _ => Some f_netflix
  | ask (appletv_launch_youtube _) _ => Some f_youtube
  | homepod_load_config | ask (homepod_stream_file _ _) _ => Some f_airplay
  | xboxctl_load_config | ask xboxctl_sync_power_on _
  | xboxctl_sync_launch_app _ => Some f_xbox
  | _ => None
  end.

(** The call that is the action of an option: the folder of a playlist
    is listed, the player plays, the hook is posted, the command is run,
    the service is asked to play or to resume, the link is launched, the
    file is streamed, the console is powered on. *)
Definition action_of (c : call) : option field :=
  match c with
  | glob_glob _ _ => Some f_playlist
  | player_play => Some f_mp3
  | webhook_post _ _ => Some f_slack
  | subprocess_run _ => Some f_command
  | ask_num spotify_resume _ | ask_num (spotify_spotcast _ _) _ => Some f_spotify
  | ask (appletv_launch_disney _) _ => Some f_disney
  | ask (appletv_launch_netflix _) _ => Some f_netflix
  | ask (appletv_launch_youtube _) _ => Some f_youtube
  | ask (homepod_stream_file _ _) _ => Some f_airplay
  | ask xboxctl_sync_power_on _ => Some f_xbox
  | _ => None
  end.

(** The call of [spotify.resume()]. *)
Definition is_resume (c : call) : bool :=
  match c with
  | ask_num spotify_resume _ => true
  | _ => false
  end.

(** The place of an option in the source text of [startLego]. *)
Definition rank (f : field) : nat :=
  match f with
  | f_playlist => 0 | f_mp3 => 1 | f_slack => 2 | f_command => 3
  | f_spotify => 4 | f_disney => 5 | f_netflix => 6 | f_youtube => 7
  | f_airplay => 8 | f_xbox => 9
  end.

(** The place of an option in the order that the specification words:
    local mp3, local playlist, notification, command, streaming service,
    the three deep links, speaker streaming, console. *)
Definition worded_rank (f : field) : nat :=
  match f with
  | f_mp3 => 0 | f_playlist => 1 | f_slack => 2 | f_command => 3
  | f_spotify => 4 | f_disney => 5 | f_netflix => 6 | f_youtube => 7
  | f_airplay => 8 | f_xbox => 9
  end.

(** A sequence of options that never goes back in the order [rk]. *)
Fixpoint ordered_by (rk : field -> nat) (fs : list field) : bool :=
  match fs with
  | [] => true
  | f :: rest =>
      forallb (fun g => (rk f <=? rk g)%nat) rest && ordered_by rk rest
  end.

(** The lightshow threads that were started and never joined. *)
Fixpoint unjoined (running : list nat) (h : list call) : list nat :=
  match h with
  | [] => running
  | thread_start t _ :: rest => unjoined (running ++ [t]) rest
  | thread_stop t :: rest =>
      unjoined (filter (fun u => negb (Nat.eqb u t)) running) rest
  | _ :: rest => unjoined running rest
  end.

(** From [s] to [s']: calls that all satisfy [Q] were made, the driver,
    the configuration and [previous_tag] are what they were, and
    [current_tag] is what it was or, when [revert] allows it, what
    [previous_tag] is. *)
Definition advances (Q : call -> Prop) (revert : bool) (s s' : session) : Prop :=
  (exists d, history s' = history s ++ d /\ Forall Q d) /\
  base s' = base s /\
  tags s' = tags s /\
  switch_lights s' = switch_lights s /\
  previous_tag s' = previous_tag s /\
  (current_tag s' = current_tag s \/
   (revert = true /\ current_tag s' = previous_tag s)).

Definition respects {A} (Q : call -> Prop) (revert : bool) (m : M A) : Prop :=
  forall s r s', m s = (r, s') -> advances Q revert s s'.

(** The calls of the block of option [f]. *)
Definition of_field (f : field) (c : call) : Prop :=
  field_of c = None \/ field_of c = Some f.

(** The calls that belong to no option. *)
Definition no_field (c : call) : Prop := field_of c = None.

(** The call [c] shows that option [f] was acted upon: it is the action
    of [f], or, for the streaming service, the answer that the service is
    not activated. *)
Definition fires (f : field) (c : call) : Prop :=
  action_of c = Some f \/ (f = f_spotify /\ c = ask spotify_activated false).

(** Whenever [m] ends normally, it has made a call that satisfies [P]. *)
Definition emits {A} (P : call -> Prop) (m : M A) : Prop :=
  forall s a s', m s = (Done a, s') ->
    exists d, history s' = history s ++ d /\ Exists P d.

(** The pad-colour command of [base_switch_pad] as it is written to the
    device. *)
Definition pad_colour (pad : Z) (colour : list Z) : call :=
  usb (Write 1 (build_message ([0x55; 0x06; 0xc0; 0x02; pad] ++ colour))).

End Session.

(** * Concrete devices, configurations and collaborators *)

Module Scenario.
Import Portal Session.

Definition quiet_device : usb_device :=
  {| write := fun _ _ => WriteOk; read := fun _ _ _ => ReadUSBTimeoutError |}.

Definition device_sending (packet : list Z) : usb_device :=
  {| write := fun _ _ => WriteOk; read := fun _ _ _ => ReadData packet |}.

(** An inbound tag frame: marker, pad at offset 2, removal flag at
    offset 5, seven identifier bytes from offset 6. *)
Definition frame_of (pad flag : Z) (uid : list Z) : list Z :=
  [0x56; 0x0b; pad; 0; 0; flag] ++ uid ++ repeat 0 19.

(** A configuration with one known identifier. *)
Definition tags_with (ident : string) (b : gmap string string) : tags_config :=
  {| lights := None; mp3_dir := Some "/music"; slack_hook := None;
     identifier := Some {[ ident := b ]} |}.

(** Collaborators that always answer the same: every provider call
    succeeds, every track lasts 180 s, a playlist folder holds two
    files. *)
Definition steady_world (t : tags_config) (spotify_on : bool) : world :=
  {| answer := fun _ q =>
       match q with spotify_activated => spotify_on | _ => true end;
     answer_num := fun _ q =>
       match q with
       | MP3_info_length _ => 180%float
       | spotify_resume => 60000%float
       | spotify_spotcast _ _ => 200000%float
       end;
     answer_glob := fun _ _ => ["/music/pl/a.mp3"; "/music/pl/b.mp3"]%string;
     answer_shuffle := fun _ l => l;
     answer_tags := fun _ => t;
     app_dir := "/opt/musicfig/app" |}.

(** The calls made from the [n]-th on. *)
Definition calls_from (n : nat) (r : result unit * session) : list call :=
  drop n (history (snd r)).

(** Bindings. *)
Definition mp3_only : gmap string string := {[ "mp3" := "x.mp3" ]}.
Definition mp3_and_playlist : gmap string string :=
  {[ "mp3" := "x.mp3"; "playlist" := "pl" ]}.
Definition spotify_only : gmap string string :=
  {[ "spotify" := "spotify:album:1" ]}.
Definition spotify_and_xbox : gmap string string :=
  {[ "spotify" := "spotify:album:1"; "xbox" := "on" ]}.
Definition mp3_and_xbox : gmap string string :=
  {[ "mp3" := "x.mp3"; "xbox" := "on" ]}.

(** What the loop meets. *)
Definition added_a1 : input := polled (Some "added:2:a1b2c3d4").
Definition removed_a1 : input := polled (Some "removed:2:a1b2c3d4").
Definition added_unknown : input := polled (Some "added:1:ffff").

(** Collaborators for a configuration that knows the one identifier
    [a1b2c3d4]. *)
Definition world_of (b : gmap string string) (spotify_on : bool) : world :=
  steady_world (tags_with "a1b2c3d4" b) spotify_on.

Definition world_mp3 : world := world_of mp3_only false.

(** After the prologue on a device that is there. *)
Definition started (w : world) : session :=
  snd (startLego w (Found quiet_device) []).

(** A track of 180 s was started by the tag, played for [elapsed]
    seconds, and was paused by the removal of the tag. *)
Definition paused_at (elapsed : float) : result unit * session :=
  startLego world_mp3 (Found quiet_device)
    [added_a1; notified "PlayerState.PLAYING" elapsed; removed_a1].

End Scenario.

(** * The frames of the driver and its start-up *)

Module Wire.
Import Portal.

(** The layout that the commands of the driver share: the start byte
    0x55, the number of payload bytes, the payload, the sum of all these
    bytes modulo 256, and zeros up to 32 bytes. *)
Definition well_formed (frame : list Z) : bool :=
  match frame with
  | start :: len :: _ =>
      let n := Z.to_nat len in
      (start =? 0x55) && (length frame =? 32)%nat && (n + 3 <=? 32)%nat
      && (nth (n + 2) frame 0 =? total (take (n + 2) frame) mod 256)
      && forallb (Z.eqb 0) (drop (n + 3) frame)
  | _ => false
  end.

(** What a call into pyusb does while the portal is looked for. *)
Inductive usb_step : Type :=
| StepOk
| StepUSBError
| StepNotImplementedError.

Inductive kernel_driver : Type :=
| DriverActive (active : bool)
| DriverUSBError
| DriverNotImplementedError.

(** The backend as [init_usb] meets it; the handle that
    [usb.core.find] gives is the [usb_device] of [core_find]. *)
Record usb_backend : Type := {
  core_find : find_result;
  is_kernel_driver_active : Z -> kernel_driver;
  detach_kernel_driver : Z -> usb_step;
  set_configuration : usb_step;
  claim_interface : Z -> usb_step
}.

Inductive init_call : Type :=
| usb_core_find
| dev_is_kernel_driver_active (interface : Z)
| dev_detach_kernel_driver (interface : Z)
| dev_set_configuration
| usb_util_claim_interface (interface : Z)
| dev_write (endpoint : Z) (message : list Z).

Inductive init_exn : Type :=
| InitValueError
| InitUSBError
| InitNotImplementedError.

(** The frame that [init_usb] writes to wake the portal. *)
Definition activation : list Z :=
  [0x55; 0x0f; 0xb0; 0x01; 0x28; 0x63; 0x29; 0x20; 0x4c;
   0x45; 0x47; 0x4f; 0x20; 0x32; 0x30; 0x31; 0x34; 0xf7;
   0x00; 0x00; 0x00; 0x00; 0x00; 0x00; 0x00; 0x00; 0x00;
   0x00; 0x00; 0x00; 0x00; 0x00].

(** [init_usb] after the kernel driver has been dealt with:
    [dev.set_configuration()], [usb.util.claim_interface(dev, 0)] and
    the write of the activation frame. *)
Definition configure (u : usb_backend) (d : usb_device)
  : list init_call * (usb_device + init_exn) :=
  match set_configuration u with
  | StepUSBError => ([dev_set_configuration], inr InitUSBError)
  | StepNotImplementedError =>
      ([dev_set_configuration], inr InitNotImplementedError)
  | StepOk =>
      match claim_interface u 0 with
      | StepUSBError =>
          ([dev_set_configuration; usb_util_claim_interface 0],
           inr InitUSBError)
      | StepNotImplementedError =>
          ([dev_set_configuration; usb_util_claim_interface 0],
           inr InitNotImplementedError)
      | StepOk =>
          ([dev_set_configuration; usb_util_claim_interface 0;
            dev_write 1 activation],
           match write d 1 activation with
           | WriteOk => inl d
           | WriteUSBError => inr InitUSBError
           end)
      end
  end.

(** [init_usb]: [NotImplementedError] of the two kernel-driver calls is
    caught on the spot, anything else leaves the function. *)
Definition init_usb (u : usb_backend)
  : list init_call * (usb_device + init_exn) :=
  match core_find u with
  | FindUSBError => ([usb_core_find], inr InitUSBError)
  | NotFound => ([usb_core_find], inr InitValueError)
  | Found d =>
      let probe := [usb_core_find; dev_is_kernel_driver_active 0] in
      let go (before : list init_call) :=
        (before ++ fst (configure u d), snd (configure u d)) in
      match is_kernel_driver_active u 0 with
      | DriverUSBError => (probe, inr InitUSBError)
      | DriverNotImplementedError => go probe
      | DriverActive false => go probe
      | DriverActive true =>
          let detach := probe ++ [dev_detach_kernel_driver 0] in
          match detach_kernel_driver u 0 with
          | StepUSBError => (detach, inr InitUSBError)
          | StepNotImplementedError => go detach
          | StepOk => go detach
          end
      end
  end.

(** [Dimensions.__init__]: [ValueError] and [USBError] are caught and
    leave [self.dev = None]; another exception leaves the constructor. *)
Definition Dimensions_init (u : usb_backend)
  : list init_call * (Dimensions + init_exn) :=
  match init_usb u with
  | (cs, inl d) => (cs, inl {| dev := Some d |})
  | (cs, inr InitValueError) => (cs, inl {| dev := None |})
  | (cs, inr InitUSBError) => (cs, inl {| dev := None |})
  | (cs, inr InitNotImplementedError) => (cs, inr InitNotImplementedError)
  end.

End Wire.

(** * The lightshow thread: [randomLightshow] *)

Module Lightshow.
Import Portal Session.

(** [l[i]] for a Python integer [i]: negative indices count from the
    end, and an index outside the list raises [IndexError] ([None]). *)
Definition py_index {A} (l : list A) (i : Z) : option A :=
  if 0 <=? i then nth_error l (Z.to_nat i)
  else if - Z.of_nat (length l) <=? i
       then nth_error l (Z.to_nat (Z.of_nat (length l) + i))
       else None.

(** What one turn of the loop reads from outside: the flag [do_run] of
    [self.lightshowThread], the clock, the two numbers of
    [random.randint] and the rounded pause. *)
Record tick : Type := {
  do_run : bool;
  perf_counter : float;
  pad : Z;
  colour : Z;
  pause : float
}.

Inductive light_call : Type :=
| light_write (c : usb_call)
| light_sleep (seconds : float).

(** Whether the thread has come to its end within the turns given. *)
Inductive progress : Type :=
| Finished
| Running.

(** The [while] loop of [randomLightshow], one turn per [tick]. *)
Fixpoint lightshow_loop (base : Dimensions) (duration t : float)
    (ticks : list tick) : list light_call * outcome progress :=
  match ticks with
  | [] => ([], Returned Running)
  | k :: rest =>
      if do_run k && PrimFloat.ltb (PrimFloat.sub (perf_counter k) t) duration
      then
        match py_index COLOURS (colour k) with
        | None => ([], Raised IndexError)
        | Some c =>
            match Portal.switch_pad base (pad k) c with
            | (ws, Raised e) => (map light_write ws, Raised e)
            | (ws, Returned _) =>
                let r := lightshow_loop base duration t rest in
                (map light_write ws ++ [light_sleep (pause k)] ++ fst r, snd r)
            end
        end
      else ([], Returned Finished)
  end.

(** [randomLightshow]: the loop, then [self.base.switch_pad(0, self.OFF)]. *)
Definition randomLightshow (base : Dimensions) (duration t : float)
    (ticks : list tick) : list light_call * outcome progress :=
  match lightshow_loop base duration t ticks with
  | (cs, Returned Finished) =>
      match Portal.switch_pad base 0 OFF with
      | (ws, Returned _) => (cs ++ map light_write ws, Returned Finished)
      | (ws, Raised e) => (cs ++ map light_write ws, Raised e)
      end
  | r => r
  end.

(** The numbers that [random.randint(0, 2)] and
    [random.randint(0, len(self.COLOURS) - 1)] can give. *)
Definition drawn (k : tick) : Prop :=
  0 <= pad k <= 2 /\ 0 <= colour k <= Z.of_nat (length COLOURS) - 1.

(** A call of the show: the write that paints some pad from 0 to 2 in a
    colour of the palette, or a pause. *)
Definition show_write (c : light_call) : Prop :=
  (exists p col, 0 <= p <= 2 /\ In col COLOURS /\
     c = light_write
           (Write 1 (build_message ([0x55; 0x06; 0xc0; 0x02; p] ++ col)))) \/
  (exists x, c = light_sleep x).

End Lightshow.

(** * The providers that the loop calls *)

(** Truth value of a text that may be [None]. *)
Definition truthy_opt (v : option string) : bool :=
  match v with
  | Some s => Session.truthy s
  | None => false
  end.

(** [a or b] on two such values. *)
Definition py_or (a b : option string) : option string :=
  if truthy_opt a then a else b.

(** [tags[key] if key in tags else old]: how the [load_config] functions
    with a loaded flag take a setting over.  The settings are texts, as
    the options of a binding are. *)
Definition taken (tags : gmap string string) (key : string)
    (old : option string) : option string :=
  match tags !! key with
  | Some v => Some v
  | None => old
  end.

(** ** [app/appletv.py] *)

Module appletv.

(** The deep link that [launch_disney], [launch_netflix] and
    [launch_youtube] hand to [launch_app]. *)
Definition disney_url (content_id : string) : string :=
  if String.prefix "http" content_id then content_id
  else "https://www.disneyplus.com/video/" +:+ content_id.

Definition netflix_url (content_id : string) : string :=
  if String.prefix "http" content_id then content_id
  else "https://www.netflix.com/title/" +:+ content_id.

Definition youtube_url (video_id : string) : string :=
  if String.prefix "http" video_id then video_id
  else "https://www.youtube.com/watch?v=" +:+ video_id.

Inductive launch_result : Type :=
| Launched
| LaunchException.

(** [launch_app]: [connect] gave an Apple TV or [None]; an exception of
    [atv.apps.launch_app] is caught. *)
Definition launch_app (connect : option (string -> launch_result))
    (url_or_bundle_id : string) : list string * bool :=
  match connect with
  | None => ([], false)
  | Some apps_launch_app =>
      ([url_or_bundle_id],
       match apps_launch_app url_or_bundle_id with
       | Launched => true
       | LaunchException => false
       end)
  end.

Definition launch_disney connect (content_id : string) :=
  launch_app connect (disney_url content_id).

Definition launch_netflix connect (content_id : string) :=
  launch_app connect (netflix_url content_id).

Definition launch_youtube connect (video_id : string) :=
  launch_app connect (youtube_url video_id).

(** The module globals that [load_config] sets. *)
Record config : Type := {
  APPLE_TV_NAME : option string;
  APPLE_TV_IP : option string;
  APPLE_TV_ID : option string;
  COMPANION_CREDENTIALS : option string;
  AIRPLAY_CREDENTIALS : option string;
  _config_loaded : bool
}.

Definition initial : config :=
  {| APPLE_TV_NAME := None; APPLE_TV_IP := None; APPLE_TV_ID := None;
     COMPANION_CREDENTIALS := None; AIRPLAY_CREDENTIALS := None;
     _config_loaded := false |}.

Definition reset_config (c : config) : config :=
  {| APPLE_TV_NAME := APPLE_TV_NAME c; APPLE_TV_IP := APPLE_TV_IP c;
     APPLE_TV_ID := APPLE_TV_ID c;
     COMPANION_CREDENTIALS := COMPANION_CREDENTIALS c;
     AIRPLAY_CREDENTIALS := AIRPLAY_CREDENTIALS c;
     _config_loaded := false |}.

Definition load_config (tags : gmap string string) (c : config) : config :=
  if _config_loaded c then c
  else
    {| APPLE_TV_NAME := taken tags "appletv_name" (APPLE_TV_NAME c);
       APPLE_TV_IP := taken tags "appletv_ip" (APPLE_TV_IP c);
       APPLE_TV_ID := taken tags "appletv_id" (APPLE_TV_ID c);
       COMPANION_CREDENTIALS :=
         taken tags "appletv_companion_credentials" (COMPANION_CREDENTIALS c);
       AIRPLAY_CREDENTIALS :=
         taken tags "appletv_airplay_credentials" (AIRPLAY_CREDENTIALS c);
       _config_loaded := true |}.

End appletv.

(** ** [app/huesyncbox.py] *)

Module huesyncbox.

Record config : Type := {
  SYNCBOX_HOST : option string;
  SYNCBOX_ID : option string;
  SYNCBOX_TOKEN : option string;
  SYNCBOX_APPLETV_INPUT : option string;
  _config_loaded : bool
}.

Definition initial : config :=
  {| SYNCBOX_HOST := None; SYNCBOX_ID := None; SYNCBOX_TOKEN := None;
     SYNCBOX_APPLETV_INPUT := None; _config_loaded := false |}.

Definition reset_config (c : config) : config :=
  {| SYNCBOX_HOST := SYNCBOX_HOST c; SYNCBOX_ID := SYNCBOX_ID c;
     SYNCBOX_TOKEN := SYNCBOX_TOKEN c;
     SYNCBOX_APPLETV_INPUT := SYNCBOX_APPLETV_INPUT c;
     _config_loaded := false |}.

Definition load_config (tags : gmap string string) (c : config) : config :=
  if _config_loaded c then c
  else
    {| SYNCBOX_HOST := taken tags "syncbox_host" (SYNCBOX_HOST c);
       SYNCBOX_ID := taken tags "syncbox_id" (SYNCBOX_ID c);
       SYNCBOX_TOKEN := taken tags "syncbox_token" (SYNCBOX_TOKEN c);
       SYNCBOX_APPLETV_INPUT :=
         taken tags "syncbox_appletv_input" (SYNCBOX_APPLETV_INPUT c);
       _config_loaded := true |}.

(** [bool(SYNCBOX_HOST or SYNCBOX_ID)]. *)
Definition activated (c : config) : bool :=
  truthy_opt (SYNCBOX_HOST c) || truthy_opt (SYNCBOX_ID c).

(** [bool(SYNCBOX_HOST and SYNCBOX_ID and SYNCBOX_TOKEN and
    SYNCBOX_APPLETV_INPUT)]. *)
Definition configured (c : config) : bool :=
  truthy_opt (SYNCBOX_HOST c) && truthy_opt (SYNCBOX_ID c)
  && truthy_opt (SYNCBOX_TOKEN c) && truthy_opt (SYNCBOX_APPLETV_INPUT c).

Inductive set_state_result : Type :=
| StateSet
| StateException.

(** [connect]: nothing is tried without host, id and token; [reach] is
    what the cached or the new connection comes to, [None] when the box
    cannot be reached. *)
Definition connect (c : config) (reach : option (string -> set_state_result))
  : option (string -> set_state_result) :=
  if negb (truthy_opt (SYNCBOX_HOST c)) || negb (truthy_opt (SYNCBOX_ID c))
  then None
  else if negb (truthy_opt (SYNCBOX_TOKEN c)) then None
  else reach.

(** [switch_to_appletv]: the list holds the inputs that
    [box.execution.set_state] was called with. *)
Definition switch_to_appletv (c : config)
    (reach : option (string -> set_state_result)) : list string * bool :=
  match SYNCBOX_APPLETV_INPUT c with
  | None => ([], false)
  | Some input =>
      if negb (Session.truthy input) then ([], false)
      else
        match connect c reach with
        | None => ([], false)
        | Some set_state =>
            ([input],
             match set_state input with
             | StateSet => true
             | StateException => false
             end)
        end
  end.

End huesyncbox.

(** ** [app/samsungtv.py] *)

Module samsungtv.

Record config : Type := {
  SMARTTHINGS_TOKEN : option string;
  SMARTTHINGS_TV_DEVICE_ID : option string;
  SMARTTHINGS_APPLETV_INPUT : option string;
  _config_loaded : bool
}.

Definition initial : config :=
  {| SMARTTHINGS_TOKEN := None; SMARTTHINGS_TV_DEVICE_ID := None;
     SMARTTHINGS_APPLETV_INPUT := None; _config_loaded := false |}.

Definition reset_config (c : config) : config :=
  {| SMARTTHINGS_TOKEN := SMARTTHINGS_TOKEN c;
     SMARTTHINGS_TV_DEVICE_ID := SMARTTHINGS_TV_DEVICE_ID c;
     SMARTTHINGS_APPLETV_INPUT := SMARTTHINGS_APPLETV_INPUT c;
     _config_loaded := false |}.

Definition load_config (tags : gmap string string) (c : config) : config :=
  if _config_loaded c then c
  else
    {| SMARTTHINGS_TOKEN := taken tags "smartthings_token" (SMARTTHINGS_TOKEN c);
       SMARTTHINGS_TV_DEVICE_ID :=
         taken tags "smartthings_tv_device_id" (SMARTTHINGS_TV_DEVICE_ID c);
       SMARTTHINGS_APPLETV_INPUT :=
         taken tags "smartthings_appletv_input" (SMARTTHINGS_APPLETV_INPUT c);
       _config_loaded := true |}.

(** [bool(SMARTTHINGS_TOKEN or SMARTTHINGS_TV_DEVICE_ID)]. *)
Definition activated (c : config) : bool :=
  truthy_opt (SMARTTHINGS_TOKEN c) || truthy_opt (SMARTTHINGS_TV_DEVICE_ID c).

(** [bool(SMARTTHINGS_TOKEN and SMARTTHINGS_TV_DEVICE_ID and
    SMARTTHINGS_APPLETV_INPUT)]. *)
Definition configured (c : config) : bool :=
  truthy_opt (SMARTTHINGS_TOKEN c) && truthy_opt (SMARTTHINGS_TV_DEVICE_ID c)
  && truthy_opt (SMARTTHINGS_APPLETV_INPUT c).

(** One POST to [/devices/{device_id}/commands]: the component is
    always [main]. *)
Record request : Type := {
  device_id : string;
  capability : string;
  command : string;
  arguments : list string
}.

Inductive http_result : Type :=
| Response (status_code : Z)
| RequestException.

(** [response.status_code == 200] of a request that raised nothing. *)
Definition status_200 (r : http_result) : bool :=
  match r with
  | Response status_code => status_code =? 200
  | RequestException => false
  end.

(** The loop of [set_input_source] over the capabilities to try: status
    200 returns [True]; 422, any other status and a request exception
    all go on with the next capability. *)
Fixpoint try_capabilities (post : request -> http_result)
    (device input_source : string) (capabilities_to_try : list string)
  : list request * bool :=
  match capabilities_to_try with
  | [] => ([], false)
  | capability :: rest =>
      let rq := {| device_id := device; capability := capability;
                   command := "setInputSource";
                   arguments := [input_source] |} in
      let next := try_capabilities post device input_source rest in
      match post rq with
      | Response status_code =>
          if status_code =? 200 then ([rq], true)
          else (rq :: fst next, snd next)
      | RequestException => (rq :: fst next, snd next)
      end
  end.

Definition set_input_source (c : config) (post : request -> http_result)
    (input_source : string) (device_id : option string)
  : list request * bool :=
  let device_id := py_or device_id (SMARTTHINGS_TV_DEVICE_ID c) in
  if negb (truthy_opt (SMARTTHINGS_TOKEN c)) then ([], false)
  else
    match device_id with
    | None => ([], false)
    | Some device =>
        if negb (Session.truthy device) then ([], false)
        else try_capabilities post device input_source
               ["mediaInputSource"; "samsungvd.mediaInputSource"]
    end.

Definition send_key (c : config) (post : request -> http_result)
    (key : string) (device_id : option string) : list request * bool :=
  let device_id := py_or device_id (SMARTTHINGS_TV_DEVICE_ID c) in
  if negb (truthy_opt (SMARTTHINGS_TOKEN c)) || negb (truthy_opt device_id)
  then ([], false)
  else
    match device_id with
    | None => ([], false)
    | Some device =>
        let rq := {| device_id := device;
                     capability := "samsungvd.remoteControl";
                     command := "send"; arguments := [key] |} in
        ([rq],
         match post rq with
         | Response status_code => status_code =? 200
         | RequestException => false
         end)
    end.

End samsungtv.

(** ** [app/homepod.py] *)

Module homepod.

(** What [load_config] reads from the tags. *)
Record settings : Type := {
  tags_homepods : option (gmap string string);
  tags_default_homepod : option string;
  tags_mp3_dir : option string
}.

(** The dictionary [_config].  The empty dictionary that the module
    starts with is read through [.get] with the same defaults, so it is
    [initial]. *)
Record config : Type := {
  homepods : gmap string string;
  default_homepod : string;
  mp3_dir : string
}.

Definition initial : config :=
  {| homepods := ∅; default_homepod := ""; mp3_dir := "" |}.

Definition load_config (tags : settings) (c : config) : config :=
  {| homepods := default ∅ (tags_homepods tags);
     default_homepod := default "" (tags_default_homepod tags);
     mp3_dir := default "" (tags_mp3_dir tags) |}.

(** [bool(_config.get('homepods') or _config.get('default_homepod'))]. *)
Definition configured (c : config) : bool :=
  negb (bool_decide (homepods c = ∅)) || Session.truthy (default_homepod c).

Section Paths.

(** [os.path.isabs] and [os.path.join] of the platform. *)
Variable isabs : string -> bool.
Variable join : string -> string -> string.

(** What [_stream_file_async] comes to for a file and a target: its
    answer, or [None] for an exception. *)
Variable stream : string -> string -> option bool.

(** [stream_file]: the list holds the file and the target that the
    streaming was tried with. *)
Definition stream_file (c : config) (file_path : string)
    (target : option string) : list (string * string) * bool :=
  let file_path :=
    if isabs file_path then file_path
    else if Session.truthy (mp3_dir c) then join (mp3_dir c) file_path
         else file_path in
  let target :=
    match target with
    | None => default_homepod c
    | Some t => t
    end in
  if negb (Session.truthy target) then ([], false)
  else
    ([(file_path, target)],
     match stream file_path target with
     | Some result => result
     | None => false
     end).

End Paths.

End homepod.

(** ** [app/xboxctl.py] *)

Module xboxctl.

Record config : Type := {
  client_id : string;
  client_secret : string;
  device_id : string
}.

Definition load_config (tags : gmap string string) (c : option config)
  : option config :=
  Some {| client_id := default "" (tags !! "xbox_client_id");
          client_secret := default "" (tags !! "xbox_client_secret");
          device_id := default "" (tags !! "xbox_device_id") |}.

(** What [client.smartglass.get_console_list()] comes to. *)
Inductive console_list : Type :=
| Consoles (ids : list string)
| NoResultAttribute
| ConsoleListException.

(** Xbox Live as the module meets it: whether
    [_get_authenticated_client] gives a client, the console list, and
    which SmartGlass calls go through ([false]: the call raises). *)
Record xbox_live : Type := {
  authenticated : bool;
  get_console_list : console_list;
  wake_up : string -> bool;
  smartglass_launch_app : string -> string -> bool;
  turn_off : string -> bool
}.

Inductive xbox_call : Type :=
| call_get_console_list
| call_wake_up (console_id : string)
| call_launch_app (console_id app_id : string)
| call_turn_off (console_id : string).

(** [get_consoles]: every failure gives the empty list. *)
Definition get_consoles (x : xbox_live) : list xbox_call * list string :=
  if authenticated x then
    ([call_get_console_list],
     match get_console_list x with
     | Consoles ids => ids
     | NoResultAttribute => []
     | ConsoleListException => []
     end)
  else ([], []).

(** [for console in consoles: await client.smartglass.wake_up(console.id)]:
    [false] when a call raised. *)
Fixpoint wake_all (x : xbox_live) (consoles : list string)
  : list xbox_call * bool :=
  match consoles with
  | [] => ([], true)
  | console :: rest =>
      if wake_up x console then
        let r := wake_all x rest in (call_wake_up console :: fst r, snd r)
      else ([call_wake_up console], false)
  end.

Definition power_on (x : xbox_live) (console_id : option string)
  : list xbox_call * bool :=
  if authenticated x then
    match console_id with
    | Some id =>
        if Session.truthy id then ([call_wake_up id], wake_up x id)
        else
          let cs := get_consoles x in
          let r := wake_all x (snd cs) in (fst cs ++ fst r, snd r)
    | None =>
        let cs := get_consoles x in
        let r := wake_all x (snd cs) in (fst cs ++ fst r, snd r)
    end
  else ([], false).

(** [console_id or (consoles[0].id if consoles else None)]. *)
Definition target_of (console_id : option string) (consoles : list string)
  : option string :=
  py_or console_id (head consoles).

Definition launch_app (x : xbox_live) (app_id : string)
    (console_id : option string) : list xbox_call * bool :=
  if authenticated x then
    let cs := get_consoles x in
    match target_of console_id (snd cs) with
    | Some target_id =>
        if Session.truthy target_id then
          (fst cs ++ [call_launch_app target_id app_id],
           smartglass_launch_app x target_id app_id)
        else (fst cs, false)
    | None => (fst cs, false)
    end
  else ([], false).

Definition power_off (x : xbox_live) (console_id : option string)
  : list xbox_call * bool :=
  if authenticated x then
    let cs := get_consoles x in
    match target_of console_id (snd cs) with
    | Some target_id =>
        if Session.truthy target_id then
          (fst cs ++ [call_turn_off target_id], turn_off x target_id)
        else (fst cs, false)
    | None => (fst cs, false)
    end
  else ([], false).

End xboxctl.

(** ** [app/yoto.py] *)

Module yoto.

(** A player of the Yoto account: [id], and the attributes [name] and
    [online] that [_find_player] reads with [getattr] and a default. *)
Record player : Type := {
  id : string;
  name : option string;
  online : option bool
}.

(** [p.id == key or getattr(p, 'name', '') == key]. *)
Definition named (key : string) (p : player) : bool :=
  String.eqb (id p) key || String.eqb (default "" (name p)) key.

(** The [else] branch of [_find_player]: the first player that is
    online, or else the first player. *)
Definition first_online (players : list player) : option player :=
  match List.find (fun p => default false (online p)) players with
  | Some p => Some p
  | None => head players
  end.

(** [_find_player]; [default_player] is
    [_config.get('default_player')]. *)
Definition _find_player (default_player : option string)
    (players : list player) (player_id : option string) : option player :=
  if truthy_opt player_id then
    List.find (named (default "" player_id)) players
  else if truthy_opt default_player then
    List.find (named (default "" default_player)) players
  else first_online players.

End yoto.

(** * Notions for the facts about the loop *)

Module Notions.
Import Portal Session.

(** A text without a colon: [split(':')] leaves it in one piece. *)
Fixpoint no_colon (s : string) : bool :=
  match s with
  | EmptyString => true
  | String c rest => negb (Ascii.eqb c ":") && no_colon rest
  end.

(** The decimal text of a pad number is read back by [int] and has no
    colon. *)
Definition pad_text_ok (n : Z) : bool :=
  match py_int (pretty n) with
  | Some m => (m =? n) && no_colon (pretty n)
  | None => false
  end.

(** The statement [m] keeps the property [I] of the state, however it
    ends. *)
Definition keeps {A} (I : session -> Prop) (m : M A) : Prop :=
  forall s r s', I s -> m s = (r, s') -> I s'.

(** The statement [m] never ends in [continue]. *)
Definition no_continue {A} (m : M A) : Prop :=
  forall s s', m s <> (Stop Continue, s').

(** The calls that go to the local player. *)
Definition player_call (c : call) : bool :=
  match c with
  | player_open _ | player_play | player_pause | player_playlist _ => true
  | _ => false
  end.

(** Local playback is marked as stopped, and since the history [h0] no
    call went to the local player. *)
Definition stopped_untouched (h0 : list call) (s : session) : Prop :=
  mp3state s = Some "STOPPED"%string /\
  exists d, history s = h0 ++ d /\ Forall (fun c => player_call c = false) d.

(** The options whose blocks hand playback to another device. *)
Definition hands_over (f : field) : bool :=
  match f with
  | f_disney | f_netflix | f_youtube | f_airplay | f_xbox => true
  | _ => false
  end.

(** What [startLightshow] adds to the calls. *)
Definition lightshow_calls (s : session) (duration_ms : float) : list call :=
  if switch_lights s
  then [thread_start (threads s) (PrimFloat.div duration_ms 1000%float)]
  else [].

End Notions.

(** * Facts about the portal driver *)

Module PortalFacts.
Import Portal Session Scenario.

(** ** Framing *)

Lemma checksum_loop_mod (command : list Z) : forall acc,
  0 <= acc < 256 -> Forall byte command ->
  checksum_loop acc command = (acc + total command) mod 256.
Proof.
  induction command as [|word rest IH]; intros acc Hacc Hall; simpl.
  - unfold total; simpl. rewrite Z.add_0_r, Z.mod_small; lia.
  - inversion Hall as [|? ? Hw Hrest]; subst. unfold byte in Hw.
    destruct (Z.leb_spec 256 (acc + word)).
    + rewrite IH by (auto; lia).
      replace (acc + word - 256 + total rest)
        with (acc + (word + total rest) + (-1) * 256) by lia.
      now rewrite Z.mod_add by lia.
    + rewrite IH by (auto; lia). f_equal. unfold total; simpl. lia.
Qed.

Lemma pad_loop_closed (fuel : nat) : forall message,
  pad_loop fuel message
  = message ++ repeat 0 (Nat.min fuel (32 - length message)).
Proof.
  induction fuel as [|fuel IH]; intros message; simpl.
  - now rewrite app_nil_r.
  - destruct (Nat.ltb_spec (length message) 32) as [Hlt|Hge].
    + rewrite IH, length_app; simpl. rewrite <- app_assoc. f_equal.
      replace (32 - length message)%nat
        with (S (32 - (length message + 1)))%nat by lia.
      reflexivity.
    + replace (32 - length message)%nat with 0%nat by lia.
      simpl. now rewrite app_nil_r.
Qed.

(** The padding loop needs no more than 32 turns. *)
Lemma pad_loop_enough (fuel : nat) (message : list Z) :
  (32 <= fuel)%nat -> pad_loop fuel message = pad_loop 32 message.
Proof.
  intros H. rewrite !pad_loop_closed. f_equal. f_equal. lia.
Qed.

Lemma build_message_closed (command : list Z) :
  Forall byte command ->
  build_message command
  = command ++ [total command mod 256]
      ++ repeat 0 (Nat.min 32 (31 - length command)).
Proof.
  intros Hall. unfold build_message.
  rewrite pad_loop_closed.
  rewrite checksum_loop_mod; [|lia|assumption].
  rewrite Z.add_0_l, <- app_assoc. do 3 f_equal.
  rewrite length_app; cbn [length]. lia.
Qed.

(** C1, as the code has it: for a command of at most 31 bytes written to
    a device that is there, the frame handed to [dev.write] is the
    command, then the sum of its bytes modulo 256, then zeros up to 32
    bytes. *)
Theorem send_command_frame (self : Dimensions) (d : usb_device)
    (command : list Z) :
  dev self = Some d ->
  Forall byte command ->
  (length command <= 31)%nat ->
  exists frame,
    send_command self command = ([Write 1 frame], Returned tt) /\
    frame = command ++ [total command mod 256]
              ++ repeat 0 (31 - length command) /\
    length frame = 32%nat.
Proof.
  intros Hdev Hall Hlen.
  exists (build_message command). split; [|split].
  - unfold send_command. rewrite Hdev. now destruct (write d 1 _).
  - rewrite build_message_closed by assumption. do 3 f_equal. lia.
  - rewrite build_message_closed by assumption.
    rewrite !length_app, repeat_length. cbn [length]. lia.
Qed.

(** The pad-colour command for pad 1 in red. *)
Lemma send_command_frame_witness :
  exists frame,
    send_command {| dev := Some quiet_device |}
      [0x55; 0x06; 0xc0; 0x02; 1; 255; 0; 0]
    = ([Write 1 frame], Returned tt) /\
    frame = [0x55; 0x06; 0xc0; 0x02; 1; 255; 0; 0]
              ++ [total [0x55; 0x06; 0xc0; 0x02; 1; 255; 0; 0] mod 256]
              ++ repeat 0 (31 - 8) /\
    length frame = 32%nat.
Proof.
  apply (send_command_frame {| dev := Some quiet_device |} quiet_device
           [0x55; 0x06; 0xc0; 0x02; 1; 255; 0; 0]).
  - reflexivity.
  - repeat constructor; unfold byte; lia.
  - simpl. lia.
Defined.

(** C1 as worded fails for a command of 32 bytes: the frame handed to
    [dev.write] has 33 bytes, the padding loop never shortens. *)
Lemma send_command_long_command :
  Forall byte (repeat 0 32) /\
  send_command {| dev := Some quiet_device |} (repeat 0 32)
  = ([Write 1 (repeat 0 33)], Returned tt) /\
  length (repeat 0 33) = 33%nat.
Proof.
  split; [|split]; try reflexivity.
  repeat constructor; unfold byte; lia.
Qed.

(** ** Decoding *)

Section Replace.

Variables old new : string.

Lemma replace_from_skip (s : string) : forall k,
  replace_from old new k s = replace_from old new 0 (string_drop k s).
Proof.
  induction s as [|c rest IH]; intros [|k]; simpl; auto.
Qed.

Lemma replace_absent (s : string) :
  occurs old s = false -> replace old new s = s.
Proof.
  unfold replace. induction s as [|c rest IH]; cbn [occurs replace_from];
    [reflexivity|].
  intros H. apply orb_false_elim in H as [Hp Ho].
  rewrite Hp. now rewrite IH.
Qed.

End Replace.

Lemma replace_leading_group (hex : string) :
  occurs "000000" (strip_leading_zero_group hex) = false ->
  replace "000000" "" hex = strip_leading_zero_group hex.
Proof.
  unfold strip_leading_zero_group.
  destruct (String.prefix "000000" hex) eqn:Hp; [|apply replace_absent].
  intros Ho. destruct hex as [|c rest]; [discriminate|].
  unfold replace. cbn [replace_from]. rewrite Hp.
  cbn [String.length Nat.sub String.app]. rewrite replace_from_skip.
  now apply replace_absent.
Qed.

Lemma forallb_is_byte (l : list Z) : Forall byte l -> forallb is_byte l = true.
Proof.
  intros H. apply forallb_forall. intros x Hx.
  rewrite Forall_forall in H.
  assert (byte x) as [? ?] by (apply H; now apply list_elem_of_In).
  unfold is_byte. apply andb_true_intro.
  split; [apply Z.leb_le|apply Z.ltb_lt]; lia.
Qed.

(** C2, as the code has it: for a frame of 32 bytes that starts with
    0x56, the answer of [update_nfc] names the status from the byte at
    offset 5, the pad from the byte at offset 2, and as identifier the hex
    text of the bytes at offsets 6 to 12 from which every occurrence of
    ["000000"] is taken out, found from left to right.  When the text has
    no such group after a leading one, this is the text without its
    leading group. *)
Theorem update_nfc_decodes (self : Dimensions) (d : usb_device)
    (packet : list Z) :
  dev self = Some d ->
  read d 0x81 32 100 = ReadData packet ->
  length packet = 32%nat ->
  Forall byte packet ->
  nth 0 packet 0 = 0x56 ->
  let hex := hexlify (slice 6 13 packet) in
  update_nfc self =
    Some (response_of (if nth 5 packet 0 =? 0 then "added" else "removed")
            (nth 2 packet 0) (replace "000000" "" hex)) /\
  (occurs "000000" (strip_leading_zero_group hex) = false ->
   replace "000000" "" hex = strip_leading_zero_group hex).
Proof.
  intros Hdev Hread Hlen Hall Hfirst. cbv zeta.
  split; [|apply replace_leading_group].
  unfold update_nfc. rewrite Hdev, Hread. unfold decode_packet.
  destruct packet as [|first rest] eqn:Hp; [discriminate|].
  rewrite <- Hp in *. assert (first = 0x56) as -> by (subst packet; exact Hfirst).
  rewrite Z.eqb_refl.
  rewrite (nth_error_nth' packet 0) by lia.
  rewrite forallb_is_byte.
  2:{ unfold slice. apply Forall_take, Forall_drop, Hall. }
  rewrite (nth_error_nth' packet 0) by lia.
  now destruct (nth 5 packet 0 =? 0).
Qed.

(** The frame of the specification: pad 2, not removed, identifier bytes
    00 00 00 a1 b2 c3 d4. *)
Lemma update_nfc_decodes_witness :
  update_nfc
    {| dev := Some (device_sending
                      (frame_of 2 0 [0; 0; 0; 0xa1; 0xb2; 0xc3; 0xd4])) |}
  = Some "added:2:a1b2c3d4"%string.
Proof.
  pose proof (update_nfc_decodes
     {| dev := Some (device_sending
                       (frame_of 2 0 [0; 0; 0; 0xa1; 0xb2; 0xc3; 0xd4])) |}
     (device_sending (frame_of 2 0 [0; 0; 0; 0xa1; 0xb2; 0xc3; 0xd4]))
     (frame_of 2 0 [0; 0; 0; 0xa1; 0xb2; 0xc3; 0xd4])
     eq_refl eq_refl eq_refl) as H.
  destruct H as [H _].
  - unfold frame_of. simpl. repeat constructor; unfold byte; lia.
  - reflexivity.
  - exact H.
Defined.

(** C2 as worded fails when zero bytes follow a nonzero byte: the
    identifier bytes a1 00 00 00 b2 c3 d4 are decoded to ["a1b2c3d4"],
    and so are zeros that straddle bytes, a0 00 00 0b becoming ["ab"]. *)
Lemma update_nfc_inner_zero_group :
  let uid := [0xa1; 0; 0; 0; 0xb2; 0xc3; 0xd4] in
  let self := {| dev := Some (device_sending (frame_of 2 0 uid)) |} in
  strip_leading_zero_group (hexlify uid) = "a1000000b2c3d4"%string /\
  update_nfc self = Some "added:2:a1b2c3d4"%string /\
  update_nfc self
  <> Some (response_of "added" 2 (strip_leading_zero_group (hexlify uid))) /\
  update_nfc
    {| dev := Some (device_sending
                      (frame_of 2 0 [0xa0; 0; 0; 0x0b; 0xb2; 0xc3; 0xd4])) |}
  = Some "added:2:abb2c3d4"%string.
Proof.
  cbv zeta. split; [reflexivity|]. split; [reflexivity|].
  split; [|reflexivity]. vm_compute. discriminate.
Qed.

(** ** A driver without a device *)

(** C3 on the code: after a failed discovery [self.dev] is [None];
    [update_nfc] then answers [None], but [send_command] and the pad
    helpers raise [AttributeError] and write nothing, and so does the
    first pad command of [startLego], which ends the start-up. *)
Theorem disabled_driver_send_command_raises (w : world) (command : list Z)
    (pad r g b : Z) :
  dev (init NotFound) = None /\
  dev (init FindUSBError) = None /\
  update_nfc (init NotFound) = None /\
  send_command (init NotFound) command = ([], Raised AttributeError) /\
  Portal.switch_pad (init NotFound) pad [r; g; b]
  = ([], Raised AttributeError) /\
  Portal.flash_pad (init NotFound) pad 10 10 6 [r; g; b]
  = ([], Raised AttributeError) /\
  fst (startLego_init w NotFound) = Stop (Raise AttributeError).
Proof.
  repeat split; try reflexivity.
  unfold startLego_init. now destruct (lights (answer_tags w [])) as [[]|].
Qed.

End PortalFacts.

(** * Facts about the tag session *)

Module SessionFacts.
Import Portal Session Scenario.

(** ** Sequencing *)

Lemma bind_inv {A B} (m : M A) (k : A -> M B) s r s' :
  (m ≫= k) s = (r, s') ->
  (exists a s1, m s = (Done a, s1) /\ k a s1 = (r, s')) \/
  (exists sg, m s = (Stop sg, s') /\ r = Stop sg).
Proof.
  unfold mbind, M_bind. destruct (m s) as [[a|sg] s1]; intros H.
  - left. eauto.
  - right. inversion H; subst. eauto.
Qed.

Section Advances.

Variables (Q : call -> Prop) (revert : bool).

Lemma advances_refl s : advances Q revert s s.
Proof.
  repeat split; auto. exists []. now rewrite app_nil_r.
Qed.

Lemma advances_trans s1 s2 s3 :
  advances Q revert s1 s2 -> advances Q revert s2 s3 -> advances Q revert s1 s3.
Proof.
  intros ((d1 & H1 & F1) & B1 & T1 & L1 & P1 & C1) ((d2 & H2 & F2) & B2 & T2 & L2 & P2 & C2).
  repeat split; try congruence.
  - exists (d1 ++ d2). rewrite H2, H1, app_assoc. split; [reflexivity|].
    apply Forall_app; auto.
  - destruct C2 as [C2|[Hr C2]].
    + rewrite C2. exact C1.
    + right. split; [exact Hr|congruence].
Qed.

Lemma advances_record cs s : Forall Q cs -> advances Q revert s (record cs s).
Proof.
  intros H. repeat split; auto. now exists cs.
Qed.

Lemma respects_ret {A} (a : A) : respects Q revert (mret a).
Proof. intros s r s' H. inversion H; subst. apply advances_refl. Qed.

Lemma respects_bind {A B} (m : M A) (k : A -> M B) :
  respects Q revert m -> (forall a, respects Q revert (k a)) ->
  respects Q revert (m ≫= k).
Proof.
  intros Hm Hk s r s' H. apply bind_inv in H as [(a & s1 & H1 & H2)|(sg & H1 & _)].
  - eapply advances_trans; [eapply Hm|eapply Hk]; eauto.
  - eapply Hm; eauto.
Qed.

Lemma respects_get : respects Q revert get.
Proof. intros s r s' H. inversion H; subst. apply advances_refl. Qed.

Lemma respects_raise {A} e : respects Q revert (@raise A e).
Proof. intros s r s' H. inversion H; subst. apply advances_refl. Qed.

Lemma respects_continue : respects Q revert continue.
Proof. intros s r s' H. inversion H; subst. apply advances_refl. Qed.

Lemma respects_read_global {A} (v : session -> option A) :
  respects Q revert (read_global v).
Proof.
  intros s r s' H. unfold read_global in H.
  destruct (v s); inversion H; subst; apply advances_refl.
Qed.

Lemma respects_modify f :
  (forall s, advances Q revert s (f s)) -> respects Q revert (modify f).
Proof. intros Hf s r s' H. inversion H; subst. apply Hf. Qed.

Lemma respects_when (c : bool) m :
  respects Q revert m -> respects Q revert (when c m).
Proof. destruct c; simpl; auto using respects_ret. Qed.

Lemma respects_for_each {A} (l : list A) body :
  (forall x, respects Q revert (body x)) -> respects Q revert (for_each l body).
Proof.
  intros Hb. induction l as [|x l IH]; simpl.
  - apply respects_ret.
  - apply respects_bind; auto.
Qed.

Lemma respects_sequence ms :
  Forall (respects Q revert) ms -> respects Q revert (sequence ms).
Proof.
  induction 1; simpl; [apply respects_ret|].
  apply respects_bind; auto.
Qed.

Variable w : world.

Lemma respects_do_call c : Q c -> respects Q revert (do_call c).
Proof.
  intros Hc s r s' H. inversion H; subst. apply advances_record. auto.
Qed.

Lemma respects_query q : (forall r, Q (ask q r)) -> respects Q revert (query w q).
Proof.
  intros Hc s r s' H. inversion H; subst. apply advances_record. auto.
Qed.

Lemma respects_query_num q :
  (forall r, Q (ask_num q r)) -> respects Q revert (query_num w q).
Proof.
  intros Hc s r s' H. inversion H; subst. apply advances_record. auto.
Qed.

Lemma respects_glob pat :
  (forall r, Q (glob_glob pat r)) -> respects Q revert (glob w pat).
Proof.
  intros Hc s r s' H. inversion H; subst. apply advances_record. auto.
Qed.

Lemma respects_shuffle l :
  (forall r, Q (random_shuffle l r)) -> respects Q revert (shuffle w l).
Proof.
  intros Hc s r s' H. inversion H; subst. apply advances_record. auto.
Qed.

Lemma respects_on_base f :
  (forall c, Q (usb c)) -> respects Q revert (on_base f).
Proof.
  intros Hc s r s' H. unfold on_base in H.
  assert (s' = record (map usb (fst (f (base s)))) s) as ->
    by (destruct (snd (f (base s))); now inversion H).
  apply advances_record. apply Forall_forall. intros c Hin.
  apply list_elem_of_fmap in Hin as (u & -> & _). auto.
Qed.

Lemma respects_startLightshow d :
  (forall t x, Q (thread_start t x)) -> respects Q revert (startLightshow d).
Proof.
  intros Hc s r s' H. unfold startLightshow in H.
  destruct (switch_lights s); inversion H; subst; [|apply advances_refl].
  repeat split; auto. eexists. split; [reflexivity|]. auto.
Qed.

Lemma respects_stop_lightshow :
  (forall t, Q (thread_stop t)) -> respects Q revert stop_lightshow.
Proof.
  intros Hc s r s' H. unfold stop_lightshow in H.
  destruct (lightshowThread s); inversion H; subst; [|apply advances_refl].
  apply advances_record. auto.
Qed.

Lemma advances_set_mp3state v s : advances Q revert s (set_mp3state v s).
Proof. repeat split; auto. exists []. now rewrite app_nil_r. Qed.

Lemma advances_set_mp3_duration v s : advances Q revert s (set_mp3_duration v s).
Proof. repeat split; auto. exists []. now rewrite app_nil_r. Qed.

End Advances.

Lemma advances_revert Q s :
  advances Q true s (set_current_tag (previous_tag s) s).
Proof. repeat split; auto. exists []. now rewrite app_nil_r. Qed.

Lemma advances_weaken (Q Q' : call -> Prop) (rv rv' : bool) s s' :
  (forall c, Q c -> Q' c) -> (rv = true -> rv' = true) ->
  advances Q rv s s' -> advances Q' rv' s s'.
Proof.
  intros HQ Hrv ((d & H & F) & B & T & L & P & C).
  repeat split; auto.
  - exists d. split; auto. eapply Forall_impl; eauto.
  - destruct C as [C|[Hr C]]; auto.
Qed.

(** ** Automation *)

Create HintDb session discriminated.
#[local] Hint Unfold startMp3 startMp3_playlist stopMp3 pauseMp3 playMp3_resume
  playMp3 playPlaylist switchHdmiToAppleTv error_flash deep_link
  base_switch_pad base_flash_pad
  on_playlist on_mp3 on_slack on_command on_spotify on_disney on_netflix
  on_youtube on_airplay on_xbox on_removed : session.

Ltac call_side := intros; unfold of_field, no_field; cbn; auto.

Ltac respects_step :=
  lazymatch goal with
  | |- respects _ _ (mbind _ _) => apply respects_bind; [|intros ?]
  | |- respects _ _ (mret _) => apply respects_ret
  | |- respects _ _ get => apply respects_get
  | |- respects _ _ (raise _) => apply respects_raise
  | |- respects _ _ continue => apply respects_continue
  | |- respects _ _ (read_global _) => apply respects_read_global
  | |- respects _ _ (when _ _) => apply respects_when
  | |- respects _ _ (for_each _ _) => apply respects_for_each; intros ?
  | |- respects _ _ (do_call _) => apply respects_do_call; call_side
  | |- respects _ _ (query _ _) => apply respects_query; call_side
  | |- respects _ _ (query_num _ _) => apply respects_query_num; call_side
  | |- respects _ _ (glob _ _) => apply respects_glob; call_side
  | |- respects _ _ (shuffle _ _) => apply respects_shuffle; call_side
  | |- respects _ _ (on_base _) => apply respects_on_base; call_side
  | |- respects _ _ (startLightshow _) =>
      apply respects_startLightshow; call_side
  | |- respects _ _ stop_lightshow => apply respects_stop_lightshow; call_side
  | |- respects _ _ (modify (set_mp3state _)) =>
      apply respects_modify; intros ?; apply advances_set_mp3state
  | |- respects _ _ (modify (set_mp3_duration _)) =>
      apply respects_modify; intros ?; apply advances_set_mp3_duration
  | |- respects _ true (modify (fun s => set_current_tag (previous_tag s) s)) =>
      apply respects_modify; intros ?; apply advances_revert
  | |- respects _ _ (match ?x with _ => _ end) => destruct x
  | |- respects _ _ _ => progress autounfold with session
  end.

Ltac respects_auto := repeat respects_step.

Section Blocks.
Variables (w : world) (pad : Z) (dir : string) (b : gmap string string).

Lemma on_playlist_respects rv : respects (of_field f_playlist) rv (on_playlist w dir b).
Proof. respects_auto. Qed.
Lemma on_mp3_respects rv : respects (of_field f_mp3) rv (on_mp3 w dir b).
Proof. respects_auto. Qed.
Lemma on_slack_respects rv : respects (of_field f_slack) rv (on_slack b).
Proof. respects_auto. Qed.
Lemma on_command_respects rv : respects (of_field f_command) rv (on_command b).
Proof. respects_auto. Qed.
Lemma on_spotify_respects : respects (of_field f_spotify) true (on_spotify w pad b).
Proof. respects_auto. Qed.
Lemma on_disney_respects rv : respects (of_field f_disney) rv (on_disney w pad b).
Proof. respects_auto. Qed.
Lemma on_netflix_respects rv : respects (of_field f_netflix) rv (on_netflix w pad b).
Proof. respects_auto. Qed.
Lemma on_youtube_respects rv : respects (of_field f_youtube) rv (on_youtube w pad b).
Proof. respects_auto. Qed.
Lemma on_airplay_respects rv : respects (of_field f_airplay) rv (on_airplay w pad b).
Proof. respects_auto. Qed.
Lemma on_xbox_respects rv : respects (of_field f_xbox) rv (on_xbox w pad b).
Proof. respects_auto. Qed.
End Blocks.

Lemma respects_weaken {A} (Q Q' : call -> Prop) (rv rv' : bool) (m : M A) :
  (forall c, Q c -> Q' c) -> (rv = true -> rv' = true) ->
  respects Q rv m -> respects Q' rv' m.
Proof.
  intros HQ Hrv Hm s r s' H. eapply advances_weaken; eauto.
Qed.

(** ** Order *)

Lemma ordered_by_app rk (l1 l2 : list field) :
  ordered_by rk l1 = true -> ordered_by rk l2 = true ->
  (forall x y, In x l1 -> In y l2 -> (rk x <= rk y)%nat) ->
  ordered_by rk (l1 ++ l2) = true.
Proof.
  induction l1 as [|f l1 IH]; simpl; intros H1 H2 H; [exact H2|].
  apply andb_prop in H1 as [Hf H1].
  apply andb_true_intro. split.
  - rewrite forallb_app, Hf. simpl. apply forallb_forall. intros y Hy.
    apply Nat.leb_le. apply H; auto.
  - apply IH; auto.
Qed.

Lemma ordered_by_const rk f (l : list field) :
  (forall x, In x l -> x = f) -> ordered_by rk l = true.
Proof.
  induction l as [|g l IH]; simpl; intros H; [reflexivity|].
  apply andb_true_intro. split.
  - apply forallb_forall. intros y Hy. apply Nat.leb_le.
    rewrite (H g), (H y); auto.
  - apply IH. auto.
Qed.

Lemma fields_of_block f (d : list call) :
  Forall (of_field f) d -> forall x, In x (omap field_of d) -> x = f.
Proof.
  intros H x Hx. apply list_elem_of_In, list_elem_of_omap in Hx as (c & Hc & Hf).
  rewrite Forall_forall in H. destruct (H c Hc) as [E|E]; congruence.
Qed.

Lemma ordered_by_head rk f (l : list field) :
  ordered_by rk (f :: l) = true -> forall g, In g l -> (rk f <= rk g)%nat.
Proof.
  simpl. intros H g Hg. apply andb_prop in H as [H _].
  rewrite forallb_forall in H. apply Nat.leb_le. auto.
Qed.

Lemma ordered_by_tail rk f (l : list field) :
  ordered_by rk (f :: l) = true -> ordered_by rk l = true.
Proof. simpl. intros H. now apply andb_prop in H as [_ H]. Qed.

Lemma sequence_blocks_ordered (bl : list (field * M unit)) :
  Forall (fun fm => respects (of_field (fst fm)) true (snd fm)) bl ->
  ordered_by rank (map fst bl) = true ->
  forall s r s', sequence (map snd bl) s = (r, s') ->
    exists d, history s' = history s ++ d /\
      ordered_by rank (omap field_of d) = true /\
      (forall g, In g (omap field_of d) -> In g (map fst bl)).
Proof.
  induction 1 as [|[f m] bl Hm Hbl IH]; intros Hord s r s' Hrun.
  - inversion Hrun; subst. exists []. rewrite app_nil_r. auto.
  - cbn [map sequence fst snd] in *.
    apply bind_inv in Hrun as [(a & s1 & H1 & H2)|(sg & H1 & _)].
    + destruct (Hm _ _ _ H1) as ((d1 & E1 & F1) & _).
      destruct (IH (ordered_by_tail _ _ _ Hord) _ _ _ H2) as (d2 & E2 & O2 & I2).
      exists (d1 ++ d2). rewrite E2, E1, app_assoc. split; [reflexivity|].
      rewrite omap_app. split.
      * apply ordered_by_app; auto.
        -- eapply ordered_by_const, fields_of_block, F1.
        -- intros x y Hx Hy. rewrite (fields_of_block _ _ F1 x Hx).
           eapply ordered_by_head; eauto.
      * intros g Hg. apply in_app_or in Hg as [Hg|Hg].
        -- left. symmetry. eapply fields_of_block; eauto.
        -- right. auto.
    + destruct (Hm _ _ _ H1) as ((d1 & E1 & F1) & _).
      exists d1. split; [exact E1|]. split.
      * eapply ordered_by_const, fields_of_block, F1.
      * intros g Hg. left. symmetry. eapply fields_of_block; eauto.
Qed.

Lemma blocks_respect w pad dir b :
  Forall (fun fm => respects (of_field (fst fm)) true (snd fm))
    (blocks w pad dir b).
Proof.
  unfold blocks. repeat apply Forall_cons_2; try apply Forall_nil_2; cbn [fst snd].
  - apply on_playlist_respects.
  - apply on_mp3_respects.
  - apply on_slack_respects.
  - apply on_command_respects.
  - apply on_spotify_respects.
  - apply on_disney_respects.
  - apply on_netflix_respects.
  - apply on_youtube_respects.
  - apply on_airplay_respects.
  - apply on_xbox_respects.
Qed.

Lemma dispatch_respects w pad dir b :
  respects (fun _ => True) true (dispatch w pad dir b).
Proof.
  unfold dispatch. apply respects_sequence.
  apply Forall_map. eapply Forall_impl; [apply blocks_respect|].
  intros [f m] H. cbn [fst snd] in *.
  eapply respects_weaken; [| |exact H]; auto.
Qed.

Lemma dispatch_ordered w pad dir b s r s' :
  dispatch w pad dir b s = (r, s') ->
  exists d, history s' = history s ++ d /\
    ordered_by rank (omap field_of d) = true.
Proof.
  intros H.
  destruct (sequence_blocks_ordered _ (blocks_respect w pad dir b) eq_refl _ _ _ H)
    as (d & E & O & _).
  eauto.
Qed.

Lemma switch_pad_ok d pad r g b s :
  dev (base s) = Some d ->
  base_switch_pad pad [r; g; b] s
  = (Done tt,
     record [usb (Write 1 (build_message [0x55; 0x06; 0xc0; 0x02; pad; r; g; b]))] s).
Proof.
  intros H. unfold base_switch_pad, on_base, Portal.switch_pad, with_colour.
  cbn [colour_at nth_error]. unfold send_command. rewrite H.
  now destruct (write d 1 _).
Qed.

Lemma get_inv s (a : session) s1 : get s = (Done a, s1) -> a = s /\ s1 = s.
Proof. intros H. inversion H. auto. Qed.

Lemma on_base_stop f s sg s' :
  on_base f s = (Stop sg, s') -> exists e, sg = Raise e.
Proof.
  unfold on_base. destruct (snd (f (base s))); intros H; inversion H; eauto.
Qed.

Lemma on_added_cases w pad ident s r s' :
  on_added w pad ident s = (r, s') ->
  (advances no_field false s s' /\ exists e, r = Stop (Raise e)) \/
  exists s1 s3,
    advances no_field false s s1 /\
    advances no_field false
      (set_tags (answer_tags w (history s1)) (record [nfc_load_tags] s1)) s3 /\
    match identifier (answer_tags w (history s1)) with
    | None => r = Stop (Raise KeyError) /\ s' = s3
    | Some bindings =>
        match bindings !! ident with
        | None => base_switch_pad pad RED s3 = (r, s')
        | Some b =>
            exists dir,
              dispatch w pad dir b
                (set_current_tag (Some ident)
                   (set_previous_tag
                      (match current_tag s3 with
                       | None => Some ident
                       | Some c => Some c
                       end) s3)) = (r, s')
        end
    end.
Proof.
  unfold on_added. intros H.
  apply bind_inv in H as [(s0 & s0' & Hg & H)|(sg & Hg & _)]; [|discriminate].
  apply get_inv in Hg as [-> ->].
  apply bind_inv in H as [([] & s1 & H1 & H)|(sg & H1 & ->)].
  2:{ left. split.
      - eapply (respects_when no_field false); [|exact H1]. respects_auto.
      - destruct (switch_lights s); cbn [when] in H1; [|discriminate].
        apply on_base_stop in H1 as [e ->]. eauto. }
  assert (advances no_field false s s1) as A1.
  { eapply (respects_when no_field false); [|exact H1]. respects_auto. }
  right.
  apply bind_inv in H as [(t & s2 & H2 & H)|(sg & H2 & _)]; [|discriminate].
  unfold load_tags in H2. inversion H2; subst t s2; clear H2.
  apply bind_inv in H as [([] & s3 & H3 & H)|(sg & H3 & _)].
  2:{ unfold stop_lightshow in H3. destruct (lightshowThread _); discriminate. }
  exists s1, s3. split; [exact A1|]. split.
  { eapply (respects_stop_lightshow no_field false); [|exact H3]. call_side. }
  destruct (identifier (answer_tags w (history s1))) as [bindings|].
  2:{ inversion H. auto. }
  destruct (bindings !! ident) as [b|]; [|exact H].
  apply bind_inv in H as [([] & s4 & H4 & H)|(sg & H4 & _)]; [|discriminate].
  inversion H4; subst s4. eauto.
Qed.

Lemma bind_done {A B} (m : M A) (k : A -> M B) s a s1 :
  m s = (Done a, s1) -> (m ≫= k) s = k a s1.
Proof. intros H. unfold mbind, M_bind. now rewrite H. Qed.

Lemma tag_eqb_refl a : tag_eqb a a = true.
Proof. unfold tag_eqb. now apply bool_decide_eq_true_2. Qed.

(** The resume path of [playMp3]: the tag is the one before, the player
    is paused, and at least 0.1 s of the track remain. *)
Lemma playMp3_resume_path (w : world) (filename dir : string)
    (s : session) (duration elapsed : float) :
  previous_tag s = current_tag s ->
  mp3state s = Some "PAUSED"%string ->
  mp3_duration s = Some duration ->
  mp3elapsed s = Some elapsed ->
  PrimFloat.leb 0.1%float (PrimFloat.sub duration elapsed) = true ->
  exists s',
    playMp3 w filename dir s = (Done tt, s') /\
    history s' =
      history s ++ [spotify_pause; player_play]
        ++ (if switch_lights s
            then [thread_start (threads s)
                    (PrimFloat.div
                       (PrimFloat.mul (PrimFloat.sub duration elapsed) 1000%float)
                       1000%float)]
            else []) /\
    mp3state s' = Some "PAUSED"%string /\
    mp3_duration s' = Some duration /\
    mp3elapsed s' = Some elapsed /\
    current_tag s' = current_tag s /\
    previous_tag s' = previous_tag s.
Proof.
  intros Hprev Hstate Hdur Hel Hrem.
  unfold playMp3, playMp3_resume, do_call, modify, read_global, get,
    startLightshow, mbind, M_bind, mret, M_ret.
  cbn. rewrite Hprev, tag_eqb_refl, Hstate.
  rewrite bool_decide_eq_true_2 by reflexivity. cbn. rewrite Hdur. cbn. rewrite Hel. cbn.
  rewrite Hrem. cbn.
  destruct (switch_lights s); cbn.
  - eexists. split; [reflexivity|]. cbn. rewrite <- !app_assoc.
    repeat split; auto.
  - eexists. split; [reflexivity|]. cbn. rewrite <- !app_assoc.
    repeat split; auto.
Qed.

(** ** A removal while nothing plays *)

Lemma on_removed_not_playing (w : world) (ident : string) (s : session) :
  current_tag s = Some ident ->
  mp3state s <> Some "PLAYING"%string ->
  exists s',
    on_removed w ident s = (Done tt, s') /\
    mp3state s' = mp3state s /\
    current_tag s' = current_tag s /\
    history s' =
      history s
        ++ (match lightshowThread s with
            | Some t => [thread_stop t]
            | None => []
            end)
        ++ [ask spotify_activated
              (answer w
                 (history s ++ match lightshowThread s with
                               | Some t => [thread_stop t]
                               | None => []
                               end) spotify_activated)]
        ++ (if answer w
                 (history s ++ match lightshowThread s with
                               | Some t => [thread_stop t]
                               | None => []
                               end) spotify_activated
            then [spotify_pause] else []).
Proof.
  intros Hcur Hstate.
  unfold on_removed, pauseMp3, stop_lightshow, query, do_call, modify, get,
    mbind, M_bind, mret, M_ret.
  cbn. rewrite Hcur, tag_eqb_refl.
  destruct (lightshowThread s) as [t|]; cbn;
    rewrite bool_decide_eq_false_2 by exact Hstate; cbn;
    rewrite ?app_nil_r;
    destruct (answer w _ spotify_activated); cbn;
    (eexists; split; [reflexivity|]); cbn; rewrite <- ?app_assoc;
    repeat split; auto.
Qed.

Lemma record_nil s : record [] s = s.
Proof. destruct s. unfold record. cbn. now rewrite app_nil_r. Qed.



Lemma handle_added w pad ident s :
  handle w "added" pad ident s = on_added w pad ident s.
Proof. reflexivity. Qed.

Lemma handle_removed w pad ident s :
  handle w "removed" pad ident s = (on_removed w ident ;; mret tt) s.
Proof. reflexivity. Qed.

(** C7, as the code has it: an Added event whose identifier has no
    binding changes neither [current_tag] nor [previous_tag] nor the
    playback state; the control thread paints the pad blue when lights are
    enabled, reloads the configuration, cancels and joins the lightshow
    thread when there is one, and paints the pad red. *)
Theorem added_unknown_tag (w : world) (d : usb_device) (pad : Z)
    (ident : string) (s : session) (bindings : gmap string (gmap string string)) :
  dev (base s) = Some d ->
  identifier
    (answer_tags w
       (history s ++ if switch_lights s then [pad_colour pad BLUE] else []))
  = Some bindings ->
  bindings !! ident = None ->
  exists s',
    handle w "added" pad ident s = (Done tt, s') /\
    current_tag s' = current_tag s /\
    previous_tag s' = previous_tag s /\
    mp3state s' = mp3state s /\
    history s' =
      history s
        ++ (if switch_lights s then [pad_colour pad BLUE] else [])
        ++ [nfc_load_tags]
        ++ (match lightshowThread s with
            | Some t => [thread_stop t]
            | None => []
            end)
        ++ [pad_colour pad RED].
Proof.
  intros Hdev Hid Hno. rewrite handle_added. unfold on_added.
  rewrite (bind_done get _ s s s eq_refl).
  destruct (switch_lights s) eqn:Hl; cbn [when].
  - unfold BLUE at 1. rewrite (bind_done _ _ _ _ _ (switch_pad_ok d pad 0 0 255 s Hdev)).
    unfold load_tags, stop_lightshow, mbind, M_bind. cbn.
    unfold pad_colour, BLUE in Hid. cbn in Hid.
    destruct (lightshowThread s) as [t|]; cbn; rewrite Hid, Hno;
      unfold RED; erewrite switch_pad_ok by (cbn; exact Hdev);
      (eexists; split; [reflexivity|]); cbn; rewrite <- ?app_assoc;
      repeat split; auto.
  - rewrite app_nil_r in Hid.
    unfold load_tags, stop_lightshow, mbind, M_bind, mret, M_ret. cbn.
    destruct (lightshowThread s) as [t|]; cbn; rewrite Hid, Hno;
      unfold RED; erewrite switch_pad_ok by (cbn; exact Hdev);
      (eexists; split; [reflexivity|]); cbn; rewrite <- ?app_assoc;
      repeat split; auto.
Qed.

Lemma on_removed_respects w ident :
  respects (fun _ => True) false (on_removed w ident).
Proof. respects_auto. Qed.




Lemma parse_tag_inv tag s r s1 :
  parse_tag tag s = (r, s1) ->
  s1 = s /\ ((exists x, r = Done x) \/ exists e, r = Stop (Raise e)).
Proof.
  unfold parse_tag, raise, mret, M_ret. intros H.
  repeat case_match; inversion H; subst; eauto.
Qed.



Lemma catch_continue_inv m s r s' :
  catch_continue m s = (r, s') ->
  exists r0, m s = (r0, s') /\
    (r0 = r \/ (r0 = Stop Continue /\ r = Done tt)).
Proof.
  unfold catch_continue. destruct (m s) as [[[]|[e|]] s0]; intros H;
    inversion H; subst; eauto.
Qed.




Lemma on_added_base w pad ident s r s' :
  on_added w pad ident s = (r, s') -> base s' = base s.
Proof.
  intros H. apply on_added_cases in H as [[A _]|(s1 & s3 & A1 & A3 & H)].
  - now destruct A as (_ & B & _).
  - destruct A1 as (_ & B1 & _). destruct A3 as (_ & B3 & _). cbn in B3.
    rewrite <- B1, <- B3.
    destruct (identifier (answer_tags w (history s1))) as [bs|].
    2:{ now destruct H as [_ ->]. }
    destruct (bs !! ident) as [b|].
    + destruct H as [dir H]. apply dispatch_respects in H.
      destruct H as (_ & B & _). exact B.
    + assert (advances no_field false s3 s') as A
        by (eapply (respects_on_base no_field false); [|exact H]; call_side).
      now destruct A as (_ & B & _).
Qed.

Lemma step_base w i s r s' : step w i s = (r, s') -> base s' = base s.
Proof.
  intros H. destruct i as [[tag|]|state elapsed]; cbn in H.
  - destruct (truthy tag); [|now inversion H].
    apply catch_continue_inv in H as (r0 & H & _).
    apply bind_inv in H as [([[st p] id] & s1 & Hp & H)|(sg & Hp & _)].
    + destruct (parse_tag_inv _ _ _ _ Hp) as [-> _].
      unfold handle in H.
      apply bind_inv in H as [([] & s2 & H1 & H)|(sg & H1 & _)].
      * assert (advances (fun _ => True) false s s2) as (_ & B2 & _)
          by (eapply respects_when; [apply on_removed_respects|exact H1]).
        rewrite <- B2. destruct (String.eqb st "added"); cbn [when] in H.
        -- eapply on_added_base; eauto.
        -- now inversion H.
      * assert (advances (fun _ => True) false s s') as (_ & B2 & _)
          by (eapply respects_when; [apply on_removed_respects|exact H1]).
        exact B2.
    + now destruct (parse_tag_inv _ _ _ _ Hp) as [-> _].
  - now inversion H.
  - now inversion H.
Qed.

Lemma reachable_device w s : reachable w s -> is_Some (dev (base s)).
Proof.
  induction 1 as [found s H|s i s' _ IH H].
  - unfold startLego_init in H.
    set (s0 := {| base := init found; current_tag := None |}) in H.
    assert (base s = base s0 /\ is_Some (dev (init found))) as [B D].
    { destruct (match lights (answer_tags w []) with Some l => l | None => true end).
      - split.
        + assert (advances no_field false s0 s) as (_ & B & _)
            by (eapply (respects_on_base no_field false); [|exact H]; call_side).
          exact B.
        + destruct found; cbn; eauto; discriminate.
      - split.
        + assert (advances no_field false s0 s) as (_ & B & _)
            by (eapply (respects_on_base no_field false); [|exact H]; call_side).
          exact B.
        + destruct found; cbn; eauto; discriminate. }
    rewrite B. exact D.
  - apply step_base in H. now rewrite H.
Qed.

Section Emits.

Variable P : call -> Prop.

Lemma emits_bind_l {A B} (m : M A) (k : A -> M B) :
  emits P m -> (forall a, respects (fun _ => True) true (k a)) ->
  emits P (m ≫= k).
Proof.
  intros Hm Hk s b s' H.
  apply bind_inv in H as [(a & s1 & H1 & H2)|(sg & _ & ?)]; [|discriminate].
  destruct (Hm _ _ _ H1) as (d1 & E1 & X1).
  destruct (Hk a _ _ _ H2) as ((d2 & E2 & _) & _).
  exists (d1 ++ d2). rewrite E2, E1, app_assoc. split; [reflexivity|].
  apply Exists_app. auto.
Qed.

Lemma emits_bind_r {A B} (m : M A) (k : A -> M B) :
  respects (fun _ => True) true m -> (forall a, emits P (k a)) ->
  emits P (m ≫= k).
Proof.
  intros Hm Hk s b s' H.
  apply bind_inv in H as [(a & s1 & H1 & H2)|(sg & _ & ?)]; [|discriminate].
  destruct (Hm _ _ _ H1) as ((d1 & E1 & _) & _).
  destruct (Hk a _ _ _ H2) as (d2 & E2 & X2).
  exists (d1 ++ d2). rewrite E2, E1, app_assoc. split; [reflexivity|].
  apply Exists_app. auto.
Qed.

Lemma emits_bind_or {A B} (m : M A) (k : A -> M B) :
  respects (fun _ => True) true m ->
  (forall a, respects (fun _ => True) true (k a)) ->
  (forall s a s1, m s = (Done a, s1) ->
     (exists d, history s1 = history s ++ d /\ Exists P d) \/ emits P (k a)) ->
  emits P (m ≫= k).
Proof.
  intros Hm Hk Hor s b s' H.
  apply bind_inv in H as [(a & s1 & H1 & H2)|(sg & _ & ?)]; [|discriminate].
  destruct (Hor _ _ _ H1) as [(d1 & E1 & X1)|He].
  - destruct (Hk a _ _ _ H2) as ((d2 & E2 & _) & _).
    exists (d1 ++ d2). rewrite E2, E1, app_assoc. split; [reflexivity|].
    apply Exists_app. auto.
  - destruct (Hm _ _ _ H1) as ((d1 & E1 & _) & _).
    destruct (He _ _ _ H2) as (d2 & E2 & X2).
    exists (d1 ++ d2). rewrite E2, E1, app_assoc. split; [reflexivity|].
    apply Exists_app. auto.
Qed.

Lemma emits_raise {A} e : emits P (@raise A e).
Proof. intros s a s' H. discriminate. Qed.

Lemma emits_continue : emits P continue.
Proof. intros s a s' H. discriminate. Qed.

Lemma emits_do_call c : P c -> emits P (do_call c).
Proof.
  intros Hc s a s' H. inversion H; subst. exists [c]. split; [reflexivity|].
  apply Exists_cons. auto.
Qed.

Variable w : world.

Lemma emits_query q : (forall r, P (ask q r)) -> emits P (query w q).
Proof.
  intros Hc s a s' H. inversion H; subst. eexists. split; [reflexivity|].
  apply Exists_cons. auto.
Qed.

Lemma emits_query_num q : (forall r, P (ask_num q r)) -> emits P (query_num w q).
Proof.
  intros Hc s a s' H. inversion H; subst. eexists. split; [reflexivity|].
  apply Exists_cons. auto.
Qed.

Lemma emits_glob pat : (forall r, P (glob_glob pat r)) -> emits P (glob w pat).
Proof.
  intros Hc s a s' H. inversion H; subst. eexists. split; [reflexivity|].
  apply Exists_cons. auto.
Qed.

End Emits.

Ltac fire_side := solve [intros; unfold fires; cbn; auto].

Ltac emits_auto :=
  idtac;
  lazymatch goal with
  | |- emits _ (mbind _ _) =>
      first [ apply emits_bind_l; [solve [emits_auto] | intros; solve [respects_auto]]
            | apply emits_bind_r; [solve [respects_auto] | intros ?; emits_auto] ]
  | |- emits _ (do_call _) => apply emits_do_call; fire_side
  | |- emits _ (query _ _) => apply emits_query; fire_side
  | |- emits _ (query_num _ _) => apply emits_query_num; fire_side
  | |- emits _ (glob _ _) => apply emits_glob; fire_side
  | |- emits _ (raise _) => apply emits_raise
  | |- emits _ continue => apply emits_continue
  | |- emits _ (when appletv_activated _) =>
      unfold appletv_activated; cbn [when]; emits_auto
  | |- emits _ (when _ _) => fail
  | |- emits _ (let _ := _ in _) => cbv zeta; emits_auto
  | |- emits _ (match ?x with _ => _ end) => destruct x; emits_auto
  | |- emits _ _ => progress autounfold with session; emits_auto
  end.

Section BlocksFire.

Variables (w : world) (pad : Z) (dir : string) (b : gmap string string).

Lemma on_playlist_fires v :
  b !! "playlist" = Some v -> emits (fires f_playlist) (on_playlist w dir b).
Proof. intros H. unfold on_playlist. rewrite H. emits_auto. Qed.

Lemma on_slack_fires v :
  b !! "slack" = Some v -> emits (fires f_slack) (on_slack b).
Proof. intros H. unfold on_slack. rewrite H. emits_auto. Qed.

Lemma on_command_fires v :
  b !! "command" = Some v -> emits (fires f_command) (on_command b).
Proof. intros H. unfold on_command. rewrite H. emits_auto. Qed.

Lemma on_disney_fires v :
  b !! "disney" = Some v -> emits (fires f_disney) (on_disney w pad b).
Proof. intros H. unfold on_disney. rewrite H. emits_auto. Qed.

Lemma on_netflix_fires v :
  b !! "netflix" = Some v -> emits (fires f_netflix) (on_netflix w pad b).
Proof. intros H. unfold on_netflix. rewrite H. emits_auto. Qed.

Lemma on_youtube_fires v :
  b !! "youtube" = Some v -> emits (fires f_youtube) (on_youtube w pad b).
Proof. intros H. unfold on_youtube. rewrite H. emits_auto. Qed.

Lemma on_airplay_fires v :
  b !! "airplay" = Some v -> emits (fires f_airplay) (on_airplay w pad b).
Proof. intros H. unfold on_airplay. rewrite H. emits_auto. Qed.

Lemma on_xbox_fires v :
  b !! "xbox" = Some v -> emits (fires f_xbox) (on_xbox w pad b).
Proof. intros H. unfold on_xbox. rewrite H. emits_auto. Qed.

Lemma playMp3_resume_fires s s1 :
  playMp3_resume s = (Done true, s1) ->
  exists d, history s1 = history s ++ d /\ Exists (fires f_mp3) d.
Proof.
  unfold playMp3_resume. intros H.
  apply bind_inv in H as [(s0 & s0' & Hg & H)|(sg & _ & ?)]; [|discriminate].
  apply get_inv in Hg as [-> ->].
  destruct (tag_eqb _ _ && bool_decide _); [|discriminate].
  apply bind_inv in H as [([] & s2 & H1 & H2)|(sg & _ & ?)]; [|discriminate].
  inversion H1; subst s2.
  cbv beta in H2.
  assert (advances (fun _ => True) true (record [player_play] s) s1) as A.
  { lazymatch type of H2 with
    | ?m _ = _ =>
        assert (respects (fun _ => True) true m) as R by respects_auto;
        exact (R _ _ _ H2)
    end. }
  destruct A as ((d & E & _) & _). cbn in E.
  exists ([player_play] ++ d). rewrite E, <- app_assoc. split; [reflexivity|].
  apply Exists_cons. left. left. reflexivity.
Qed.

Lemma on_mp3_fires v :
  b !! "mp3" = Some v -> emits (fires f_mp3) (on_mp3 w dir b).
Proof.
  intros H. unfold on_mp3. rewrite H. unfold playMp3.
  apply emits_bind_r; [solve [respects_auto]|intros _].
  apply emits_bind_or; [solve [respects_auto]|intros; solve [respects_auto]|].
  intros s [|] s1 Hm.
  - left. now apply playMp3_resume_fires.
  - right. emits_auto.
Qed.

Lemma on_spotify_fires v :
  b !! "spotify" = Some v -> emits (fires f_spotify) (on_spotify w pad b).
Proof.
  intros H. unfold on_spotify. rewrite H.
  apply emits_bind_or; [solve [respects_auto]|intros; solve [respects_auto]|].
  intros s [|] s1 Hq.
  - right. emits_auto.
  - left. unfold query in Hq. inversion Hq as [[Ha Hs]].
    exists [ask spotify_activated false]. rewrite Ha. split; [reflexivity|].
    apply Exists_cons. left. right. auto.
Qed.

Lemma blocks_fire :
  Forall (fun fm => is_Some (b !! key_of (fst fm)) -> emits (fires (fst fm)) (snd fm))
    (blocks w pad dir b).
Proof.
  unfold blocks. repeat apply Forall_cons_2; try apply Forall_nil_2;
    cbn [fst snd key_of]; intros [v Hv].
  - eapply on_playlist_fires; eauto.
  - eapply on_mp3_fires; eauto.
  - eapply on_slack_fires; eauto.
  - eapply on_command_fires; eauto.
  - eapply on_spotify_fires; eauto.
  - eapply on_disney_fires; eauto.
  - eapply on_netflix_fires; eauto.
  - eapply on_youtube_fires; eauto.
  - eapply on_airplay_fires; eauto.
  - eapply on_xbox_fires; eauto.
Qed.

End BlocksFire.

Lemma sequence_blocks_fire (b : gmap string string) (bl : list (field * M unit)) :
  Forall (fun fm => respects (of_field (fst fm)) true (snd fm)) bl ->
  Forall (fun fm => is_Some (b !! key_of (fst fm)) -> emits (fires (fst fm)) (snd fm)) bl ->
  forall s s', sequence (map snd bl) s = (Done tt, s') ->
    exists d, history s' = history s ++ d /\
      forall f, In f (map fst bl) -> is_Some (b !! key_of f) -> Exists (fires f) d.
Proof.
  induction 1 as [|[f m] bl Hm Hbl IH]; intros Hfire s s' Hrun.
  - inversion Hrun; subst. exists []. rewrite app_nil_r. split; [auto|].
    intros f [].
  - apply Forall_cons in Hfire as [Hf Hfire]. cbn [map sequence fst snd] in *.
    apply bind_inv in Hrun as [([] & s1 & H1 & H2)|(sg & _ & ?)]; [|discriminate].
    destruct (Hm _ _ _ H1) as ((d1 & E1 & _) & _).
    destruct (IH Hfire _ _ H2) as (d2 & E2 & X2).
    exists (d1 ++ d2). rewrite E2, E1, app_assoc. split; [reflexivity|].
    intros g [<-|Hg] Hp; apply Exists_app.
    + left. destruct (Hf Hp _ _ _ H1) as (d1' & E1' & X1).
      rewrite E1 in E1'. apply app_inv_head in E1'. now subst d1'.
    + right. auto.
Qed.

Lemma dispatch_fires w pad dir b s s' :
  dispatch w pad dir b s = (Done tt, s') ->
  exists d, history s' = history s ++ d /\
    forall f, is_Some (b !! key_of f) -> Exists (fires f) d.
Proof.
  intros H.
  destruct (sequence_blocks_fire b _ (blocks_respect w pad dir b)
              (blocks_fire w pad dir b) _ _ H) as (d & E & X).
  exists d. split; [exact E|]. intros f. apply X.
  destruct f; cbn; auto 20.
Qed.

(** When the handling of an Added event of a bound identifier ends
    without an exception and without the [continue] of the spotify
    resume case, every option present in the binding has fired: its
    action was called or, for spotify, the service answered that it is
    not activated. *)
Theorem added_fires_present_fields (w : world) (pad : Z) (ident : string)
    (s s' : session) (bindings : gmap string (gmap string string))
    (b : gmap string string) :
  handle w "added" pad ident s = (Done tt, s') ->
  identifier (tags s') = Some bindings ->
  bindings !! ident = Some b ->
  exists d, history s' = history s ++ d /\
    forall f, is_Some (b !! key_of f) -> Exists (fires f) d.
Proof.
  rewrite handle_added. intros H Hbs Hb.
  apply on_added_cases in H as [[_ [e ?]]|(s1 & s3 & A1 & A3 & H)];
    [discriminate|].
  destruct A1 as ((d1 & E1 & _) & _).
  destruct A3 as ((d3 & E3 & _) & _ & T3 & _). cbn in E3, T3.
  destruct (identifier (answer_tags w (history s1))) as [bs|] eqn:Hid.
  2:{ destruct H; discriminate. }
  destruct (bs !! ident) as [b0|] eqn:Hb0.
  - destruct H as [dir H].
    pose proof (dispatch_respects _ _ _ _ _ _ _ H) as (_ & _ & T & _).
    cbn in T. rewrite T, T3, Hid in Hbs. inversion Hbs; subst bs.
    rewrite Hb in Hb0. inversion Hb0; subst b0.
    apply dispatch_fires in H as (d4 & E4 & X4). cbn in E4.
    exists (d1 ++ [nfc_load_tags] ++ d3 ++ d4).
    rewrite E4, E3, E1, <- !app_assoc. split; [reflexivity|].
    intros f Hf. apply Exists_app. right. apply Exists_app. right.
    apply Exists_app. right. auto.
  - assert (advances no_field false s3 s') as A
      by (eapply (respects_on_base no_field false); [|exact H]; call_side).
    destruct A as (_ & _ & T & _). rewrite T, T3, Hid in Hbs.
    inversion Hbs; subst bs. congruence.
Qed.

(** ** The [continue] of the spotify resume case *)

Lemma is_resume_field (c : call) :
  is_resume c = true -> field_of c = Some f_spotify.
Proof.
  destruct c; cbn; try discriminate.
  match goal with x : nquery |- _ => destruct x end; cbn;
    try discriminate; reflexivity.
Qed.

Lemma action_field (c : call) (f : field) :
  action_of c = Some f -> field_of c = Some f.
Proof.
  destruct c; cbn; try discriminate;
    match goal with
    | x : nquery |- _ => destruct x
    | x : bquery |- _ => destruct x
    | _ => idtac
    end; cbn; intros H; try discriminate; exact H.
Qed.

Lemma no_field_no_resume (c : call) : no_field c -> is_resume c = false.
Proof.
  intros H. destruct (is_resume c) eqn:E; [|reflexivity].
  apply is_resume_field in E. unfold no_field in H. congruence.
Qed.

Lemma resume_branch_continue w s r s' :
  (remaining_ms ← query_num w spotify_resume;
   startLightshow remaining_ms;; continue) s = (r, s') ->
  r = Stop Continue.
Proof.
  unfold query_num, startLightshow, continue, mbind, M_bind. cbn.
  destruct (switch_lights s); intros H; now inversion H.
Qed.

Ltac by_respects Q H :=
  lazymatch type of H with
  | ?m _ = _ =>
      let R := fresh "R" in
      assert (respects Q true m) as R by respects_auto;
      exact (R _ _ _ H)
  end.

(** The spotify block ends the turn with [continue], or it has not
    called [spotify.resume()]. *)
Lemma on_spotify_resume_continue w pad b s r s' :
  on_spotify w pad b s = (r, s') ->
  r = Stop Continue \/
  advances (fun c => is_resume c = false) true s s'.
Proof.
  unfold on_spotify. destruct (b !! "spotify"%string) as [uri|].
  2:{ intros H. inversion H; subst. right. apply advances_refl. }
  intros H.
  apply bind_inv in H as [(a & s1 & Hq & H)|(sg & Hq & _)]; [|discriminate].
  assert (advances (fun c => is_resume c = false) true s s1) as A1.
  { eapply (respects_query (fun c => is_resume c = false) true);
      [|exact Hq]. reflexivity. }
  destruct a.
  - apply bind_inv in H as [([] & s2 & H2 & H)|(sg & H2 & ->)].
    + right. eapply advances_trans; [exact A1|].
      apply bind_inv in H2 as [(s0 & s0' & Hg & H2)|(sg' & Hg & _)];
        [|discriminate].
      apply get_inv in Hg as [-> ->].
      destruct (tag_eqb (current_tag s1) (previous_tag s1)).
      { apply resume_branch_continue in H2. discriminate. }
      eapply advances_trans.
      * by_respects (fun c => is_resume c = false) H2.
      * by_respects (fun c => is_resume c = false) H.
    + apply bind_inv in H2 as [(s0 & s0' & Hg & H2)|(sg' & Hg & _)];
        [|discriminate].
      apply get_inv in Hg as [-> ->].
      destruct (tag_eqb (current_tag s1) (previous_tag s1)).
      { left. apply resume_branch_continue in H2. exact H2. }
      right. eapply advances_trans; [exact A1|].
      by_respects (fun c => is_resume c = false) H2.
  - right. eapply advances_trans; [exact A1|].
    by_respects (fun c => is_resume c = false) H.
Qed.

Lemma respects_no_resume {A} (f : field) (rv : bool) (m : M A) :
  f <> f_spotify -> respects (of_field f) rv m ->
  respects (fun c => is_resume c = false) true m.
Proof.
  intros Hf. apply respects_weaken; [|auto].
  intros c [H|H]; destruct (is_resume c) eqn:E; try reflexivity;
    apply is_resume_field in E; congruence.
Qed.

(** The calls of the options up to [spotify]. *)
Lemma respects_upto {A} (f : field) (rv : bool) (m : M A) :
  (rank f <= rank f_spotify)%nat -> respects (of_field f) rv m ->
  respects (fun c => forall g, field_of c = Some g ->
                       (rank g <= rank f_spotify)%nat) true m.
Proof.
  intros Hf. apply respects_weaken; [|auto].
  intros c [H|H] g Hg; rewrite H in Hg; [discriminate|].
  inversion Hg; subst. exact Hf.
Qed.

Lemma history_split (s s' : session) (d d' : list call) :
  history s' = history s ++ d -> history s' = history s ++ d' -> d' = d.
Proof. intros H H'. rewrite H in H'. now apply app_inv_head in H'. Qed.

Lemma no_resume_among (d : list call) :
  Forall (fun c => is_resume c = false) d ->
  ~ Exists (fun c => is_resume c = true) d.
Proof.
  intros F X. apply Exists_exists in X as (c & Hin & Hc).
  rewrite Forall_forall in F. rewrite (F c Hin) in Hc. discriminate.
Qed.

Lemma of_field_before (f : field) (c : call) :
  of_field f c -> (rank f < rank f_spotify)%nat ->
  is_resume c = false /\
  forall g, field_of c = Some g -> (rank g <= rank f_spotify)%nat.
Proof.
  intros Hc Hf. split.
  - destruct (is_resume c) eqn:R; [|reflexivity].
    apply is_resume_field in R.
    destruct Hc as [Hc|Hc]; rewrite Hc in R; [discriminate|].
    inversion R; subst. cbn in Hf. lia.
  - intros g Hg. destruct Hc as [Hc|Hc]; rewrite Hc in Hg;
      inversion Hg; subst; lia.
Qed.

Lemma sequence_app_inv (l1 l2 : list (M unit)) s r s' :
  sequence (l1 ++ l2) s = (r, s') ->
  (exists sg, r = Stop sg /\ sequence l1 s = (Stop sg, s')) \/
  exists s1, sequence l1 s = (Done tt, s1) /\ sequence l2 s1 = (r, s').
Proof.
  revert s. induction l1 as [|m l1 IH]; intros s H.
  - right. exists s. split; [reflexivity|exact H].
  - cbn [app sequence] in *.
    apply bind_inv in H as [([] & s1 & H1 & H)|(sg & H1 & ->)].
    + rewrite (bind_done _ _ _ _ _ H1).
      destruct (IH _ H) as [(sg & -> & H2)|(s2 & H2 & H3)]; eauto.
    + left. exists sg. split; [reflexivity|].
      unfold mbind, M_bind. now rewrite H1.
Qed.

Lemma dispatch_resume w pad dir b s r s' d :
  dispatch w pad dir b s = (r, s') ->
  history s' = history s ++ d ->
  Exists (fun c => is_resume c = true) d ->
  r = Stop Continue /\
  Forall (fun c => forall g, field_of c = Some g ->
                     (rank g <= rank f_spotify)%nat) d.
Proof.
  set (NR := fun c => is_resume c = false).
  set (UP := fun c => forall g, field_of c = Some g ->
                        (rank g <= rank f_spotify)%nat).
  intros H E X.
  assert (Hno : advances NR true s s' -> False).
  { intros ((d' & E' & F') & _).
    rewrite (history_split _ _ _ _ E E') in F'.
    exact (no_resume_among _ F' X). }
  assert (Hpre : respects (fun c => NR c /\ UP c) true
            (sequence [on_playlist w dir b; on_mp3 w dir b; on_slack b;
                       on_command b])).
  { apply respects_sequence. repeat apply Forall_cons_2; try apply Forall_nil_2.
    - eapply respects_weaken;
        [|auto|apply (on_playlist_respects w dir b true)].
      intros c Hc. apply (of_field_before _ c) in Hc; [exact Hc|cbn; lia].
    - eapply respects_weaken; [|auto|apply (on_mp3_respects w dir b true)].
      intros c Hc. apply (of_field_before _ c) in Hc; [exact Hc|cbn; lia].
    - eapply respects_weaken; [|auto|apply (on_slack_respects b true)].
      intros c Hc. apply (of_field_before _ c) in Hc; [exact Hc|cbn; lia].
    - eapply respects_weaken; [|auto|apply (on_command_respects b true)].
      intros c Hc. apply (of_field_before _ c) in Hc; [exact Hc|cbn; lia]. }
  assert (Hpost : respects NR true
            (sequence [on_disney w pad b; on_netflix w pad b;
                       on_youtube w pad b; on_airplay w pad b;
                       on_xbox w pad b])).
  { apply respects_sequence. repeat apply Forall_cons_2; try apply Forall_nil_2.
    - apply (respects_no_resume f_disney true); [discriminate|].
      apply on_disney_respects.
    - apply (respects_no_resume f_netflix true); [discriminate|].
      apply on_netflix_respects.
    - apply (respects_no_resume f_youtube true); [discriminate|].
      apply on_youtube_respects.
    - apply (respects_no_resume f_airplay true); [discriminate|].
      apply on_airplay_respects.
    - apply (respects_no_resume f_xbox true); [discriminate|].
      apply on_xbox_respects. }
  unfold dispatch, blocks in H. cbn [map snd] in H.
  change [on_playlist w dir b; on_mp3 w dir b; on_slack b; on_command b;
          on_spotify w pad b; on_disney w pad b; on_netflix w pad b;
          on_youtube w pad b; on_airplay w pad b; on_xbox w pad b]
    with ([on_playlist w dir b; on_mp3 w dir b; on_slack b; on_command b]
          ++ on_spotify w pad b
             :: [on_disney w pad b; on_netflix w pad b; on_youtube w pad b;
                 on_airplay w pad b; on_xbox w pad b]) in H.
  apply sequence_app_inv in H as [(sg & -> & H)|(s4 & H4 & H)].
  { exfalso. apply Hno.
    eapply advances_weaken; [| |exact (Hpre _ _ _ H)]; [intros c [? _]|]; auto. }
  pose proof (Hpre _ _ _ H4) as A4.
  cbn [sequence] in H.
  apply bind_inv in H as [([] & s5 & H5 & H)|(sg & H5 & ->)].
  - exfalso. apply Hno.
    eapply advances_trans;
      [eapply advances_weaken; [| |exact A4]; [intros c [? _]|]; auto|].
    destruct (on_spotify_resume_continue _ _ _ _ _ _ H5) as [?|A5];
      [discriminate|].
    eapply advances_trans; [exact A5|exact (Hpost _ _ _ H)].
  - destruct (on_spotify_resume_continue _ _ _ _ _ _ H5) as [Hc|A5].
    2:{ exfalso. apply Hno.
        eapply advances_trans;
          [eapply advances_weaken; [| |exact A4]; [intros c [? _]|]; auto|].
        exact A5. }
    inversion Hc; subst sg. split; [reflexivity|].
    assert (advances UP true s s') as ((d' & E' & F') & _).
    { eapply advances_trans;
        [eapply advances_weaken; [| |exact A4]; [intros c [_ ?]|]; auto|].
      eapply (respects_upto f_spotify true); [cbn; lia| |exact H5].
      apply on_spotify_respects. }
    now rewrite <- (history_split _ _ _ _ E E').
Qed.

(** What an Added event does before the blocks of the binding: calls
    that belong to no option; then the blocks run, or nothing more
    happens. *)
Lemma on_added_split w pad ident s r s' :
  on_added w pad ident s = (r, s') ->
  exists d0,
    Forall no_field d0 /\
    (history s' = history s ++ d0 \/
     exists dir b s0,
       history s0 = history s ++ d0 /\
       dispatch w pad dir b s0 = (r, s')).
Proof.
  intros H.
  apply on_added_cases in H as [[A _]|(s1 & s3 & A1 & A3 & H)].
  { destruct A as ((d & E & F) & _). exists d. auto. }
  destruct A1 as ((d1 & E1 & F1) & _).
  destruct A3 as ((d3 & E3 & F3) & _). cbn in E3.
  assert (Forall no_field (d1 ++ [nfc_load_tags] ++ d3)) as F.
  { apply Forall_app. split; [exact F1|].
    apply Forall_app. split; [|exact F3].
    repeat constructor. }
  assert (history s3 = history s ++ d1 ++ [nfc_load_tags] ++ d3) as E
    by (rewrite E3, E1, <- !app_assoc; reflexivity).
  destruct (identifier (answer_tags w (history s1))) as [bs|].
  2:{ destruct H as [_ ->]. exists (d1 ++ [nfc_load_tags] ++ d3). auto. }
  destruct (bs !! ident) as [b|].
  - destruct H as [dir H]. exists (d1 ++ [nfc_load_tags] ++ d3).
    split; [exact F|]. right. eexists dir, b, _. split; [|exact H].
    exact E.
  - assert (advances no_field false s3 s') as ((d & Ed & Fd) & _)
      by (eapply (respects_on_base no_field false); [|exact H]; call_side).
    exists ((d1 ++ [nfc_load_tags] ++ d3) ++ d). split.
    + apply Forall_app. auto.
    + left. rewrite Ed, E, <- !app_assoc. reflexivity.
Qed.

(** C5 on the code: whenever the handling of an Added event comes to
    call [spotify.resume()], the resume case of the spotify block, the
    turn ends there with [continue]: no call of [disney], [netflix],
    [youtube], [airplay] or [xbox] is made, whatever the binding holds,
    so an option of the binding that stands after [spotify] does not
    fire. *)
Theorem spotify_resume_skips_later_fields (w : world) (pad : Z)
    (ident : string) (s : session) (r : result unit) (s' : session)
    (d : list call) :
  handle w "added" pad ident s = (r, s') ->
  history s' = history s ++ d ->
  Exists (fun c => is_resume c = true) d ->
  r = Stop Continue /\
  Forall (fun c => forall f, field_of c = Some f ->
                     (rank f <= rank f_spotify)%nat) d /\
  forall f, (rank f_spotify < rank f)%nat -> ~ Exists (fires f) d.
Proof.
  rewrite handle_added. intros H E X.
  assert (r = Stop Continue /\
          Forall (fun c => forall f, field_of c = Some f ->
                             (rank f <= rank f_spotify)%nat) d) as [Hr F].
  { apply on_added_split in H as (d0 & F0 & [E0|(dir & b & s0 & E0 & H)]).
    - exfalso. rewrite (history_split _ _ _ _ E E0) in F0.
      refine (no_resume_among d _ X).
      eapply Forall_impl; [exact F0|]. apply no_field_no_resume.
    - assert (exists d4, d = d0 ++ d4 /\ history s' = history s0 ++ d4)
        as (d4 & -> & E4).
      { pose proof (dispatch_respects _ _ _ _ _ _ _ H) as ((d4 & E4 & _) & _).
        exists d4. split; [|exact E4].
        rewrite E4, E0, <- app_assoc in E. now apply app_inv_head in E. }
      apply Exists_app in X as [X|X].
      { exfalso. refine (no_resume_among d0 _ X).
        eapply Forall_impl; [exact F0|]. apply no_field_no_resume. }
      destruct (dispatch_resume _ _ _ _ _ _ _ _ H E4 X) as [-> F4].
      split; [reflexivity|]. apply Forall_app. split; [|exact F4].
      eapply Forall_impl; [exact F0|]. intros c Hc f Hf.
      unfold no_field in Hc. congruence. }
  split; [exact Hr|]. split; [exact F|].
  intros f Hf Hx. apply Exists_exists in Hx as (c & Hin & Hc).
  rewrite Forall_forall in F. specialize (F c Hin f).
  destruct Hc as [Hc|[-> _]]; [|cbn in Hf; lia].
  apply action_field in Hc. specialize (F Hc). lia.
Qed.

Lemma omap_no_field (d : list call) :
  Forall no_field d -> omap field_of d = [].
Proof.
  induction 1 as [|c d Hc _ IH]; [reflexivity|].
  cbn. unfold no_field in Hc. now rewrite Hc, IH.
Qed.

(** C6, as the code has it: the calls of an Added event never go back in
    the order playlist, mp3, slack, command, spotify, disney, netflix,
    youtube, airplay, xbox. *)
Theorem added_fields_in_source_order (w : world) (pad : Z) (ident : string)
    (s : session) (r : result unit) (s' : session) :
  handle w "added" pad ident s = (r, s') ->
  exists d, history s' = history s ++ d /\
    ordered_by rank (omap field_of d) = true.
Proof.
  rewrite handle_added. intros H.
  apply on_added_cases in H as [[A _]|(s1 & s3 & A1 & A3 & H)].
  - destruct A as ((d & E & F) & _). exists d. split; [exact E|].
    now rewrite omap_no_field.
  - destruct A1 as ((d1 & E1 & F1) & _).
    destruct A3 as ((d3 & E3 & F3) & _). cbn in E3.
    assert (exists d4, history s' = history s3 ++ d4 /\
              ordered_by rank (omap field_of d4) = true) as (d4 & E4 & O4).
    { destruct (identifier (answer_tags w (history s1))) as [bs|].
      2:{ destruct H as [_ ->]. exists []. now rewrite app_nil_r. }
      destruct (bs !! ident) as [b|].
      - destruct H as [dir H]. apply dispatch_ordered in H. exact H.
      - assert (advances no_field false s3 s') as A
          by (eapply (respects_on_base no_field false); [|exact H]; call_side).
        destruct A as ((d & E & F) & _). exists d. split; [exact E|].
        now rewrite omap_no_field. }
    exists (d1 ++ [nfc_load_tags] ++ d3 ++ d4).
    rewrite E4, E3, E1, <- !app_assoc. split; [reflexivity|].
    rewrite !omap_app, (omap_no_field d1 F1), (omap_no_field d3 F3).
    exact O4.
Qed.

(** ** A removal while the player is known to play *)

Lemma on_removed_playing (w : world) (ident : string) (s : session) :
  current_tag s = Some ident ->
  mp3state s = Some "PLAYING"%string ->
  exists s',
    on_removed w ident s = (Done tt, s') /\
    mp3state s' = Some "PAUSED"%string /\
    exists d, history s' = history s ++ d /\ In player_pause d.
Proof.
  intros Hcur Hstate.
  unfold on_removed, pauseMp3, stop_lightshow, query, do_call, modify, get,
    mbind, M_bind, mret, M_ret.
  cbn. rewrite Hcur, tag_eqb_refl.
  destruct (lightshowThread s) as [t|]; cbn;
    rewrite bool_decide_eq_true_2 by exact Hstate; cbn;
    destruct (answer w _ spotify_activated); cbn;
    (eexists; split; [reflexivity|]); cbn; (split; [reflexivity|]);
    rewrite <- ?app_assoc; eexists; (split; [reflexivity|]); cbn; tauto.
Qed.

(** C10, as the code has it: on the resume path [playMp3] returns with
    [mp3state] still [PAUSED] although the player plays again.  A
    Removed event of the same tag that is handled next does not pause
    the player; once the monitor has taken the notification
    [PlayerState.PLAYING] of the player, a Removed event of the tag
    pauses it. *)
Theorem playMp3_resume_leaves_PAUSED (w : world) (filename dir : string)
    (s : session) (duration elapsed : float) :
  previous_tag s = current_tag s ->
  mp3state s = Some "PAUSED"%string ->
  mp3_duration s = Some duration ->
  mp3elapsed s = Some elapsed ->
  PrimFloat.leb 0.1%float (PrimFloat.sub duration elapsed) = true ->
  exists s',
    playMp3 w filename dir s = (Done tt, s') /\
    mp3state s' = Some "PAUSED"%string /\
    In player_play (drop (length (history s)) (history s')) /\
    (forall pad ident, current_tag s' = Some ident ->
       exists s'',
         handle w "removed" pad ident s' = (Done tt, s'') /\
         mp3state s'' = Some "PAUSED"%string /\
         ~ In player_pause (drop (length (history s')) (history s''))) /\
    (forall pad ident now, current_tag s' = Some ident ->
       exists s1 s'',
         step w (notified "PlayerState.PLAYING" now) s' = (Done tt, s1) /\
         mp3state s1 = Some "PLAYING"%string /\
         history s1 = history s' /\
         handle w "removed" pad ident s1 = (Done tt, s'') /\
         mp3state s'' = Some "PAUSED"%string /\
         In player_pause (drop (length (history s1)) (history s''))).
Proof.
  intros Hprev Hstate Hdur Hel Hrem.
  destruct (playMp3_resume_path w filename dir s duration elapsed
              Hprev Hstate Hdur Hel Hrem)
    as (s' & Hplay & Hh & Hst & _).
  exists s'. split; [exact Hplay|]. split; [exact Hst|]. split; [|split].
  - rewrite Hh, drop_app_length. right. left. reflexivity.
  - intros pad ident Hcur.
    destruct (on_removed_not_playing w ident s' Hcur) as (s'' & Hr & Hs & _ & Hh').
    { rewrite Hst. discriminate. }
    exists s''. split; [|split].
    + rewrite handle_removed. now rewrite (bind_done _ _ _ _ _ Hr).
    + now rewrite Hs.
    + rewrite Hh', drop_app_length. intros Hin.
      apply in_app_or in Hin as [Hin|Hin].
      { destruct (lightshowThread s'); cbn in Hin; intuition discriminate. }
      apply in_app_or in Hin as [Hin|Hin].
      { cbn in Hin. intuition discriminate. }
      destruct (answer w _ _); cbn in Hin; intuition discriminate.
  - intros pad ident now Hcur.
    set (s1 := set_mp3elapsed (Some now) (set_mp3state (Some "PLAYING"%string) s')).
    destruct (on_removed_playing w ident s1) as (s'' & Hr & Hs & d & Hd & Hin);
      [exact Hcur|reflexivity|].
    exists s1, s''. split; [reflexivity|]. split; [reflexivity|].
    split; [reflexivity|]. split; [|split].
    + rewrite handle_removed. now rewrite (bind_done _ _ _ _ _ Hr).
    + exact Hs.
    + now rewrite Hd, drop_app_length.
Qed.

(** ** Runs of concrete configurations *)



Lemma playMp3_resume_leaves_PAUSED_witness :
  exists s',
    playMp3 world_mp3 "x.mp3" "/music/" (snd (paused_at 42.5)) = (Done tt, s') /\
    mp3state s' = Some "PAUSED"%string /\
    In player_play (drop (length (history (snd (paused_at 42.5)))) (history s')) /\
    (forall pad ident, current_tag s' = Some ident ->
       exists s'',
         handle world_mp3 "removed" pad ident s' = (Done tt, s'') /\
         mp3state s'' = Some "PAUSED"%string /\
         ~ In player_pause (drop (length (history s')) (history s''))) /\
    (forall pad ident now, current_tag s' = Some ident ->
       exists s1 s'',
         step world_mp3 (notified "PlayerState.PLAYING" now) s' = (Done tt, s1) /\
         mp3state s1 = Some "PLAYING"%string /\
         history s1 = history s' /\
         handle world_mp3 "removed" pad ident s1 = (Done tt, s'') /\
         mp3state s'' = Some "PAUSED"%string /\
         In player_pause (drop (length (history s1)) (history s''))).
Proof.
  apply (playMp3_resume_leaves_PAUSED world_mp3 "x.mp3" "/music/"
           (snd (paused_at 42.5)) 180 42.5); reflexivity.
Defined.

(** C10 as worded fails: after the track was resumed, the monitor takes
    the notification of the player, and the removal of the tag that
    follows pauses the track. *)
Lemma resumed_track_paused_after_notification :
  let resumed :=
    startLego world_mp3 (Found quiet_device)
      [added_a1; notified "PlayerState.PLAYING" 42.5; removed_a1; added_a1] in
  let at_once :=
    startLego world_mp3 (Found quiet_device)
      [added_a1; notified "PlayerState.PLAYING" 42.5; removed_a1; added_a1;
       removed_a1] in
  let later :=
    startLego world_mp3 (Found quiet_device)
      [added_a1; notified "PlayerState.PLAYING" 42.5; removed_a1; added_a1;
       notified "PlayerState.PLAYING" 43.5; removed_a1] in
  fst resumed = Done tt /\
  mp3state (snd resumed) = Some "PAUSED"%string /\
  length (history (snd resumed)) = 18%nat /\
  calls_from 12 resumed =
    [pad_colour 2 BLUE; nfc_load_tags; thread_stop 0; spotify_pause;
     player_play; thread_start 1 137.5] /\
  calls_from 18 at_once = [thread_stop 1; ask spotify_activated false] /\
  fst later = Done tt /\
  calls_from 18 later =
    [thread_stop 1; player_pause; ask spotify_activated false] /\
  mp3state (snd later) = Some "PAUSED"%string.
Proof. vm_compute. repeat split; reflexivity. Qed.

Lemma added_fires_present_fields_witness :
  exists d,
    history (snd (handle (world_of mp3_and_xbox false) "added" 2 "a1b2c3d4"
                    (started (world_of mp3_and_xbox false))))
    = history (started (world_of mp3_and_xbox false)) ++ d /\
    forall f, is_Some (mp3_and_xbox !! key_of f) -> Exists (fires f) d.
Proof.
  apply (added_fires_present_fields (world_of mp3_and_xbox false) 2 "a1b2c3d4"
           (started (world_of mp3_and_xbox false))
           (snd (handle (world_of mp3_and_xbox false) "added" 2 "a1b2c3d4"
                   (started (world_of mp3_and_xbox false))))
           {[ "a1b2c3d4"%string := mp3_and_xbox ]} mp3_and_xbox);
    vm_compute; reflexivity.
Defined.

(** Two runs with [spotify]: the service is not activated and
    nothing is played; the service is activated, the tag is the first
    one, and the turn ends at [continue] before the [xbox] option is
    looked at. *)
Lemma added_skips_fields :
  let off := startLego (world_of spotify_only false) (Found quiet_device) [added_a1] in
  let on := startLego (world_of spotify_and_xbox true) (Found quiet_device) [added_a1] in
  (fst off = Done tt /\
   is_Some (spotify_only !! key_of f_spotify) /\
   calls_from 2 off =
     [pad_colour 2 BLUE; nfc_load_tags; ask spotify_activated false;
      ask spotify_activated false] /\
   omap action_of (calls_from 2 off) = []) /\
  (fst on = Done tt /\
   is_Some (spotify_and_xbox !! key_of f_xbox) /\
   fst (handle (world_of spotify_and_xbox true) "added" 2 "a1b2c3d4"
          (started (world_of spotify_and_xbox true))) = Stop Continue /\
   calls_from 2 on =
     [pad_colour 2 BLUE; nfc_load_tags; ask spotify_activated true;
      ask_num spotify_resume 60000; thread_start 0 60] /\
   omap action_of (calls_from 2 on) = [f_spotify]).
Proof.
  cbv zeta. repeat split; try (vm_compute; reflexivity);
    eexists; vm_compute; reflexivity.
Qed.

(** A first tag with [spotify] and [xbox], the service activated. *)
Lemma spotify_resume_skips_later_fields_witness :
  let w := world_of spotify_and_xbox true in
  let run := handle w "added" 2 "a1b2c3d4" (started w) in
  is_Some (spotify_and_xbox !! key_of f_xbox) /\
  fst run = Stop Continue /\
  ~ Exists (fires f_xbox) (drop (length (history (started w))) (history (snd run))).
Proof.
  cbv zeta.
  split; [eexists; vm_compute; reflexivity|].
  destruct (spotify_resume_skips_later_fields
              (world_of spotify_and_xbox true) 2 "a1b2c3d4"
              (started (world_of spotify_and_xbox true))
              (fst (handle (world_of spotify_and_xbox true) "added" 2
                      "a1b2c3d4" (started (world_of spotify_and_xbox true))))
              (snd (handle (world_of spotify_and_xbox true) "added" 2
                      "a1b2c3d4" (started (world_of spotify_and_xbox true))))
              (drop (length (history (started (world_of spotify_and_xbox true))))
                 (history
                    (snd (handle (world_of spotify_and_xbox true) "added" 2
                            "a1b2c3d4"
                            (started (world_of spotify_and_xbox true)))))))
    as (Hr & _ & Hx).
  - apply surjective_pairing.
  - vm_compute. reflexivity.
  - vm_compute. apply Exists_cons. right. apply Exists_cons. right.
    apply Exists_cons. right. apply Exists_cons. left. reflexivity.
  - split; [exact Hr|]. apply Hx. cbn. lia.
Defined.

Lemma added_fields_in_source_order_witness :
  exists d,
    history (snd (handle (world_of mp3_and_playlist false) "added" 2 "a1b2c3d4"
                    (started (world_of mp3_and_playlist false))))
    = history (started (world_of mp3_and_playlist false)) ++ d /\
    ordered_by rank (omap field_of d) = true.
Proof.
  apply (added_fields_in_source_order (world_of mp3_and_playlist false) 2
           "a1b2c3d4" (started (world_of mp3_and_playlist false))
           (fst (handle (world_of mp3_and_playlist false) "added" 2 "a1b2c3d4"
                   (started (world_of mp3_and_playlist false))))).
  vm_compute; reflexivity.
Defined.

(** C6 as worded fails: with both options the playlist is acted upon
    before the mp3. *)
Lemma added_playlist_before_mp3 :
  let run :=
    startLego (world_of mp3_and_playlist false) (Found quiet_device) [added_a1] in
  fst run = Done tt /\
  omap field_of (calls_from 2 run) = [f_playlist; f_playlist; f_mp3; f_mp3] /\
  omap action_of (calls_from 2 run) = [f_playlist; f_mp3] /\
  ordered_by worded_rank (omap field_of (calls_from 2 run)) = false /\
  ordered_by rank (omap field_of (calls_from 2 run)) = true.
Proof. vm_compute. repeat split; reflexivity. Qed.

Lemma added_unknown_tag_witness :
  let s := snd (startLego world_mp3 (Found quiet_device) [added_a1]) in
  exists s',
    handle world_mp3 "added" 1 "ffff" s = (Done tt, s') /\
    current_tag s' = current_tag s /\
    previous_tag s' = previous_tag s /\
    mp3state s' = mp3state s /\
    history s' =
      history s
        ++ (if switch_lights s then [pad_colour 1 BLUE] else [])
        ++ [nfc_load_tags]
        ++ (match lightshowThread s with
            | Some t => [thread_stop t]
            | None => []
            end)
        ++ [pad_colour 1 RED].
Proof.
  cbv zeta.
  apply (added_unknown_tag world_mp3 quiet_device 1 "ffff"
           (snd (startLego world_mp3 (Found quiet_device) [added_a1]))
           {[ "a1b2c3d4"%string := mp3_only ]}); vm_compute; reflexivity.
Defined.

(** C7 as worded fails: for an unknown tag the pad is painted blue
    before it is painted red, and the running lightshow is cancelled and
    joined. *)
Lemma added_unknown_tag_stops_lightshow :
  let before := startLego world_mp3 (Found quiet_device) [added_a1] in
  let after := startLego world_mp3 (Found quiet_device) [added_a1; added_unknown] in
  fst after = Done tt /\
  length (history (snd before)) = 9%nat /\
  unjoined [] (history (snd before)) = [0%nat] /\
  calls_from 9 after =
    [pad_colour 1 BLUE; nfc_load_tags; thread_stop 0; pad_colour 1 RED] /\
  calls_from 9 after <> [pad_colour 1 RED] /\
  unjoined [] (history (snd after)) = [] /\
  current_tag (snd after) = current_tag (snd before) /\
  previous_tag (snd after) = previous_tag (snd before).
Proof.
  cbv zeta.
  split; [vm_compute; reflexivity|].
  split; [vm_compute; reflexivity|].
  split; [vm_compute; reflexivity|].
  split; [vm_compute; reflexivity|].
  split.
  { intros H. apply (f_equal length) in H. vm_compute in H. discriminate H. }
  split; [vm_compute; reflexivity|].
  split; vm_compute; reflexivity.
Qed.

(** C9 on the code: a tag bound to a playlist and an mp3 starts two
    lightshow threads in one turn with no cancel and join between them;
    the removal of the tag joins the second only. *)
Theorem two_lightshows_from_one_tag :
  let run :=
    startLego (world_of mp3_and_playlist false) (Found quiet_device) [added_a1] in
  let later :=
    startLego (world_of mp3_and_playlist false) (Found quiet_device)
      [added_a1; removed_a1] in
  fst run = Done tt /\
  calls_from 2 run =
    [pad_colour 2 BLUE; nfc_load_tags; spotify_pause;
     glob_glob "/music//pl/*.mp3" ["/music/pl/a.mp3"; "/music/pl/b.mp3"];
     player_playlist ["/music/pl/a.mp3"; "/music/pl/b.mp3"];
     ask_num (MP3_info_length "/music/pl/a.mp3") 180;
     ask_num (MP3_info_length "/music/pl/b.mp3") 180;
     thread_start 0 360; spotify_pause; player_open "/music/x.mp3";
     player_play; ask_num (MP3_info_length "/music/x.mp3") 180;
     thread_start 1 180] /\
  unjoined [] (history (snd run)) = [0%nat; 1%nat] /\
  fst later = Done tt /\
  calls_from 15 later = [thread_stop 1; player_pause; ask spotify_activated false] /\
  unjoined [] (history (snd later)) = [0%nat].
Proof. vm_compute. repeat split; reflexivity. Qed.

End SessionFacts.

(** * More facts about the driver *)

Module DriverFacts.
Import Portal Session Scenario Wire Lightshow.

(** ** The layout of the frames *)

Lemma forallb_zeros (n : nat) : forallb (Z.eqb 0) (repeat 0 n) = true.
Proof. induction n as [|n IH]; simpl; auto. Qed.

(** A command that states its own payload length is framed well. *)
Lemma well_formed_build_message (payload : list Z) :
  Forall byte payload -> (length payload <= 28)%nat ->
  well_formed (build_message (0x55 :: Z.of_nat (length payload) :: payload))
  = true.
Proof.
  intros Hall Hlen.
  set (cmd := 0x55 :: Z.of_nat (length payload) :: payload).
  assert (Forall byte cmd) as Hcmd.
  { subst cmd. repeat apply Forall_cons_2; auto; unfold byte; lia. }
  assert (length cmd = S (S (length payload))) as Hl by reflexivity.
  rewrite (PortalFacts.build_message_closed cmd Hcmd).
  set (chk := total cmd mod 256).
  set (zeros := repeat 0 (Nat.min 32 (31 - length cmd))).
  assert (length zeros = (29 - length payload)%nat) as Hz.
  { subst zeros. rewrite repeat_length, Hl. lia. }
  unfold well_formed.
  assert (cmd ++ [chk] ++ zeros
          = 0x55 :: Z.of_nat (length payload) :: (payload ++ [chk] ++ zeros))
    as E by reflexivity.
  rewrite E at 1. rewrite Nat2Z.id. cbv zeta.
  replace (length payload + 2)%nat with (length cmd) by lia.
  replace (length payload + 3)%nat with (length (cmd ++ [chk])).
  2:{ rewrite length_app, Hl. simpl. lia. }
  change (cmd ++ [chk] ++ zeros) with (cmd ++ chk :: zeros).
  rewrite nth_middle, take_app_length.
  replace (cmd ++ chk :: zeros) with ((cmd ++ [chk]) ++ zeros)
    by now rewrite <- app_assoc.
  rewrite drop_app_length.
  rewrite !length_app, Hz, Hl. cbn [length].
  rewrite Z.eqb_refl. subst chk. rewrite Z.eqb_refl.
  subst zeros. rewrite forallb_zeros.
  rewrite !andb_true_r.
  apply andb_true_intro. split; [apply Nat.eqb_eq|apply Nat.leb_le]; lia.
Qed.

(** X1: The three pad commands on a device that is there: one write each,
    of a frame that is 0x55, the payload length 6, 8 or 9, the payload,
    the checksum and zeros; the helper returns normally whatever the
    device answers to the write. *)
Theorem pad_command_frames (self : Dimensions) (d : usb_device)
    (pad pulse_time pulse_count on_length off_length r g b : Z) :
  dev self = Some d ->
  Forall byte [pad; pulse_time; pulse_count; on_length; off_length; r; g; b] ->
  (exists frame,
     Portal.switch_pad self pad [r; g; b] = ([Write 1 frame], Returned tt) /\
     take 5 frame = [0x55; 0x06; 0xc0; 0x02; pad] /\
     well_formed frame = true) /\
  (exists frame,
     fade_pad self pad pulse_time pulse_count [r; g; b]
     = ([Write 1 frame], Returned tt) /\
     take 5 frame = [0x55; 0x08; 0xc2; 0x0f; pad] /\
     well_formed frame = true) /\
  (exists frame,
     flash_pad self pad on_length off_length pulse_count [r; g; b]
     = ([Write 1 frame], Returned tt) /\
     take 5 frame = [0x55; 0x09; 0xc3; 0x03; pad] /\
     well_formed frame = true).
Proof.
  intros Hdev Hall.
  repeat match type of Hall with
         | Forall _ (_ :: _) => apply Forall_cons in Hall as [? Hall]
         end.
  split; [|split].
  - exists (build_message [0x55; 0x06; 0xc0; 0x02; pad; r; g; b]).
    split; [|split].
    + unfold Portal.switch_pad, with_colour. cbn [colour_at nth_error].
      unfold send_command. rewrite Hdev. now destruct (write d 1 _).
    + reflexivity.
    + apply (well_formed_build_message [0xc0; 0x02; pad; r; g; b]).
      * repeat apply Forall_cons_2; auto; unfold byte; lia.
      * simpl. lia.
  - exists (build_message
              [0x55; 0x08; 0xc2; 0x0f; pad; pulse_time; pulse_count; r; g; b]).
    split; [|split].
    + unfold fade_pad, with_colour. cbn [colour_at nth_error].
      unfold send_command. rewrite Hdev. now destruct (write d 1 _).
    + reflexivity.
    + apply (well_formed_build_message
               [0xc2; 0x0f; pad; pulse_time; pulse_count; r; g; b]).
      * repeat apply Forall_cons_2; auto; unfold byte; lia.
      * simpl. lia.
  - exists (build_message
              [0x55; 0x09; 0xc3; 0x03; pad; on_length; off_length;
               pulse_count; r; g; b]).
    split; [|split].
    + unfold flash_pad, with_colour. cbn [colour_at nth_error].
      unfold send_command. rewrite Hdev. now destruct (write d 1 _).
    + reflexivity.
    + apply (well_formed_build_message
               [0xc3; 0x03; pad; on_length; off_length; pulse_count; r; g; b]).
      * repeat apply Forall_cons_2; auto; unfold byte; lia.
      * simpl. lia.
Qed.

Lemma pad_command_frames_witness :
  (exists frame,
     Portal.switch_pad {| dev := Some quiet_device |} 1 [255; 0; 0]
     = ([Write 1 frame], Returned tt) /\
     take 5 frame = [0x55; 0x06; 0xc0; 0x02; 1] /\
     well_formed frame = true) /\
  (exists frame,
     fade_pad {| dev := Some quiet_device |} 1 10 2 [255; 0; 0]
     = ([Write 1 frame], Returned tt) /\
     take 5 frame = [0x55; 0x08; 0xc2; 0x0f; 1] /\
     well_formed frame = true) /\
  (exists frame,
     flash_pad {| dev := Some quiet_device |} 1 10 10 2 [255; 0; 0]
     = ([Write 1 frame], Returned tt) /\
     take 5 frame = [0x55; 0x09; 0xc3; 0x03; 1] /\
     well_formed frame = true).
Proof.
  apply (pad_command_frames {| dev := Some quiet_device |} quiet_device
           1 10 2 10 10 255 0 0).
  - reflexivity.
  - repeat constructor; unfold byte; lia.
Defined.

(** X2: A colour with fewer than three entries raises [IndexError] while
    the command is put together, before anything is written and also on
    a driver without a device; entries after the third are not read. *)
Theorem pad_command_colour_bounds (self : Dimensions)
    (pad pulse_time pulse_count on_length off_length : Z) (colour : list Z) :
  ((length colour < 3)%nat ->
     Portal.switch_pad self pad colour = ([], Raised IndexError) /\
     fade_pad self pad pulse_time pulse_count colour
     = ([], Raised IndexError) /\
     flash_pad self pad on_length off_length pulse_count colour
     = ([], Raised IndexError)) /\
  (forall r g b more, colour = r :: g :: b :: more ->
     Portal.switch_pad self pad colour = Portal.switch_pad self pad [r; g; b] /\
     fade_pad self pad pulse_time pulse_count colour
     = fade_pad self pad pulse_time pulse_count [r; g; b] /\
     flash_pad self pad on_length off_length pulse_count colour
     = flash_pad self pad on_length off_length pulse_count [r; g; b]).
Proof.
  split.
  - intros Hlen.
    destruct colour as [|r [|g [|b more]]]; simpl in Hlen; try lia;
      repeat split; reflexivity.
  - intros r g b more ->. repeat split; reflexivity.
Qed.

(** ** Start-up *)

Lemma configure_device (u : usb_backend) (d d' : usb_device) cs :
  configure u d = (cs, inl d') ->
  d' = d /\ set_configuration u = StepOk /\ claim_interface u 0 = StepOk /\
  write d 1 activation = WriteOk /\
  cs = [dev_set_configuration; usb_util_claim_interface 0;
        dev_write 1 activation].
Proof.
  unfold configure.
  destruct (set_configuration u); try discriminate.
  destruct (claim_interface u 0); try discriminate.
  destruct (write d 1 activation); try discriminate.
  intros H. inversion H; subst. auto.
Qed.

(** X3: [Dimensions()] has a device exactly when the portal was found and
    none of the calls of [init_usb] raised [USBError]: the kernel-driver
    probe may be unsupported, a driver that is active must be detached,
    the configuration is set, the interface is claimed and the
    activation frame is written.  That frame is then the last call made,
    and it obeys the framing of [send_command]. *)
Theorem Dimensions_init_device (u : usb_backend) (cs : list init_call)
    (self : Dimensions) :
  Dimensions_init u = (cs, inl self) ->
  (is_Some (dev self) <->
   exists d,
     core_find u = Found d /\
     is_kernel_driver_active u 0 <> DriverUSBError /\
     (is_kernel_driver_active u 0 = DriverActive true ->
      detach_kernel_driver u 0 <> StepUSBError) /\
     set_configuration u = StepOk /\ claim_interface u 0 = StepOk /\
     write d 1 activation = WriteOk) /\
  (is_Some (dev self) ->
   exists before, cs = before ++ [dev_write 1 activation]) /\
  build_message (take 17 activation) = activation /\
  well_formed activation = true.
Proof.
  intros H. split; [|split; [|split; reflexivity]].
  - unfold Dimensions_init in H.
    destruct (init_usb u) as [cs0 [d0|e]] eqn:E.
    + inversion H; subst; clear H. cbn [dev].
      split; [intros _|eauto].
      unfold init_usb in E.
      destruct (core_find u) as [d| |] eqn:Hf; try discriminate.
      exists d. split; [reflexivity|].
      destruct (is_kernel_driver_active u 0) as [[|]| |] eqn:Hk;
        try discriminate.
      * destruct (detach_kernel_driver u 0) eqn:Hd; try discriminate;
          cbv zeta in E;
          destruct (configure u d) as [c1 [d1|e1]] eqn:Hc;
          cbn [fst snd] in E; try discriminate;
          apply configure_device in Hc as (_ & ? & ? & ? & _);
          repeat split; auto; discriminate.
      * cbv zeta in E.
        destruct (configure u d) as [c1 [d1|e1]] eqn:Hc;
          cbn [fst snd] in E; try discriminate.
        apply configure_device in Hc as (_ & ? & ? & ? & _).
        repeat split; auto; discriminate.
      * cbv zeta in E.
        destruct (configure u d) as [c1 [d1|e1]] eqn:Hc;
          cbn [fst snd] in E; try discriminate.
        apply configure_device in Hc as (_ & ? & ? & ? & _).
        repeat split; auto; discriminate.
    + assert (dev self = None) as ->
        by (destruct e; inversion H; reflexivity).
      split; [intros [? ?]; discriminate|].
      intros (d & Hf & Hk & Hd & Hs & Hc & Hw). exfalso.
      unfold init_usb in E. rewrite Hf in E. cbv zeta in E.
      assert (configure u d
              = ([dev_set_configuration; usb_util_claim_interface 0;
                  dev_write 1 activation], inl d)) as Hcfg.
      { unfold configure. now rewrite Hs, Hc, Hw. }
      rewrite Hcfg in E. cbn [fst snd] in E.
      destruct (is_kernel_driver_active u 0) as [[|]| |]; try discriminate.
      * specialize (Hd eq_refl).
        destruct (detach_kernel_driver u 0); try discriminate.
        now apply Hd.
      * now apply Hk.
  - intros [d0 Hd0]. unfold Dimensions_init in H.
    destruct (init_usb u) as [cs0 [d1|e]] eqn:E.
    2:{ destruct e; inversion H; subst; discriminate. }
    inversion H; subst; clear H.
    unfold init_usb in E.
    destruct (core_find u) as [d| |]; try discriminate.
    cbv zeta in E.
    destruct (configure u d) as [c1 [d2|e1]] eqn:Hc.
    2:{ cbn [fst snd] in E.
        destruct (is_kernel_driver_active u 0) as [[|]| |];
          try discriminate;
          try (destruct (detach_kernel_driver u 0)); discriminate. }
    apply configure_device in Hc as (_ & _ & _ & _ & ->).
    cbn [fst snd] in E.
    destruct (is_kernel_driver_active u 0) as [[|]| |]; try discriminate;
      try (destruct (detach_kernel_driver u 0); try discriminate);
      inversion E; subst;
      match goal with
      | |- exists before, ?l = _ => exists (removelast l); reflexivity
      end.
Qed.

(** A portal that is found on a backend without kernel drivers. *)
Lemma Dimensions_init_device_witness :
  let u := {| core_find := Found quiet_device;
              is_kernel_driver_active := fun _ => DriverNotImplementedError;
              detach_kernel_driver := fun _ => StepNotImplementedError;
              set_configuration := StepOk;
              claim_interface := fun _ => StepOk |} in
  is_Some (dev {| dev := Some quiet_device |}) /\
  exists before,
    fst (Dimensions_init u) = before ++ [dev_write 1 activation].
Proof.
  cbv zeta.
  pose proof (Dimensions_init_device
    {| core_find := Found quiet_device;
       is_kernel_driver_active := fun _ => DriverNotImplementedError;
       detach_kernel_driver := fun _ => StepNotImplementedError;
       set_configuration := StepOk;
       claim_interface := fun _ => StepOk |}
    _ {| dev := Some quiet_device |} eq_refl) as (_ & H & _).
  split; [now eexists|]. apply H. now eexists.
Defined.

(** ** Which packets are events *)

Lemma is_byte_byte (b : Z) : is_byte b = true -> byte b.
Proof.
  unfold is_byte, byte. intros H. apply andb_prop in H as [H1 H2].
  apply Z.leb_le in H1. apply Z.ltb_lt in H2. lia.
Qed.

(** X4: [update_nfc] answers an event exactly when the device is there and
    hands over a packet that starts with 0x56, has at least the six
    bytes up to the removal flag, and holds bytes where the identifier
    is read; everything else (no device, a timeout, a USB error, an
    empty packet, another first byte, a packet cut short) gives
    [None]. *)
Theorem update_nfc_event_iff (self : Dimensions) :
  is_Some (update_nfc self) <->
  exists d packet,
    dev self = Some d /\ read d 0x81 32 100 = ReadData packet /\
    nth_error packet 0 = Some 0x56 /\ (6 <= length packet)%nat /\
    Forall byte (slice 6 13 packet).
Proof.
  unfold update_nfc. split.
  - intros [tag H].
    destruct (dev self) as [d|]; [|discriminate].
    destruct (read d 129 32 100) as [packet| | |] eqn:Hr; try discriminate.
    exists d, packet. split; [reflexivity|]. split; [exact Hr|].
    unfold decode_packet in H.
    destruct packet as [|first rest] eqn:Hp; [discriminate|].
    rewrite <- Hp in *.
    destruct (first =? 86) eqn:Hfirst; [|discriminate].
    apply Z.eqb_eq in Hfirst.
    destruct (nth_error packet 2) as [pad_num|]; [|discriminate].
    destruct (forallb is_byte (slice 6 13 packet)) eqn:Hb; [|discriminate].
    destruct (nth_error packet 5) as [flag|] eqn:H5; [|discriminate].
    split; [subst packet first; reflexivity|]. split.
    + assert (nth_error packet 5 <> None) as Hn by congruence.
      apply nth_error_Some in Hn. lia.
    + apply Forall_forall. intros x Hx. apply is_byte_byte.
      rewrite forallb_forall in Hb. apply Hb. now apply list_elem_of_In.
  - intros (d & packet & -> & -> & H0 & Hlen & Hb).
    unfold decode_packet.
    destruct packet as [|first rest] eqn:Hp; [discriminate|].
    rewrite <- Hp in *.
    assert (first = 86) as -> by (subst packet; now inversion H0).
    rewrite Z.eqb_refl.
    rewrite (nth_error_nth' packet 0) by lia.
    rewrite PortalFacts.forallb_is_byte by exact Hb.
    rewrite (nth_error_nth' packet 0) by lia.
    destruct (negb _); eauto.
Qed.

(** ** The lightshow thread *)

Lemma py_index_drawn (c : Z) :
  0 <= c <= Z.of_nat (length COLOURS) - 1 ->
  exists col r g b, py_index COLOURS c = Some col /\ col = [r; g; b] /\
    In col COLOURS /\ Forall byte col.
Proof.
  intros H. cbn in H.
  assert (c = 0 \/ c = 1 \/ c = 2 \/ c = 3 \/ c = 4 \/ c = 5 \/ c = 6 \/ c = 7)
    as Hc by lia.
  unfold py_index.
  repeat (destruct Hc as [->|Hc]; [
    cbn; do 4 eexists; split; [reflexivity|]; split; [reflexivity|];
    split; [cbn; tauto|repeat constructor; unfold byte; lia] |]).
  subst c.
  cbn; do 4 eexists; split; [reflexivity|]; split; [reflexivity|];
    split; [cbn; tauto|repeat constructor; unfold byte; lia].
Qed.

Lemma lightshow_loop_writes (self : Dimensions) (d : usb_device)
    (duration t : float) (ticks : list tick) :
  dev self = Some d -> Forall drawn ticks ->
  exists cs p,
    lightshow_loop self duration t ticks = (cs, Returned p) /\
    Forall show_write cs.
Proof.
  intros Hdev. induction 1 as [|k rest [Hp Hc] _ IH]; cbn [lightshow_loop].
  - exists [], Running. split; [reflexivity|constructor].
  - destruct (do_run k && _); [|exists [], Finished; split; [reflexivity|constructor]].
    destruct (py_index_drawn _ Hc) as (col & r & g & b & -> & -> & Hin & _).
    assert (Portal.switch_pad self (pad k) [r; g; b]
            = ([Write 1 (build_message [0x55; 0x06; 0xc0; 0x02; pad k; r; g; b])],
               Returned tt)) as ->.
    { unfold Portal.switch_pad, with_colour. cbn [colour_at nth_error].
      unfold send_command. rewrite Hdev. now destruct (write d 1 _). }
    destruct IH as (cs & p & -> & Hcs). cbn [fst snd map].
    eexists _, p. split; [reflexivity|].
    cbn [app]. apply Forall_cons_2.
    + left. exists (pad k), [r; g; b]. auto.
    + apply Forall_cons_2; [right; eauto|exact Hcs].
Qed.

(** X5: On a device that is there, with the numbers that [random.randint]
    can give, [randomLightshow] never raises; every call of its loop is
    a pause or a write that paints one of the pads 0 to 2 in a colour of
    the palette; and when the thread comes to its end, through the clock
    or through [do_run], its last call switches pad 0 off. *)
Theorem randomLightshow_writes (self : Dimensions) (d : usb_device)
    (duration t : float) (ticks : list tick) :
  dev self = Some d -> Forall drawn ticks ->
  exists shown,
    Forall show_write shown /\
    (randomLightshow self duration t ticks = (shown, Returned Running) \/
     randomLightshow self duration t ticks
     = (shown ++ [light_write
                    (Write 1 (build_message [0x55; 0x06; 0xc0; 0x02; 0; 0; 0; 0]))],
        Returned Finished)).
Proof.
  intros Hdev Hall.
  destruct (lightshow_loop_writes self d duration t ticks Hdev Hall)
    as (cs & p & E & Hcs).
  exists cs. split; [exact Hcs|].
  unfold randomLightshow. rewrite E. destruct p; [right|left; reflexivity].
  unfold Portal.switch_pad, with_colour, OFF. cbn [colour_at nth_error].
  unfold send_command. rewrite Hdev. now destruct (write d 1 _).
Qed.

(** A show of two turns that the clock ends. *)
Lemma randomLightshow_writes_witness :
  exists shown,
    Forall show_write shown /\
    (randomLightshow {| dev := Some quiet_device |} 1 0
       [ {| do_run := true; perf_counter := 0.2; pad := 1; colour := 3;
            pause := 0.3 |};
         {| do_run := true; perf_counter := 1.5; pad := 2; colour := 0;
            pause := 0.1 |} ]%float
     = (shown, Returned Running) \/
     randomLightshow {| dev := Some quiet_device |} 1 0
       [ {| do_run := true; perf_counter := 0.2; pad := 1; colour := 3;
            pause := 0.3 |};
         {| do_run := true; perf_counter := 1.5; pad := 2; colour := 0;
            pause := 0.1 |} ]%float
     = (shown ++ [light_write
                    (Write 1 (build_message [0x55; 0x06; 0xc0; 0x02; 0; 0; 0; 0]))],
        Returned Finished)).
Proof.
  apply (randomLightshow_writes {| dev := Some quiet_device |} quiet_device).
  - reflexivity.
  - repeat constructor; cbn; lia.
Defined.

End DriverFacts.

(** * More facts about the loop *)

Module LoopFacts.
Import Portal Session Scenario Notions SessionFacts.

(** ** From the text of [update_nfc] back to its parts *)

Lemma split_on_no_colon (s : string) :
  no_colon s = true -> split_on ":" s = [s].
Proof.
  induction s as [|c rest IH]; cbn [no_colon split_on]; [reflexivity|].
  intros H. apply andb_prop in H as [Hc Hrest].
  apply negb_true_iff in Hc. rewrite Hc, IH by exact Hrest. reflexivity.
Qed.

Lemma split_on_colon (a rest : string) :
  no_colon a = true ->
  split_on ":" (a +:+ ":" +:+ rest) = a :: split_on ":" rest.
Proof.
  induction a as [|c a IH]; cbn [no_colon]; intros H.
  - reflexivity.
  - apply andb_prop in H as [Hc Ha]. apply negb_true_iff in Hc.
    change (String c a +:+ ":" +:+ rest) with (String c (a +:+ ":" +:+ rest)).
    cbn [split_on]. rewrite Hc, IH by exact Ha. reflexivity.
Qed.

Lemma no_colon_hex_digit (n : Z) : Ascii.eqb (hex_digit n) ":" = false.
Proof.
  destruct n as [|p|p]; [reflexivity| |reflexivity].
  do 5 (destruct p as [p|p|]; try reflexivity).
Qed.

Lemma no_colon_hexlify (bs : list Z) : no_colon (hexlify bs) = true.
Proof.
  induction bs as [|b bs IH]; cbn [hexlify no_colon]; [reflexivity|].
  now rewrite !no_colon_hex_digit, IH.
Qed.

Lemma no_colon_replace_from (old s : string) : forall k,
  no_colon s = true -> no_colon (replace_from old "" k s) = true.
Proof.
  induction s as [|c rest IH]; intros k; cbn [replace_from no_colon];
    [reflexivity|].
  intros H. apply andb_prop in H as [Hc Hrest].
  destruct k as [|k]; [|now apply IH].
  destruct (String.prefix old (String c rest)).
  - cbn [String.app]. now apply IH.
  - cbn [no_colon]. rewrite Hc. now apply IH.
Qed.

Lemma pad_texts : forallb pad_text_ok (seqZ 0 256) = true.
Proof. vm_compute. reflexivity. Qed.

Lemma pad_text (n : Z) :
  byte n -> py_int (pretty n) = Some n /\ no_colon (pretty n) = true.
Proof.
  intros Hn. pose proof pad_texts as H. rewrite forallb_forall in H.
  specialize (H n). unfold pad_text_ok in H.
  destruct (py_int (pretty n)) as [m|].
  - assert ((m =? n) && no_colon (pretty n) = true) as Hm.
    { apply H. apply list_elem_of_In, elem_of_seqZ. unfold byte in Hn. lia. }
    apply andb_prop in Hm as [Hm Hc]. apply Z.eqb_eq in Hm. now subst.
  - assert (false = true); [|discriminate].
    apply H. apply list_elem_of_In, elem_of_seqZ. unfold byte in Hn. lia.
Qed.

(** What [startLego] makes of the text of an event: the three parts
    that [update_nfc] put into it. *)
Lemma parse_response (status : string) (pad_num : Z) (ident : string) s :
  no_colon status = true -> byte pad_num -> no_colon ident = true ->
  parse_tag (response_of status pad_num ident) s
  = (Done (status, pad_num, ident), s).
Proof.
  intros Hs Hp Hi. destruct (pad_text pad_num Hp) as [Hint Hc].
  unfold parse_tag, response_of.
  rewrite split_on_colon by exact Hs.
  rewrite split_on_colon by exact Hc.
  rewrite split_on_no_colon by exact Hi.
  cbn [nth_error]. now rewrite Hint.
Qed.

(** X6: The text that [update_nfc] answers for a tag frame is taken apart by
    the loop into the status, the pad and the identifier that the driver
    read from the frame: the split at the colons and [int] never fail on
    an event of the driver. *)
Theorem update_nfc_tag_parses (self : Dimensions) (d : usb_device)
    (packet : list Z) :
  dev self = Some d ->
  read d 0x81 32 100 = ReadData packet ->
  length packet = 32%nat ->
  Forall byte packet ->
  nth 0 packet 0 = 0x56 ->
  exists tag,
    update_nfc self = Some tag /\
    truthy tag = true /\
    forall s,
      parse_tag tag s
      = (Done (if nth 5 packet 0 =? 0 then "added"%string else "removed"%string,
               nth 2 packet 0,
               replace "000000" "" (hexlify (slice 6 13 packet))), s).
Proof.
  intros Hdev Hread Hlen Hall Hfirst.
  exists (response_of
            (if nth 5 packet 0 =? 0 then "added"%string else "removed"%string)
            (nth 2 packet 0)
            (replace "000000" "" (hexlify (slice 6 13 packet)))).
  split; [|split].
  - unfold update_nfc. rewrite Hdev, Hread. unfold decode_packet.
    destruct packet as [|first rest] eqn:Hp; [discriminate|].
    rewrite <- Hp in *.
    assert (first = 0x56) as -> by (subst packet; exact Hfirst).
    rewrite Z.eqb_refl.
    rewrite (nth_error_nth' packet 0) by lia.
    rewrite PortalFacts.forallb_is_byte.
    2:{ unfold slice. apply Forall_take, Forall_drop, Hall. }
    rewrite (nth_error_nth' packet 0) by lia.
    now destruct (nth 5 packet 0 =? 0).
  - now destruct (nth 5 packet 0 =? 0).
  - intros s. apply parse_response.
    + now destruct (nth 5 packet 0 =? 0).
    + rewrite Forall_forall in Hall. apply Hall.
      apply list_elem_of_In, nth_In. lia.
    + apply no_colon_replace_from, no_colon_hexlify.
Qed.

(** The frame of a tag put on pad 2. *)
Lemma update_nfc_tag_parses_witness :
  exists tag,
    update_nfc
      {| dev := Some (device_sending
                        (frame_of 2 0 [0; 0; 0; 0xa1; 0xb2; 0xc3; 0xd4])) |}
    = Some tag /\
    truthy tag = true /\
    forall s,
      parse_tag tag s
      = (Done ("added"%string, 2, "a1b2c3d4"%string), s).
Proof.
  apply (update_nfc_tag_parses
     {| dev := Some (device_sending
                       (frame_of 2 0 [0; 0; 0; 0xa1; 0xb2; 0xc3; 0xd4])) |}
     (device_sending (frame_of 2 0 [0; 0; 0; 0xa1; 0xb2; 0xc3; 0xd4]))
     (frame_of 2 0 [0; 0; 0; 0xa1; 0xb2; 0xc3; 0xd4])
     eq_refl eq_refl eq_refl).
  - unfold frame_of. simpl. repeat constructor; unfold byte; lia.
  - reflexivity.
Defined.

(** ** Playlists *)

Lemma flash_pad_ok d pad on_length off_length pulse_count r g b s :
  dev (base s) = Some d ->
  base_flash_pad pad on_length off_length pulse_count [r; g; b] s
  = (Done tt,
     record [usb (Write 1 (build_message
                             [0x55; 0x09; 0xc3; 0x03; pad; on_length;
                              off_length; pulse_count; r; g; b]))] s).
Proof.
  intros H. unfold base_flash_pad, on_base, Portal.flash_pad, with_colour.
  cbn [colour_at nth_error]. unfold send_command. rewrite H.
  now destruct (write d 1 _).
Qed.

(** X7: [playPlaylist] on a folder without mp3 files: [spotify.pause()],
    the listing, three orange flashes of pad 0, and nothing else; the
    player is not called, no lightshow starts, and the playback state
    stays what it was. *)
Theorem playPlaylist_empty_folder (w : world) (d : usb_device)
    (playlist_filename mp3_dir : string) (shuffled : bool) (s : session) :
  dev (base s) = Some d ->
  answer_glob w (history s ++ [spotify_pause])
    (mp3_dir +:+ "/" +:+ playlist_filename +:+ "/*.mp3") = [] ->
  exists s',
    playPlaylist w playlist_filename mp3_dir shuffled s = (Done tt, s') /\
    history s' =
      history s
        ++ [spotify_pause;
            glob_glob (mp3_dir +:+ "/" +:+ playlist_filename +:+ "/*.mp3") [];
            usb (Write 1 (build_message
                            [0x55; 0x09; 0xc3; 0x03; 0; 10; 10; 3; 255; 165; 0]))] /\
    mp3state s' = mp3state s /\
    mp3_duration s' = mp3_duration s /\
    lightshowThread s' = lightshowThread s.
Proof.
  intros Hdev Hglob.
  unfold playPlaylist, do_call, modify, glob, mbind, M_bind.
  cbn [history record]. rewrite Hglob. unfold ORANGE.
  erewrite flash_pad_ok by exact Hdev.
  eexists. split; [reflexivity|]. cbn. rewrite <- !app_assoc. auto.
Qed.

(** One turn of the loop of [startMp3] over the files of a playlist. *)
Lemma playlist_length_step (w : world) (file_mp3 : string) (s : session)
    (acc : float) :
  mp3_duration s = Some acc ->
  (length ← query_num w (MP3_info_length file_mp3);
   total ← read_global mp3_duration;
   modify (set_mp3_duration (Some (PrimFloat.add total length)))) s
  = (Done tt,
     set_mp3_duration
       (Some (PrimFloat.add acc
                (answer_num w (history s) (MP3_info_length file_mp3))))
       (record [ask_num (MP3_info_length file_mp3)
                  (answer_num w (history s) (MP3_info_length file_mp3))] s)).
Proof.
  intros Hacc. unfold query_num, read_global, modify, mbind, M_bind.
  cbn. now rewrite Hacc.
Qed.

(** The whole loop, when the length of a file does not depend on when
    it is asked for. *)
Lemma playlist_lengths (w : world) (len : string -> float) :
  (forall h f, answer_num w h (MP3_info_length f) = len f) ->
  forall files s acc,
    mp3_duration s = Some acc ->
    exists s',
      for_each files (fun file_mp3 =>
        length ← query_num w (MP3_info_length file_mp3);
        total ← read_global mp3_duration;
        modify (set_mp3_duration (Some (PrimFloat.add total length)))) s
      = (Done tt, s') /\
      mp3_duration s' =
        Some (fold_left (fun total f => PrimFloat.add total (len f)) files acc) /\
      history s' =
        history s ++ map (fun f => ask_num (MP3_info_length f) (len f)) files /\
      mp3state s' = mp3state s /\ switch_lights s' = switch_lights s /\
      threads s' = threads s /\ lightshowThread s' = lightshowThread s /\
      base s' = base s.
Proof.
  intros Hlen files. induction files as [|f files IH]; intros s acc Hacc.
  - exists s. cbn [for_each fold_left map]. rewrite app_nil_r.
    repeat split; auto.
  - cbn [for_each fold_left map].
    rewrite (bind_done _ _ _ _ _ (playlist_length_step w f s acc Hacc)).
    rewrite Hlen.
    edestruct (IH (set_mp3_duration (Some (PrimFloat.add acc (len f)))
                     (record [ask_num (MP3_info_length f) (len f)] s)))
      as (s' & E & D & H & rest); [reflexivity|].
    exists s'. split; [exact E|]. split; [exact D|].
    split; [|exact rest].
    rewrite H. cbn. now rewrite <- app_assoc.
Qed.

(** [startMp3] for a playlist. *)
Lemma startMp3_playlist_sum (w : world) (len : string -> float)
    (played : list string) (s : session) :
  (forall h f, answer_num w h (MP3_info_length f) = len f) ->
  let total :=
    fold_left (fun total f => PrimFloat.add total (len f)) played 0%float in
  exists s',
    startMp3_playlist w played s = (Done tt, s') /\
    history s' =
      history s ++ [player_playlist played]
        ++ map (fun f => ask_num (MP3_info_length f) (len f)) played
        ++ (if switch_lights s
            then [thread_start (threads s)
                    (PrimFloat.div (PrimFloat.mul total 1000%float) 1000%float)]
            else []) /\
    mp3_duration s' = Some total /\
    mp3state s' = mp3state s.
Proof.
  intros Hlen. cbv zeta. unfold startMp3_playlist.
  rewrite (bind_done (do_call (player_playlist played)) _ s tt
             (record [player_playlist played] s) eq_refl).
  rewrite (bind_done (modify (set_mp3_duration (Some 0%float))) _ _ tt
             (set_mp3_duration (Some 0%float)
                (record [player_playlist played] s)) eq_refl).
  destruct (playlist_lengths w len Hlen played
              (set_mp3_duration (Some 0%float)
                 (record [player_playlist played] s)) 0%float eq_refl)
    as (s4 & E4 & D4 & H4 & St4 & L4 & T4 & LT4 & _).
  rewrite (bind_done _ _ _ _ _ E4).
  unfold read_global, mbind, M_bind. rewrite D4.
  unfold startLightshow. rewrite L4, T4. cbn [switch_lights threads record
    set_mp3_duration].
  destruct (switch_lights s).
  - eexists. split; [reflexivity|]. cbn. rewrite H4. cbn.
    rewrite <- !app_assoc. repeat split; auto.
  - eexists. split; [reflexivity|]. rewrite H4. cbn.
    rewrite app_nil_r, <- !app_assoc. repeat split; auto.
Qed.

(** X8: [playPlaylist] on a folder with mp3 files, when the length of a
    file does not depend on when it is asked for: the files go to the
    player as listed, or as [random.shuffle] left them; [mp3_duration]
    is the sum of their lengths, added up in that order from 0; the
    playback state is [PLAYING]; and with lights enabled a lightshow
    thread is started for that duration. *)
Theorem playPlaylist_duration (w : world) (len : string -> float)
    (playlist_filename mp3_dir : string) (shuffled : bool) (s : session)
    (files : list string) :
  (forall h f, answer_num w h (MP3_info_length f) = len f) ->
  answer_glob w (history s ++ [spotify_pause])
    (mp3_dir +:+ "/" +:+ playlist_filename +:+ "/*.mp3") = files ->
  files <> [] ->
  let listed :=
    [spotify_pause;
     glob_glob (mp3_dir +:+ "/" +:+ playlist_filename +:+ "/*.mp3") files] in
  let played :=
    if shuffled then answer_shuffle w (history s ++ listed) files else files in
  let total :=
    fold_left (fun total f => PrimFloat.add total (len f)) played 0%float in
  exists s',
    playPlaylist w playlist_filename mp3_dir shuffled s = (Done tt, s') /\
    history s' =
      history s ++ listed
        ++ (if shuffled then [random_shuffle files played] else [])
        ++ [player_playlist played]
        ++ map (fun f => ask_num (MP3_info_length f) (len f)) played
        ++ (if switch_lights s
            then [thread_start (threads s)
                    (PrimFloat.div (PrimFloat.mul total 1000%float) 1000%float)]
            else []) /\
    mp3_duration s' = Some total /\
    mp3state s' = Some "PLAYING"%string.
Proof.
  intros Hlen Hglob Hne. cbv zeta.
  unfold playPlaylist.
  rewrite (bind_done (do_call spotify_pause) _ s tt
             (record [spotify_pause] s) eq_refl).
  unfold glob at 1. unfold mbind at 1, M_bind at 1.
  cbn [history record]. rewrite Hglob.
  destruct files as [|f0 files0] eqn:Hfiles; [congruence|].
  rewrite <- Hfiles in *. clear Hne.
  set (pat := mp3_dir +:+ "/" +:+ playlist_filename +:+ "/*.mp3").
  set (s1 := record [glob_glob pat files] (record [spotify_pause] s)).
  set (played := if shuffled
                 then answer_shuffle w
                        (history s ++ [spotify_pause; glob_glob pat files]) files
                 else files).
  set (s2 := if shuffled then record [random_shuffle files played] s1 else s1).
  assert ((if shuffled then shuffle w files else mret files) s1
          = (Done played, s2)) as Hsh.
  { subst s2 played s1. destruct shuffled; [|reflexivity].
    unfold shuffle. cbn [history record]. now rewrite <- app_assoc. }
  rewrite (bind_done _ _ _ _ _ Hsh).
  destruct (startMp3_playlist_sum w len played s2 Hlen)
    as (s3 & E3 & H3 & D3 & St3).
  rewrite (bind_done _ _ _ _ _ E3).
  eexists. split; [reflexivity|]. cbn [history mp3_duration mp3state
    set_mp3state].
  split; [|split; [exact D3|reflexivity]].
  rewrite H3. subst s2 s1.
  destruct shuffled; cbn; rewrite <- !app_assoc; reflexivity.
Qed.

(** A playlist folder with two files of 180 s, lights enabled. *)
Lemma playPlaylist_duration_witness :
  exists s',
    playPlaylist (world_of mp3_and_playlist false) "pl" "/music" false
      (started (world_of mp3_and_playlist false)) = (Done tt, s') /\
    mp3_duration s' = Some 360%float /\
    mp3state s' = Some "PLAYING"%string.
Proof.
  destruct (playPlaylist_duration (world_of mp3_and_playlist false)
              (fun _ => 180%float) "pl" "/music" false
              (started (world_of mp3_and_playlist false))
              ["/music/pl/a.mp3"; "/music/pl/b.mp3"]%string)
    as (s' & E & _ & D & St).
  - reflexivity.
  - reflexivity.
  - discriminate.
  - exists s'. split; [exact E|]. split; [exact D|exact St].
Defined.

(** A playlist folder that [glob] finds empty. *)
Lemma playPlaylist_empty_folder_witness :
  let w := {| answer := fun _ _ => true;
              answer_num := fun _ _ => 0%float;
              answer_glob := fun _ _ => [];
              answer_shuffle := fun _ l => l;
              answer_tags := fun _ => tags_with "a1b2c3d4" mp3_and_playlist;
              app_dir := "/opt/musicfig/app" |} in
  exists s',
    playPlaylist w "pl" "/music" false (started w) = (Done tt, s') /\
    mp3state s' = mp3state (started w).
Proof.
  cbv zeta.
  destruct (playPlaylist_empty_folder
              {| answer := fun _ _ => true;
                 answer_num := fun _ _ => 0%float;
                 answer_glob := fun _ _ => [];
                 answer_shuffle := fun _ l => l;
                 answer_tags := fun _ => tags_with "a1b2c3d4" mp3_and_playlist;
                 app_dir := "/opt/musicfig/app" |}
              quiet_device "pl" "/music" false
              (started
                 {| answer := fun _ _ => true;
                    answer_num := fun _ _ => 0%float;
                    answer_glob := fun _ _ => [];
                    answer_shuffle := fun _ l => l;
                    answer_tags := fun _ => tags_with "a1b2c3d4" mp3_and_playlist;
                    app_dir := "/opt/musicfig/app" |}))
    as (s' & E & _ & St & _).
  - reflexivity.
  - reflexivity.
  - exists s'. split; [exact E|exact St].
Defined.

(** ** Pausing *)

(** X9: [pauseMp3] acts once: it calls [p.pause()] and sets [PAUSED] only
    when the state is [PLAYING], so a second call right after it does
    nothing. *)
Theorem pauseMp3_twice (s : session) :
  (pauseMp3;; pauseMp3) s = pauseMp3 s /\
  (mp3state s <> Some "PLAYING"%string -> pauseMp3 s = (Done tt, s)) /\
  (mp3state s = Some "PLAYING"%string ->
   pauseMp3 s
   = (Done tt, set_mp3state (Some "PAUSED"%string) (record [player_pause] s))).
Proof.
  unfold pauseMp3, do_call, modify, get, mbind, M_bind, mret, M_ret.
  cbn. split; [|split].
  - destruct (bool_decide (mp3state s = Some "PLAYING"%string)) eqn:E; cbn.
    + reflexivity.
    + now rewrite E.
  - intros H. now rewrite bool_decide_eq_false_2.
  - intros H. now rewrite bool_decide_eq_true_2.
Qed.

(** ** Switching the TV to the Apple TV *)

(** X10: [switchHdmiToAppleTv] always returns; it asks the Hue Sync Box to
    switch only when that is configured, turns to the Samsung TV only
    when the Sync Box did not switch, asks the TV to switch only when it
    is configured, and answers whether one of the two switched. *)
Theorem switchHdmiToAppleTv_fallback (w : world) (s : session) :
  exists (switched : bool) (s' : session) (d : list call),
    switchHdmiToAppleTv w s = (Done switched, s') /\
    history s' = history s ++ d /\
    (switched = true <->
     In (ask huesyncbox_switch_to_appletv_sync true) d \/
     In (ask samsungtv_switch_to_appletv true) d) /\
    (In (ask huesyncbox_switch_to_appletv_sync true) d ->
     ~ In samsungtv_load_config d /\
     forall r, ~ In (ask samsungtv_configured r) d /\
               ~ In (ask samsungtv_switch_to_appletv r) d) /\
    (forall r, In (ask huesyncbox_switch_to_appletv_sync r) d ->
               In (ask huesyncbox_configured true) d) /\
    (forall r, In (ask samsungtv_switch_to_appletv r) d ->
               In (ask samsungtv_configured true) d).
Proof.
  unfold switchHdmiToAppleTv, do_call, modify, query, mbind, M_bind, mret, M_ret.
  cbn [history record].
  destruct (answer w (history s ++ [huesyncbox_load_config])
              huesyncbox_configured) eqn:E1; cbn [history record].
  - destruct (answer w _ huesyncbox_switch_to_appletv_sync) eqn:E2;
      cbn [history record].
    + eexists _, _, _. split; [reflexivity|]. cbn [history record].
      rewrite <- !app_assoc. split; [reflexivity|]. cbn.
      split; [intuition discriminate|].
      split; [intuition discriminate|].
      split; intros r; intuition discriminate.
    + destruct (answer w _ samsungtv_configured) eqn:E3; cbn [history record].
      * destruct (answer w _ samsungtv_switch_to_appletv) eqn:E4;
          eexists _, _, _; (split; [reflexivity|]); cbn [history record];
          rewrite <- !app_assoc; (split; [reflexivity|]); cbn;
          (split; [intuition discriminate|]);
          (split; [intuition discriminate|]);
          split; intros r; intuition discriminate.
      * eexists _, _, _. split; [reflexivity|]. cbn [history record].
        rewrite <- !app_assoc. split; [reflexivity|]. cbn.
        split; [intuition discriminate|].
        split; [intuition discriminate|].
        split; intros r; intuition discriminate.
  - destruct (answer w _ samsungtv_configured) eqn:E3; cbn [history record].
    + destruct (answer w _ samsungtv_switch_to_appletv) eqn:E4;
        eexists _, _, _; (split; [reflexivity|]); cbn [history record];
        rewrite <- !app_assoc; (split; [reflexivity|]); cbn;
        (split; [intuition discriminate|]);
        (split; [intuition discriminate|]);
        split; intros r; intuition discriminate.
    + eexists _, _, _. split; [reflexivity|]. cbn [history record].
      rewrite <- !app_assoc. split; [reflexivity|]. cbn.
      split; [intuition discriminate|].
      split; [intuition discriminate|].
      split; intros r; intuition discriminate.
Qed.

(** ** Events that the loop passes over *)

(** X11: Nothing happens, and the state stays as it is, when [update_nfc]
    answers [None] or an empty text, when the status of an event is
    neither [added] nor [removed], and when the tag that was removed is
    not the current one. *)
Theorem ignored_events (w : world) (s : session) :
  step w (polled None) s = (Done tt, s) /\
  step w (polled (Some ""%string)) s = (Done tt, s) /\
  (forall status pad ident,
     status <> "added"%string -> status <> "removed"%string ->
     handle w status pad ident s = (Done tt, s)) /\
  (forall pad ident,
     current_tag s <> Some ident ->
     handle w "removed" pad ident s = (Done tt, s)).
Proof.
  split; [reflexivity|]. split; [reflexivity|]. split.
  - intros status pad ident Ha Hr. unfold handle.
    apply String.eqb_neq in Ha, Hr. now rewrite Ha, Hr.
  - intros pad ident Hc. rewrite handle_removed.
    unfold on_removed, get, mbind, M_bind, mret, M_ret, tag_eqb.
    rewrite bool_decide_eq_false_2 by congruence. reflexivity.
Qed.

(** ** A configuration without bindings *)

(** X12: When the tags file has no [identifier] section, an Added event
    raises [KeyError] at the test of the binding, after the pad was
    painted blue, the file was read again and the lightshow thread was
    joined; the exception is not caught in [startLego], so it ends the
    loop.  [current_tag] and [previous_tag] stay as they are. *)
Theorem added_without_identifier_section (w : world) (d : usb_device)
    (pad : Z) (ident : string) (s : session) :
  dev (base s) = Some d ->
  identifier
    (answer_tags w
       (history s ++ if switch_lights s then [pad_colour pad BLUE] else []))
  = None ->
  exists s',
    handle w "added" pad ident s = (Stop (Raise KeyError), s') /\
    current_tag s' = current_tag s /\
    previous_tag s' = previous_tag s /\
    history s' =
      history s
        ++ (if switch_lights s then [pad_colour pad BLUE] else [])
        ++ [nfc_load_tags]
        ++ (match lightshowThread s with
            | Some t => [thread_stop t]
            | None => []
            end).
Proof.
  intros Hdev Hid. rewrite handle_added. unfold on_added.
  rewrite (bind_done get _ s s s eq_refl).
  destruct (switch_lights s) eqn:Hl; cbn [when].
  - unfold BLUE at 1.
    rewrite (bind_done _ _ _ _ _ (switch_pad_ok d pad 0 0 255 s Hdev)).
    unfold load_tags, stop_lightshow, mbind, M_bind. cbn.
    unfold pad_colour, BLUE in Hid. cbn in Hid.
    destruct (lightshowThread s) as [t|]; cbn; rewrite Hid;
      (eexists; split; [reflexivity|]); cbn; rewrite <- ?app_assoc;
      repeat split; auto.
  - rewrite app_nil_r in Hid.
    unfold load_tags, stop_lightshow, mbind, M_bind, mret, M_ret. cbn.
    destruct (lightshowThread s) as [t|]; cbn; rewrite Hid;
      (eexists; split; [reflexivity|]); cbn; rewrite <- ?app_assoc;
      repeat split; auto.
Qed.

(** A tags file with lights and nothing else. *)
Lemma added_without_identifier_section_witness :
  let w := steady_world
             {| lights := None; mp3_dir := None; slack_hook := None;
                identifier := None |} false in
  exists s',
    handle w "added" 2 "a1b2c3d4" (started w) = (Stop (Raise KeyError), s') /\
    current_tag s' = None.
Proof.
  cbv zeta.
  destruct (added_without_identifier_section
              (steady_world
                 {| lights := None; mp3_dir := None; slack_hook := None;
                    identifier := None |} false)
              quiet_device 2 "a1b2c3d4"
              (started
                 (steady_world
                    {| lights := None; mp3_dir := None; slack_hook := None;
                       identifier := None |} false)))
    as (s' & E & C & _).
  - reflexivity.
  - reflexivity.
  - exists s'. split; [exact E|exact C].
Defined.

(** ** The monitor thread *)

Lemma prefix_app (a b : string) : String.prefix a (a +:+ b) = true.
Proof.
  induction a as [|c a IH]; [now destruct b|].
  change (String.prefix (String c a) (String c a +:+ b))
    with (if ascii_dec c c then String.prefix a (a +:+ b) else false).
  destruct (ascii_dec c c); [exact IH|congruence].
Qed.

Lemma string_drop_app (a b : string) :
  string_drop (String.length a) (a +:+ b) = b.
Proof.
  induction a as [|c a IH]; cbn; [now destruct b|exact IH].
Qed.

(** [(old + text).replace(old, '')] is [text] when [old] does not occur
    in [text]. *)
Lemma replace_leading (old text : string) :
  old <> ""%string -> occurs old text = false ->
  replace old "" (old +:+ text) = text.
Proof.
  intros Hne Ho. destruct old as [|c old]; [congruence|].
  unfold replace. change (String c old +:+ text) with (String c (old +:+ text)).
  cbn [replace_from].
  change (String c (old +:+ text)) with (String c old +:+ text).
  rewrite prefix_app. cbn [String.length Nat.sub String.app].
  rewrite Nat.sub_0_r, PortalFacts.replace_from_skip, string_drop_app.
  now apply PortalFacts.replace_absent.
Qed.

(** X13: A notification of the player sets [mp3state] to the name of the
    player state without its prefix [PlayerState.] (so that
    [PlayerState.PLAYING] is what [pauseMp3] tests for), sets
    [mp3elapsed], calls nothing and leaves the tags alone. *)
Theorem monitor_state (name : string) (elapsed : float) (s : session) :
  occurs "PlayerState." name = false ->
  exists s',
    monitor ("PlayerState." +:+ name) elapsed s = (Done tt, s') /\
    mp3state s' = Some name /\
    mp3elapsed s' = Some elapsed /\
    history s' = history s /\
    current_tag s' = current_tag s /\
    previous_tag s' = previous_tag s /\
    mp3_duration s' = mp3_duration s.
Proof.
  intros Ho. unfold monitor, modify. eexists. split; [reflexivity|].
  cbn [mp3state mp3elapsed history current_tag previous_tag mp3_duration
       set_mp3elapsed set_mp3state].
  rewrite replace_leading by (congruence || exact Ho).
  repeat split; reflexivity.
Qed.

Lemma monitor_state_witness :
  exists s',
    monitor "PlayerState.PLAYING" 12.5%float (started world_mp3)
    = (Done tt, s') /\
    mp3state s' = Some "PLAYING"%string /\
    mp3elapsed s' = Some 12.5%float.
Proof.
  destruct (monitor_state "PLAYING" 12.5%float (started world_mp3) eq_refl)
    as (s' & E & St & El & _).
  exists s'. auto.
Defined.

#[local] Hint Unfold startMp3 startMp3_playlist stopMp3 pauseMp3 playMp3_resume
  playMp3 playPlaylist switchHdmiToAppleTv error_flash deep_link
  base_switch_pad base_flash_pad
  on_playlist on_mp3 on_slack on_command on_spotify on_disney on_netflix
  on_youtube on_airplay on_xbox on_removed : session.

(** ** Statements that never end in [continue] *)

Lemma no_continue_ret {A} (a : A) : no_continue (mret a : M A).
Proof. intros s s' H. inversion H. Qed.

Lemma no_continue_bind {A B} (m : M A) (k : A -> M B) :
  no_continue m -> (forall a, no_continue (k a)) -> no_continue (m ≫= k).
Proof.
  intros Hm Hk s s' H. unfold mbind, M_bind in H.
  destruct (m s) as [[a|sg] s1] eqn:E.
  - exact (Hk a s1 s' H).
  - inversion H; subst. exact (Hm s s' E).
Qed.

Lemma no_continue_get : no_continue get.
Proof. intros s s' H. inversion H. Qed.

Lemma no_continue_raise {A} e : no_continue (@raise A e).
Proof. intros s s' H. inversion H. Qed.

Lemma no_continue_read_global {A} (v : session -> option A) :
  no_continue (read_global v).
Proof. intros s s' H. unfold read_global in H. destruct (v s); inversion H. Qed.

Lemma no_continue_modify f : no_continue (modify f).
Proof. intros s s' H. inversion H. Qed.

Lemma no_continue_when (c : bool) m : no_continue m -> no_continue (when c m).
Proof. destruct c; simpl; auto using no_continue_ret. Qed.

Lemma no_continue_for_each {A} (l : list A) body :
  (forall x, no_continue (body x)) -> no_continue (for_each l body).
Proof.
  intros Hb. induction l as [|x l IH]; simpl.
  - apply no_continue_ret.
  - apply no_continue_bind; auto.
Qed.

Lemma no_continue_do_call c : no_continue (do_call c).
Proof. intros s s' H. inversion H. Qed.

Lemma no_continue_query w q : no_continue (query w q).
Proof. intros s s' H. inversion H. Qed.

Lemma no_continue_query_num w q : no_continue (query_num w q).
Proof. intros s s' H. inversion H. Qed.

Lemma no_continue_glob w pat : no_continue (glob w pat).
Proof. intros s s' H. inversion H. Qed.

Lemma no_continue_shuffle w l : no_continue (shuffle w l).
Proof. intros s s' H. inversion H. Qed.

Lemma no_continue_on_base f : no_continue (on_base f).
Proof.
  intros s s' H. apply on_base_stop in H as [e H]. discriminate.
Qed.

Lemma no_continue_startLightshow d : no_continue (startLightshow d).
Proof.
  intros s s' H. unfold startLightshow in H.
  destruct (switch_lights s); inversion H.
Qed.

Lemma no_continue_stop_lightshow : no_continue stop_lightshow.
Proof.
  intros s s' H. unfold stop_lightshow in H.
  destruct (lightshowThread s); inversion H.
Qed.

Ltac no_continue_step :=
  lazymatch goal with
  | |- no_continue (mbind _ _) => apply no_continue_bind; [|intros ?]
  | |- no_continue (mret _) => apply no_continue_ret
  | |- no_continue get => apply no_continue_get
  | |- no_continue (raise _) => apply no_continue_raise
  | |- no_continue (read_global _) => apply no_continue_read_global
  | |- no_continue (modify _) => apply no_continue_modify
  | |- no_continue (when _ _) => apply no_continue_when
  | |- no_continue (for_each _ _) => apply no_continue_for_each; intros ?
  | |- no_continue (do_call _) => apply no_continue_do_call
  | |- no_continue (query _ _) => apply no_continue_query
  | |- no_continue (query_num _ _) => apply no_continue_query_num
  | |- no_continue (glob _ _) => apply no_continue_glob
  | |- no_continue (shuffle _ _) => apply no_continue_shuffle
  | |- no_continue (on_base _) => apply no_continue_on_base
  | |- no_continue (startLightshow _) => apply no_continue_startLightshow
  | |- no_continue stop_lightshow => apply no_continue_stop_lightshow
  | |- no_continue (match ?x with _ => _ end) => destruct x
  | |- no_continue _ => progress autounfold with session
  end.

Ltac no_continue_auto := repeat no_continue_step.

Lemma on_playlist_no_continue w dir b : no_continue (on_playlist w dir b).
Proof. no_continue_auto. Qed.

Lemma on_mp3_no_continue w dir b : no_continue (on_mp3 w dir b).
Proof. no_continue_auto. Qed.

Lemma stop_raises {A} (m : M A) s sg s' :
  no_continue m -> m s = (Stop sg, s') -> exists e, sg = Raise e.
Proof.
  intros Hm H. destruct sg as [e|]; [eauto|]. now apply Hm in H.
Qed.

(** ** A message without a hook *)

(** X14: When a binding has [slack] and the tags file has no [slack_hook],
    the blocks of the binding end in an exception: [KeyError] at the
    lookup of the hook, unless the playlist or the mp3 block before it
    raised already.  Nothing is posted, and the blocks after the
    message (command, spotify, the deep links, AirPlay, Xbox) are not
    run. *)
Theorem slack_without_hook (w : world) (pad : Z) (dir : string)
    (b : gmap string string) (text : string) (s : session)
    (r : result unit) (s' : session) :
  b !! "slack"%string = Some text ->
  slack_hook (tags s) = None ->
  dispatch w pad dir b s = (r, s') ->
  (exists e, r = Stop (Raise e)) /\
  (b !! "playlist"%string = None -> b !! "mp3"%string = None ->
   r = Stop (Raise KeyError) /\ s' = s) /\
  exists d,
    history s' = history s ++ d /\
    Forall (fun c => field_of c = None \/ field_of c = Some f_playlist \/
                     field_of c = Some f_mp3) d.
Proof.
  intros Hslack Hhook H.
  unfold dispatch, blocks in H. cbn [map snd sequence] in H.
  assert (Hs : forall s2, slack_hook (tags s2) = None ->
            on_slack b s2 = (Stop (Raise KeyError), s2)).
  { intros s2 H2. unfold on_slack. rewrite Hslack.
    unfold get, mbind, M_bind. now rewrite H2. }
  apply bind_inv in H as [([] & s1 & H1 & H)|(sg & H1 & ->)].
  - pose proof (on_playlist_respects w dir b false _ _ _ H1)
      as ((d1 & E1 & F1) & _ & T1 & _).
    apply bind_inv in H as [([] & s2 & H2 & H)|(sg & H2 & ->)].
    + pose proof (on_mp3_respects w dir b false _ _ _ H2)
        as ((d2 & E2 & F2) & _ & T2 & _).
      assert (slack_hook (tags s2) = None) as Hh2 by now rewrite T2, T1.
      unfold mbind, M_bind in H. rewrite (Hs s2 Hh2) in H.
      inversion H; subst r s'; clear H.
      split; [eauto|]. split.
      * intros Hp Hm. split; [reflexivity|].
        unfold on_playlist in H1. rewrite Hp in H1.
        unfold on_mp3 in H2. rewrite Hm in H2.
        inversion H1; subst. now inversion H2.
      * exists (d1 ++ d2). rewrite E2, E1, app_assoc. split; [reflexivity|].
        apply Forall_app. split.
        -- eapply Forall_impl; [exact F1|]. unfold of_field. tauto.
        -- eapply Forall_impl; [exact F2|]. unfold of_field. tauto.
    + pose proof (on_mp3_respects w dir b false _ _ _ H2)
        as ((d2 & E2 & F2) & _).
      destruct (stop_raises _ _ _ _ (on_mp3_no_continue w dir b) H2) as [e ->].
      split; [eauto|]. split.
      * intros _ Hm. unfold on_mp3 in H2. rewrite Hm in H2. discriminate.
      * exists (d1 ++ d2). rewrite E2, E1, app_assoc. split; [reflexivity|].
        apply Forall_app. split.
        -- eapply Forall_impl; [exact F1|]. unfold of_field. tauto.
        -- eapply Forall_impl; [exact F2|]. unfold of_field. tauto.
  - pose proof (on_playlist_respects w dir b false _ _ _ H1)
      as ((d1 & E1 & F1) & _).
    destruct (stop_raises _ _ _ _ (on_playlist_no_continue w dir b) H1)
      as [e ->].
    split; [eauto|]. split.
    + intros Hp _. unfold on_playlist in H1. rewrite Hp in H1. discriminate.
    + exists d1. split; [exact E1|].
      eapply Forall_impl; [exact F1|]. unfold of_field. tauto.
Qed.

Lemma slack_without_hook_witness :
  let b : gmap string string := {[ "slack"%string := "hello"%string ]} in
  let s := started (world_of b false) in
  dispatch (world_of b false) 2 "/music/" b s = (Stop (Raise KeyError), s).
Proof.
  cbv zeta.
  destruct (dispatch (world_of {[ "slack"%string := "hello"%string ]} false) 2
              "/music/" {[ "slack"%string := "hello"%string ]}
              (started (world_of {[ "slack"%string := "hello"%string ]} false)))
    as [r s'] eqn:E.
  pose proof (slack_without_hook
                (world_of {[ "slack"%string := "hello"%string ]} false) 2
                "/music/" {[ "slack"%string := "hello"%string ]} "hello"
                (started (world_of {[ "slack"%string := "hello"%string ]} false))
                r s') as H.
  destruct H as (_ & H & _);
    [vm_compute; reflexivity|vm_compute; reflexivity|exact E|].
  destruct H as [-> ->]; [vm_compute; reflexivity|vm_compute; reflexivity|].
  reflexivity.
Defined.

(** ** Statements that keep a property of the state *)

Section Keeps.

Variable I : session -> Prop.

Lemma keeps_ret {A} (a : A) : keeps I (mret a : M A).
Proof. intros s r s' HI H. inversion H; subst. exact HI. Qed.

Lemma keeps_bind {A B} (m : M A) (k : A -> M B) :
  keeps I m -> (forall a, keeps I (k a)) -> keeps I (m ≫= k).
Proof.
  intros Hm Hk s r s' HI H.
  apply bind_inv in H as [(a & s1 & H1 & H)|(sg & H1 & _)].
  - exact (Hk a s1 r s' (Hm s _ s1 HI H1) H).
  - exact (Hm s _ s' HI H1).
Qed.

Lemma keeps_when (c : bool) m : keeps I m -> keeps I (when c m).
Proof. destruct c; simpl; auto using keeps_ret. Qed.

Lemma keeps_for_each {A} (l : list A) body :
  (forall x, keeps I (body x)) -> keeps I (for_each l body).
Proof.
  intros Hb. induction l as [|x l IH]; simpl.
  - apply keeps_ret.
  - apply keeps_bind; auto.
Qed.

Hypothesis I_record :
  forall cs s, Forall (fun c => player_call c = false) cs -> I s ->
               I (record cs s).

Lemma keeps_do_call c : player_call c = false -> keeps I (do_call c).
Proof.
  intros Hc s r s' HI H. inversion H; subst. apply I_record; auto.
Qed.

Lemma keeps_query w q : keeps I (query w q).
Proof.
  intros s r s' HI H. inversion H; subst. apply I_record; auto.
Qed.

Lemma keeps_on_base f : keeps I (on_base f).
Proof.
  intros s r s' HI H. unfold on_base in H.
  assert (s' = record (map usb (fst (f (base s)))) s) as ->
    by (destruct (snd (f (base s))); now inversion H).
  apply I_record; [|exact HI].
  apply Forall_forall. intros c Hc. apply list_elem_of_In, in_map_iff in Hc.
  destruct Hc as (u & <- & _). reflexivity.
Qed.

Lemma keeps_stop_lightshow : keeps I stop_lightshow.
Proof.
  intros s r s' HI H. unfold stop_lightshow in H.
  destruct (lightshowThread s); inversion H; subst; [|exact HI].
  apply I_record; auto.
Qed.

End Keeps.

Lemma stopped_record h0 cs s :
  Forall (fun c => player_call c = false) cs ->
  stopped_untouched h0 s -> stopped_untouched h0 (record cs s).
Proof.
  intros Hcs [Hst (d & E & F)]. split; [exact Hst|].
  exists (d ++ cs). cbn. rewrite E, app_assoc. split; [reflexivity|].
  apply Forall_app; auto.
Qed.

Lemma pauseMp3_stopped h0 s : stopped_untouched h0 s -> pauseMp3 s = (Done tt, s).
Proof.
  intros [Hst _]. unfold pauseMp3, get, mbind, M_bind. rewrite Hst. reflexivity.
Qed.

Lemma keeps_pauseMp3 h0 : keeps (stopped_untouched h0) pauseMp3.
Proof.
  intros s r s' HI H. rewrite (pauseMp3_stopped h0 s HI) in H.
  inversion H; subst. exact HI.
Qed.

Create HintDb handover.
#[local] Hint Unfold switchHdmiToAppleTv error_flash deep_link
  base_switch_pad base_flash_pad : handover.

Ltac keeps_step :=
  lazymatch goal with
  | |- keeps _ (mbind _ _) => apply keeps_bind; [|intros ?]
  | |- keeps _ (mret _) => apply keeps_ret
  | |- keeps _ (when _ _) => apply keeps_when
  | |- keeps _ (for_each _ _) => apply keeps_for_each; intros ?
  | |- keeps _ (do_call _) =>
      apply keeps_do_call; [apply stopped_record|reflexivity]
  | |- keeps _ (query _ _) => apply keeps_query; apply stopped_record
  | |- keeps _ (on_base _) => apply keeps_on_base; apply stopped_record
  | |- keeps _ stop_lightshow => apply keeps_stop_lightshow; apply stopped_record
  | |- keeps _ pauseMp3 => apply keeps_pauseMp3
  | |- keeps _ (match ?x with _ => _ end) => destruct x
  | |- keeps _ _ => progress autounfold with handover
  end.

Ltac keeps_auto := repeat keeps_step.

(** After [stopMp3] the state is marked as stopped, and what follows it
    keeps that when it stays away from the player. *)
Lemma after_stopMp3 (rest : M unit) s r s' :
  (forall h0, keeps (stopped_untouched h0) rest) ->
  (stopMp3;; rest) s = (r, s') -> stopped_untouched (history s) s'.
Proof.
  intros Hk H. unfold stopMp3, modify, mbind, M_bind in H.
  eapply (Hk (history s)); [|exact H].
  split; [reflexivity|]. exists []. cbn. now rewrite app_nil_r.
Qed.

Lemma keeps_deep_link w pad launch keys h0 :
  keeps (stopped_untouched h0) keys ->
  keeps (stopped_untouched h0)
    (do_call appletv_load_config;;
     switchHdmiToAppleTv w;;
     ok ← query w launch;
     if ok : bool then base_switch_pad pad PURPLE;; keys
     else error_flash pad).
Proof. intros Hkeys. keeps_auto. exact Hkeys. Qed.

Lemma keeps_on_removed w ident h0 :
  keeps (stopped_untouched h0) (on_removed w ident).
Proof.
  unfold on_removed. intros s r s' HI H.
  unfold get, mbind at 1, M_bind at 1 in H.
  destruct (tag_eqb (Some ident) (current_tag s)).
  - revert s r s' HI H. change (keeps (stopped_untouched h0)
      (stop_lightshow;; pauseMp3;;
       activated ← query w spotify_activated;
       when activated (do_call spotify_pause))).
    keeps_auto.
  - inversion H; subst. exact HI.
Qed.

(** ** Blocks that hand playback to another device *)

(** X15: The blocks of [disney], [netflix], [youtube], [airplay] and [xbox]
    mark local playback as stopped and send nothing to the local player,
    whether they end normally or raise: a track that plays goes on
    playing.  A removal of the tag that is handled on the state the
    block has left, before the monitor takes a notification of the
    player, finds the state [STOPPED], so it does not pause the player
    either. *)
Theorem handed_over_playback (w : world) (pad : Z) (dir : string)
    (b : gmap string string) (f : field) (m : M unit)
    (s : session) (r : result unit) (s' : session) :
  In (f, m) (blocks w pad dir b) ->
  hands_over f = true ->
  is_Some (b !! key_of f) ->
  m s = (r, s') ->
  stopped_untouched (history s) s' /\
  pauseMp3 s' = (Done tt, s') /\
  forall ident r2 s2,
    on_removed w ident s' = (r2, s2) -> stopped_untouched (history s) s2.
Proof.
  intros Hin Hf [v Hv] H.
  assert (stopped_untouched (history s) s') as HI.
  { unfold blocks in Hin. cbn [In] in Hin.
    destruct Hin as [E|[E|[E|[E|[E|[E|[E|[E|[E|[E|[]]]]]]]]]]];
      inversion E; subst f m; try discriminate; cbn [key_of] in Hv.
    - unfold on_disney in H. rewrite Hv in H. cbn [when appletv_activated] in H.
      unfold deep_link in H. eapply after_stopMp3; [|exact H].
      intros h0. apply keeps_deep_link. keeps_auto.
    - unfold on_netflix in H. rewrite Hv in H. cbn [when appletv_activated] in H.
      unfold deep_link in H. eapply after_stopMp3; [|exact H].
      intros h0. apply keeps_deep_link. keeps_auto.
    - unfold on_youtube in H. rewrite Hv in H. cbn [when appletv_activated] in H.
      unfold deep_link in H. eapply after_stopMp3; [|exact H].
      intros h0. apply keeps_deep_link. keeps_auto.
    - unfold on_airplay in H. rewrite Hv in H.
      eapply after_stopMp3; [|exact H]. intros h0. keeps_auto.
    - unfold on_xbox in H. rewrite Hv in H.
      eapply after_stopMp3; [|exact H]. intros h0. keeps_auto. }
  split; [exact HI|]. split; [exact (pauseMp3_stopped _ _ HI)|].
  intros ident r2 s2 H2. exact (keeps_on_removed w ident _ _ _ _ HI H2).
Qed.

(** A tag with [airplay] on the started loop. *)
Lemma handed_over_playback_witness :
  let b : gmap string string := {[ "airplay"%string := "song.mp3"%string ]} in
  let w := world_of b false in
  stopped_untouched (history (started w))
    (snd (on_airplay w 2 b (started w))).
Proof.
  cbv zeta.
  refine (proj1 (handed_over_playback
            (world_of {[ "airplay"%string := "song.mp3"%string ]} false)
            2 "/music/" {[ "airplay"%string := "song.mp3"%string ]}
            f_airplay _ (started _) (fst (on_airplay _ 2 _ (started _))) _
            _ eq_refl _ _)).
  - cbn. do 8 right. left. reflexivity.
  - exists "song.mp3"%string. vm_compute. reflexivity.
  - apply surjective_pairing.
Defined.

(** ** The first placement of a streaming tag *)

Lemma on_spotify_resume (w : world) (pad : Z) (b : gmap string string)
    (uri : string) (s : session) :
  b !! "spotify"%string = Some uri ->
  answer w (history s) spotify_activated = true ->
  current_tag s = previous_tag s ->
  exists s',
    on_spotify w pad b s = (Stop Continue, s') /\
    current_tag s' = current_tag s /\
    previous_tag s' = previous_tag s /\
    mp3state s' = mp3state s /\
    history s' =
      history s
        ++ [ask spotify_activated true;
            ask_num spotify_resume
              (answer_num w (history s ++ [ask spotify_activated true])
                 spotify_resume)]
        ++ lightshow_calls s
             (answer_num w (history s ++ [ask spotify_activated true])
                spotify_resume).
Proof.
  intros Hsp Hact Hcur. unfold on_spotify. rewrite Hsp.
  unfold query, query_num, startLightshow, continue, get, lightshow_calls,
    mbind, M_bind.
  rewrite Hact. cbn. rewrite Hcur, tag_eqb_refl. cbn.
  destruct (switch_lights s); cbn; (eexists; split; [reflexivity|]); cbn;
    rewrite <- ?app_assoc; repeat split; congruence.
Qed.

(** X16: The first time a tag is placed after the start, and whenever the
    tag that is placed is the current one, [current_tag] and
    [previous_tag] are both set to it before the blocks run.  A binding
    with [spotify] (and none of [playlist], [mp3], [slack], [command])
    then takes the resume branch when the service is activated:
    [spotify.resume()] is called, the configured URI is not played, a
    lightshow is started for the remaining time, [mp3state] stays, and
    [continue] ends the turn before the blocks that follow. *)
Theorem spotify_first_placement_resumes (w : world) (d : usb_device)
    (pad : Z) (ident uri : string)
    (bindings : gmap string (gmap string string)) (b : gmap string string)
    (s : session) :
  dev (base s) = Some d ->
  (forall h, identifier (answer_tags w h) = Some bindings) ->
  (forall h, answer w h spotify_activated = true) ->
  bindings !! ident = Some b ->
  b !! "playlist"%string = None ->
  b !! "mp3"%string = None ->
  b !! "slack"%string = None ->
  b !! "command"%string = None ->
  b !! "spotify"%string = Some uri ->
  current_tag s = None \/ current_tag s = Some ident ->
  exists (ms : float) (before : list call) (s' : session),
    handle w "added" pad ident s = (Stop Continue, s') /\
    current_tag s' = Some ident /\
    previous_tag s' = Some ident /\
    mp3state s' = mp3state s /\
    history s' =
      history s ++ before
        ++ [ask spotify_activated true; ask_num spotify_resume ms]
        ++ lightshow_calls s ms /\
    before =
      (if switch_lights s then [pad_colour pad BLUE] else [])
        ++ [nfc_load_tags]
        ++ (match lightshowThread s with
            | Some t => [thread_stop t]
            | None => []
            end).
Proof.
  intros Hdev Hid Hact Hb Hpl Hmp3 Hsl Hcmd Hsp Hcur.
  rewrite handle_added. unfold on_added.
  rewrite (bind_done get _ s s s eq_refl).
  assert (Hpre :
    (when (switch_lights s) (base_switch_pad pad BLUE)) s
    = (Done tt, record (if switch_lights s then [pad_colour pad BLUE] else []) s)).
  { destruct (switch_lights s) eqn:Hl; cbn [when].
    - apply (switch_pad_ok d pad 0 0 255 s Hdev).
    - now rewrite record_nil. }
  rewrite (bind_done _ _ _ _ _ Hpre).
  unfold load_tags at 1. unfold mbind at 1, M_bind at 1.
  rewrite Hid.
  match goal with |- context [set_tags ?t (record [nfc_load_tags] ?s1)] =>
    set (s2 := set_tags t (record [nfc_load_tags] s1)) end.
  assert (Hstop :
    stop_lightshow s2
    = (Done tt, record (match lightshowThread s with
                        | Some t => [thread_stop t] | None => [] end) s2)).
  { unfold stop_lightshow. subst s2. cbn [lightshowThread set_tags record].
    destruct (lightshowThread s); [reflexivity|now rewrite record_nil]. }
  rewrite (bind_done _ _ _ _ _ Hstop).
  rewrite Hb. unfold modify at 1. unfold mbind at 1, M_bind at 1.
  match goal with |- context [dispatch w pad ?dir b ?s4] =>
    set (s4' := s4);
    assert (Hdisp : dispatch w pad dir b s4' = on_spotify w pad b s4')
  end.
  { unfold dispatch, blocks. cbn [map snd sequence].
    unfold on_playlist, on_mp3, on_slack, on_command.
    rewrite Hpl, Hmp3, Hsl, Hcmd.
    destruct (on_spotify_resume w pad b uri s4' Hsp (Hact _)) as (s' & E & _).
    { subst s4' s2. cbn. destruct Hcur as [->| ->]; reflexivity. }
    unfold mbind, M_bind, mret, M_ret. now rewrite E. }
  rewrite Hdisp.
  destruct (on_spotify_resume w pad b uri s4' Hsp (Hact _))
    as (s' & E & C & P & St & Hh).
  { subst s4' s2. cbn. destruct Hcur as [->| ->]; reflexivity. }
  eexists _, _, s'. split; [exact E|].
  split; [rewrite C; reflexivity|].
  split; [rewrite P; subst s4' s2; cbn; destruct Hcur as [->| ->]; reflexivity|].
  split; [rewrite St; reflexivity|].
  split; [|reflexivity].
  rewrite Hh. subst s4' s2. unfold lightshow_calls.
  cbn [history switch_lights threads set_current_tag set_previous_tag
       set_tags record].
  rewrite <- !app_assoc. reflexivity.
Qed.

(** The tag of the streaming album is the first one after the start. *)
Lemma spotify_first_placement_resumes_witness :
  exists s',
    handle (world_of spotify_only true) "added" 2 "a1b2c3d4"
      (started (world_of spotify_only true))
    = (Stop Continue, s') /\
    current_tag s' = Some "a1b2c3d4"%string /\
    previous_tag s' = Some "a1b2c3d4"%string.
Proof.
  destruct (spotify_first_placement_resumes
              (world_of spotify_only true) quiet_device 2
              "a1b2c3d4" "spotify:album:1"
              {[ "a1b2c3d4"%string := spotify_only ]} spotify_only
              (started (world_of spotify_only true)))
    as (ms & before & s' & E & C & P & _).
  - vm_compute; reflexivity.
  - intros h. reflexivity.
  - intros h. reflexivity.
  - vm_compute; reflexivity.
  - vm_compute; reflexivity.
  - vm_compute; reflexivity.
  - vm_compute; reflexivity.
  - vm_compute; reflexivity.
  - vm_compute; reflexivity.
  - left. vm_compute; reflexivity.
  - exists s'. auto.
Defined.

End LoopFacts.

(** * Facts about the providers *)

Module ProviderFacts.
Import Session.

(** ** Deep links *)

(** X17: The link that goes to the Apple TV always starts with [http]; an
    identifier that is a link already is passed on as it is, so building
    the link of a link changes nothing. *)
Theorem deep_link_urls (content_id : string) :
  (String.prefix "http" (appletv.disney_url content_id) = true /\
   appletv.disney_url (appletv.disney_url content_id)
   = appletv.disney_url content_id) /\
  (String.prefix "http" (appletv.netflix_url content_id) = true /\
   appletv.netflix_url (appletv.netflix_url content_id)
   = appletv.netflix_url content_id) /\
  (String.prefix "http" (appletv.youtube_url content_id) = true /\
   appletv.youtube_url (appletv.youtube_url content_id)
   = appletv.youtube_url content_id) /\
  (String.prefix "http" content_id = false ->
   appletv.disney_url content_id
   = ("https://www.disneyplus.com/video/" +:+ content_id)%string /\
   appletv.netflix_url content_id
   = ("https://www.netflix.com/title/" +:+ content_id)%string /\
   appletv.youtube_url content_id
   = ("https://www.youtube.com/watch?v=" +:+ content_id)%string).
Proof.
  unfold appletv.disney_url, appletv.netflix_url, appletv.youtube_url.
  destruct (String.prefix "http" content_id) eqn:E.
  - rewrite !E. repeat split; auto; discriminate.
  - repeat split; reflexivity.
Qed.

(** ** Settings that are taken over once *)

(** X18: [load_config] of [appletv], [huesyncbox] and [samsungtv] takes the
    settings over once: after a first call, a later call changes
    nothing, whatever the tags hold then.  After [reset_config] a key
    that the new tags do not hold keeps the value it had. *)
Theorem load_config_once (t1 t2 : gmap string string) :
  (forall c, appletv.load_config t2 (appletv.load_config t1 c)
             = appletv.load_config t1 c) /\
  (forall c, huesyncbox.load_config t2 (huesyncbox.load_config t1 c)
             = huesyncbox.load_config t1 c) /\
  (forall c, samsungtv.load_config t2 (samsungtv.load_config t1 c)
             = samsungtv.load_config t1 c) /\
  (forall c, t2 !! "smartthings_token"%string = None ->
     samsungtv.SMARTTHINGS_TOKEN
       (samsungtv.load_config t2
          (samsungtv.reset_config (samsungtv.load_config t1 c)))
     = samsungtv.SMARTTHINGS_TOKEN (samsungtv.load_config t1 c)) /\
  (forall c, t2 !! "syncbox_token"%string = None ->
     huesyncbox.SYNCBOX_TOKEN
       (huesyncbox.load_config t2
          (huesyncbox.reset_config (huesyncbox.load_config t1 c)))
     = huesyncbox.SYNCBOX_TOKEN (huesyncbox.load_config t1 c)) /\
  (forall c, t2 !! "appletv_id"%string = None ->
     appletv.APPLE_TV_ID
       (appletv.load_config t2
          (appletv.reset_config (appletv.load_config t1 c)))
     = appletv.APPLE_TV_ID (appletv.load_config t1 c)).
Proof.
  repeat split.
  - intros c. unfold appletv.load_config.
    now destruct (appletv._config_loaded c) eqn:E; cbn; rewrite ?E.
  - intros c. unfold huesyncbox.load_config.
    now destruct (huesyncbox._config_loaded c) eqn:E; cbn; rewrite ?E.
  - intros c. unfold samsungtv.load_config.
    now destruct (samsungtv._config_loaded c) eqn:E; cbn; rewrite ?E.
  - intros c H. unfold samsungtv.load_config at 1, samsungtv.reset_config.
    cbn. unfold taken. now rewrite H.
  - intros c H. unfold huesyncbox.load_config at 1, huesyncbox.reset_config.
    cbn. unfold taken. now rewrite H.
  - intros c H. unfold appletv.load_config at 1, appletv.reset_config.
    cbn. unfold taken. now rewrite H.
Qed.

(** X19: After the first [load_config], [configured()] of [samsungtv] and of
    [huesyncbox] holds exactly when each of their settings is in the
    tags with a text that is not empty; and what is configured is
    activated. *)
Theorem configured_needs_all_settings (tags : gmap string string) :
  (samsungtv.configured (samsungtv.load_config tags samsungtv.initial) = true
   <-> truthy_opt (tags !! "smartthings_token"%string) = true /\
       truthy_opt (tags !! "smartthings_tv_device_id"%string) = true /\
       truthy_opt (tags !! "smartthings_appletv_input"%string) = true) /\
  (huesyncbox.configured (huesyncbox.load_config tags huesyncbox.initial) = true
   <-> truthy_opt (tags !! "syncbox_host"%string) = true /\
       truthy_opt (tags !! "syncbox_id"%string) = true /\
       truthy_opt (tags !! "syncbox_token"%string) = true /\
       truthy_opt (tags !! "syncbox_appletv_input"%string) = true) /\
  (forall c, samsungtv.configured c = true -> samsungtv.activated c = true) /\
  (forall c, huesyncbox.configured c = true -> huesyncbox.activated c = true).
Proof.
  split; [|split; [|split]].
  - unfold samsungtv.configured, samsungtv.load_config. cbn. unfold taken.
    destruct (tags !! "smartthings_token"%string),
      (tags !! "smartthings_tv_device_id"%string),
      (tags !! "smartthings_appletv_input"%string);
      cbn; rewrite ?andb_true_iff; intuition discriminate.
  - unfold huesyncbox.configured, huesyncbox.load_config. cbn. unfold taken.
    destruct (tags !! "syncbox_host"%string), (tags !! "syncbox_id"%string),
      (tags !! "syncbox_token"%string),
      (tags !! "syncbox_appletv_input"%string);
      cbn; rewrite ?andb_true_iff; intuition discriminate.
  - intros c. unfold samsungtv.configured, samsungtv.activated.
    rewrite !andb_true_iff, orb_true_iff. tauto.
  - intros c. unfold huesyncbox.configured, huesyncbox.activated.
    rewrite !andb_true_iff, orb_true_iff. tauto.
Qed.

(** ** The Hue Sync Box *)

(** X20: A Sync Box that is not fully configured is never asked to switch,
    and the answer is [False]. *)
Theorem huesyncbox_switch_needs_configuration (c : huesyncbox.config)
    (reach : option (string -> huesyncbox.set_state_result)) :
  huesyncbox.configured c = false ->
  huesyncbox.switch_to_appletv c reach = ([], false).
Proof.
  unfold huesyncbox.configured, huesyncbox.switch_to_appletv,
    huesyncbox.connect.
  destruct (huesyncbox.SYNCBOX_APPLETV_INPUT c) as [input|]; [|reflexivity].
  cbn [truthy_opt].
  destruct (truthy input); [|reflexivity].
  destruct (truthy_opt (huesyncbox.SYNCBOX_HOST c)); [|reflexivity].
  destruct (truthy_opt (huesyncbox.SYNCBOX_ID c)); [|reflexivity].
  destruct (truthy_opt (huesyncbox.SYNCBOX_TOKEN c)); [|reflexivity].
  discriminate.
Qed.

Lemma huesyncbox_switch_needs_configuration_witness :
  huesyncbox.switch_to_appletv
    (huesyncbox.load_config {[ "syncbox_host"%string := "10.0.0.5"%string ]}
       huesyncbox.initial)
    (Some (fun _ => huesyncbox.StateSet))
  = ([], false).
Proof.
  apply (huesyncbox_switch_needs_configuration
           (huesyncbox.load_config
              {[ "syncbox_host"%string := "10.0.0.5"%string ]}
              huesyncbox.initial)).
  reflexivity.
Defined.

(** ** The Samsung TV *)

(** X21: [set_input_source] sends nothing without a token or a device id.
    Otherwise it asks with the capability [mediaInputSource] and, unless
    that was answered with status 200, with
    [samsungvd.mediaInputSource], whatever went wrong the first time
    (status 422, another status, a request exception); it answers
    [True] exactly when its last request was answered with 200. *)
Theorem set_input_source_attempts (c : samsungtv.config)
    (post : samsungtv.request -> samsungtv.http_result)
    (input_source : string) (device_id : option string) :
  let device := py_or device_id (samsungtv.SMARTTHINGS_TV_DEVICE_ID c) in
  let rq capability :=
    {| samsungtv.device_id := default ""%string device;
       samsungtv.capability := capability;
       samsungtv.command := "setInputSource";
       samsungtv.arguments := [input_source] |} in
  let first := rq "mediaInputSource"%string in
  let second := rq "samsungvd.mediaInputSource"%string in
  let r := samsungtv.set_input_source c post input_source device_id in
  (truthy_opt (samsungtv.SMARTTHINGS_TOKEN c) = false \/
   truthy_opt device = false -> r = ([], false)) /\
  (truthy_opt (samsungtv.SMARTTHINGS_TOKEN c) = true ->
   truthy_opt device = true ->
   r = if samsungtv.status_200 (post first) then ([first], true)
       else ([first; second], samsungtv.status_200 (post second))) /\
  (snd r = true <->
   exists rq, last (fst r) = Some rq /\
              samsungtv.status_200 (post rq) = true).
Proof.
  cbv zeta. unfold samsungtv.set_input_source.
  set (device := py_or device_id (samsungtv.SMARTTHINGS_TV_DEVICE_ID c)).
  destruct (truthy_opt (samsungtv.SMARTTHINGS_TOKEN c)) eqn:Ht; cbn [negb].
  2:{ split; [auto|]. split; [discriminate|].
      cbn. split; [discriminate|]. intros (rq & H & _). discriminate. }
  destruct device as [dv|] eqn:Hd; cbn [truthy_opt from_option id].
  2:{ split; [auto|]. split; [discriminate|].
      cbn. split; [discriminate|]. intros (rq & H & _). discriminate. }
  destruct (truthy dv) eqn:Hdv; cbn [negb].
  2:{ split; [auto|]. split; [discriminate|].
      cbn. split; [discriminate|]. intros (rq & H & _). discriminate. }
  cbn [samsungtv.try_capabilities].
  set (first := {| samsungtv.device_id := dv;
                   samsungtv.capability := "mediaInputSource" |}).
  set (second := {| samsungtv.device_id := dv;
                    samsungtv.capability := "samsungvd.mediaInputSource" |}).
  split; [intros [H|H]; discriminate|].
  unfold samsungtv.status_200.
  destruct (post first) as [c1|] eqn:E1; [destruct (c1 =? 200) eqn:Ec1|];
    [|destruct (post second) as [c2|] eqn:E2;
      [destruct (c2 =? 200) eqn:Ec2|]..]; cbn [fst snd last].
  - split; [intros _ _; reflexivity|]. split; [|reflexivity].
    intros _. exists first. now rewrite E1, Ec1.
  - split; [intros _ _; reflexivity|]. split; [|reflexivity].
    intros _. exists second. now rewrite E2, Ec2.
  - split; [intros _ _; reflexivity|]. split; [discriminate|].
    intros (rq & H & Hp). inversion H; subst. now rewrite E2, Ec2 in Hp.
  - split; [intros _ _; reflexivity|]. split; [discriminate|].
    intros (rq & H & Hp). inversion H; subst. now rewrite E2 in Hp.
  - split; [intros _ _; reflexivity|]. split; [|reflexivity].
    intros _. exists second. now rewrite E2, Ec2.
  - split; [intros _ _; reflexivity|]. split; [discriminate|].
    intros (rq & H & Hp). inversion H; subst. now rewrite E2, Ec2 in Hp.
  - split; [intros _ _; reflexivity|]. split; [discriminate|].
    intros (rq & H & Hp). inversion H; subst. now rewrite E2 in Hp.
Qed.

(** ** The HomePod *)

(** X22: [stream_file] tries nothing and answers [False] when no target is
    given and no default is configured, and also when the target given
    is the empty text, default or not; a target that is given and not
    empty is the one streamed to, whatever the default; an absolute path
    is streamed as it is, and an exception of the streaming gives
    [False]. *)
Theorem stream_file_target (isabs : string -> bool)
    (join : string -> string -> string)
    (stream : string -> string -> option bool)
    (c : homepod.config) (file_path : string) :
  let path :=
    if isabs file_path then file_path
    else if truthy (homepod.mp3_dir c)
         then join (homepod.mp3_dir c) file_path else file_path in
  (homepod.default_homepod c = ""%string ->
   homepod.stream_file isabs join stream c file_path None = ([], false)) /\
  homepod.stream_file isabs join stream c file_path (Some ""%string)
  = ([], false) /\
  (forall target, target <> ""%string ->
     homepod.stream_file isabs join stream c file_path (Some target)
     = ([(path, target)], default false (stream path target))) /\
  (homepod.default_homepod c <> ""%string ->
   homepod.stream_file isabs join stream c file_path None
   = ([(path, homepod.default_homepod c)],
      default false (stream path (homepod.default_homepod c)))).
Proof.
  cbv zeta. unfold homepod.stream_file. repeat split.
  - now intros ->.
  - intros target Hne. destruct target as [|a t]; [congruence|].
    cbn [truthy negb]. now destruct (stream _ _).
  - intros Hne. destruct (homepod.default_homepod c) as [|a t]; [congruence|].
    cbn [truthy negb]. now destruct (stream _ _).
Qed.

(** X23: [load_config] of [homepod] and of [xboxctl] builds the settings
    anew at every call: the last call decides, and a key that the tags
    do not hold falls back to its default.  After it, [configured()] of
    [homepod] holds exactly when the tags name a HomePod or a default
    that is not empty. *)
Theorem load_config_every_time (t1 t2 : homepod.settings)
    (x1 x2 : gmap string string) :
  (forall c, homepod.load_config t2 (homepod.load_config t1 c)
             = homepod.load_config t2 c) /\
  (forall c, xboxctl.load_config x2 (xboxctl.load_config x1 c)
             = xboxctl.load_config x2 c) /\
  (forall c, homepod.tags_default_homepod t2 = None ->
             homepod.default_homepod (homepod.load_config t2 c) = ""%string) /\
  (forall c,
     homepod.configured (homepod.load_config t2 c) = true <->
     (exists hs, homepod.tags_homepods t2 = Some hs /\ hs <> ∅) \/
     (exists d, homepod.tags_default_homepod t2 = Some d /\ d <> ""%string)).
Proof.
  repeat split; try reflexivity.
  - intros c H. unfold homepod.load_config. cbn. now rewrite H.
  - unfold homepod.configured, homepod.load_config. cbn.
    intros H. apply orb_true_iff in H as [H|H].
    + left. apply negb_true_iff, bool_decide_eq_false in H.
      destruct (homepod.tags_homepods t2) as [hs|]; cbn in H; [eauto|].
      now destruct H.
    + right. destruct (homepod.tags_default_homepod t2) as [d|]; cbn in H;
        [|discriminate].
      exists d. split; [reflexivity|]. intros ->. discriminate.
  - unfold homepod.configured, homepod.load_config. cbn.
    intros [(hs & -> & Hne)|(d & -> & Hne)]; cbn; apply orb_true_iff.
    + left. apply negb_true_iff, bool_decide_eq_false. exact Hne.
    + right. destruct d; [congruence|reflexivity].
Qed.

(** ** The Xbox *)

(** X24: When the account is signed in and no console is known (the list is
    empty, cannot be read, or the request fails), [power_on()] wakes
    nothing and still answers [True], while [launch_app] and
    [power_off] answer [False]; without a sign-in all three answer
    [False] and call nothing. *)
Theorem xbox_without_consoles (x : xboxctl.xbox_live) (app_id : string) :
  (xboxctl.authenticated x = true ->
   snd (xboxctl.get_consoles x) = [] ->
   xboxctl.power_on x None = ([xboxctl.call_get_console_list], true) /\
   xboxctl.launch_app x app_id None = ([xboxctl.call_get_console_list], false) /\
   xboxctl.power_off x None = ([xboxctl.call_get_console_list], false)) /\
  (xboxctl.authenticated x = true ->
   (xboxctl.get_console_list x = xboxctl.Consoles [] \/
    xboxctl.get_console_list x = xboxctl.NoResultAttribute \/
    xboxctl.get_console_list x = xboxctl.ConsoleListException) ->
   snd (xboxctl.get_consoles x) = []) /\
  (xboxctl.authenticated x = false ->
   forall console_id,
     xboxctl.power_on x console_id = ([], false) /\
     xboxctl.launch_app x app_id console_id = ([], false) /\
     xboxctl.power_off x console_id = ([], false)).
Proof.
  split; [|split].
  - intros Ha Hc.
    unfold xboxctl.power_on, xboxctl.launch_app, xboxctl.power_off,
      xboxctl.target_of, py_or.
    rewrite Ha, Hc. cbn [truthy_opt head].
    unfold xboxctl.get_consoles. rewrite Ha. cbn [fst]. auto.
  - intros Ha H. unfold xboxctl.get_consoles. rewrite Ha. cbn [snd].
    destruct H as [->|[->| ->]]; reflexivity.
  - intros Ha console_id.
    unfold xboxctl.power_on, xboxctl.launch_app, xboxctl.power_off.
    rewrite Ha. auto.
Qed.

(** X25: [power_on()] with consoles: they are woken in the order of the
    list, the first call that raises ends the waking, and the answer is
    [True] exactly when every console of the list was woken. *)
Theorem power_on_wakes_in_order (x : xboxctl.xbox_live)
    (consoles : list string) :
  xboxctl.authenticated x = true ->
  xboxctl.get_console_list x = xboxctl.Consoles consoles ->
  exists woken,
    xboxctl.power_on x None
    = (xboxctl.call_get_console_list :: map xboxctl.call_wake_up woken,
       forallb (xboxctl.wake_up x) consoles) /\
    (forallb (xboxctl.wake_up x) consoles = true -> woken = consoles) /\
    (exists rest, consoles = woken ++ rest) /\
    Forall (fun id => xboxctl.wake_up x id = true) (removelast woken).
Proof.
  intros Ha Hc. unfold xboxctl.power_on. rewrite Ha.
  unfold xboxctl.get_consoles. rewrite Ha, Hc. cbn [fst snd app].
  clear Hc.
  assert (exists woken,
            xboxctl.wake_all x consoles
            = (map xboxctl.call_wake_up woken,
               forallb (xboxctl.wake_up x) consoles) /\
            (forallb (xboxctl.wake_up x) consoles = true -> woken = consoles) /\
            (exists rest, consoles = woken ++ rest) /\
            Forall (fun id => xboxctl.wake_up x id = true) (removelast woken))
    as (woken & E & H1 & H2 & H3).
  { induction consoles as [|id ids IH].
    - exists []. cbn. repeat split; auto. now exists [].
    - cbn [xboxctl.wake_all forallb].
      destruct (xboxctl.wake_up x id) eqn:Hw.
      + destruct IH as (woken & E & H1 & (rest & H2) & H3).
        exists (id :: woken). rewrite E. cbn [fst snd map andb].
        split; [reflexivity|]. split; [|split].
        * intros H. now rewrite H1.
        * exists rest. now rewrite H2 at 1.
        * destruct woken as [|a l]; [constructor|].
          cbn [removelast] in *. constructor; auto.
      + exists [id]. cbn. split; [reflexivity|].
        split; [discriminate|]. split; [now exists ids|constructor]. }
  exists woken. rewrite E. cbn [fst snd]. auto.
Qed.

Lemma power_on_wakes_in_order_witness :
  exists woken,
    xboxctl.power_on
      {| xboxctl.authenticated := true;
         xboxctl.get_console_list := xboxctl.Consoles ["A"; "B"]%string;
         xboxctl.wake_up := fun id => String.eqb id "A";
         xboxctl.smartglass_launch_app := fun _ _ => true;
         xboxctl.turn_off := fun _ => true |} None
    = (xboxctl.call_get_console_list :: map xboxctl.call_wake_up woken, false).
Proof.
  destruct (power_on_wakes_in_order
              {| xboxctl.authenticated := true;
                 xboxctl.get_console_list := xboxctl.Consoles ["A"; "B"]%string;
                 xboxctl.wake_up := fun id => String.eqb id "A";
                 xboxctl.smartglass_launch_app := fun _ _ => true;
                 xboxctl.turn_off := fun _ => true |}
              ["A"; "B"]%string eq_refl eq_refl) as (woken & E & _).
  exists woken. exact E.
Defined.

(** ** Yoto players *)

Lemma find_none_all {A} (f : A -> bool) (l : list A) :
  (forall x, In x l -> f x = false) -> List.find f l = None.
Proof.
  induction l as [|a l IH]; cbn; [reflexivity|]. intros H.
  rewrite (H a) by auto. apply IH. auto.
Qed.

(** X26: [_find_player] answers a player of the list or nothing.  With a
    player id it answers the first player whose id or name is that id,
    and nothing when there is none: neither the default player nor a
    player that is online stands in.  Without an id and without a
    default it answers the first player that is online, or else the
    first player, and nothing only for the empty list. *)
Theorem find_player_choice (default_player : option string)
    (players : list yoto.player) :
  (forall player_id p,
     yoto._find_player default_player players player_id = Some p ->
     In p players) /\
  (forall key, key <> ""%string ->
     yoto._find_player default_player players (Some key)
     = List.find (yoto.named key) players /\
     ((forall p, In p players -> yoto.named key p = false) ->
      yoto._find_player default_player players (Some key) = None)) /\
  (forall player_id,
     truthy_opt player_id = false -> truthy_opt default_player = false ->
     yoto._find_player default_player players player_id
     = yoto.first_online players /\
     (yoto.first_online players = None <-> players = []) /\
     (forall p, yoto.first_online players = Some p ->
        yoto.online p = Some true \/
        (head players = Some p /\
         forall q, In q players -> yoto.online q <> Some true))).
Proof.
  assert (Hfirst : forall p, yoto.first_online players = Some p -> In p players).
  { unfold yoto.first_online. intros p.
    destruct (List.find _ players) as [q|] eqn:E.
    - intros H. inversion H; subst. now apply find_some in E.
    - destruct players; cbn; [discriminate|]. intros H. inversion H. auto. }
  split; [|split].
  - intros player_id p. unfold yoto._find_player.
    destruct (truthy_opt player_id).
    { intros H. now apply find_some in H. }
    destruct (truthy_opt default_player).
    { intros H. now apply find_some in H. }
    apply Hfirst.
  - intros key Hne. unfold yoto._find_player.
    destruct key as [|a k]; [congruence|]. cbn [truthy_opt truthy default].
    split; [reflexivity|]. apply find_none_all.
  - intros player_id Hp Hd. unfold yoto._find_player. rewrite Hp, Hd.
    split; [reflexivity|]. split; [split|].
    + unfold yoto.first_online.
      destruct (List.find _ players); [discriminate|].
      now destruct players.
    + now intros ->.
    + intros p. unfold yoto.first_online.
      destruct (List.find _ players) as [q|] eqn:E.
      * intros H. inversion H; subst. apply find_some in E as [_ E].
        left. destruct (yoto.online p) as [[|]|]; cbn in E; congruence.
      * intros H. right. split; [exact H|].
        intros q Hq Hon.
        pose proof (find_none _ _ E q Hq) as Hf. cbn in Hf.
        rewrite Hon in Hf. discriminate.
Qed.

End ProviderFacts.
